(** * Coin collector: authoritative server and reconciling client

    A shallow embedding of [server.py] and [client.py].

    Conventions of the embedding.
    - Python floats are read as real numbers: [+], [-], [*], [/],
      [math.hypot], [min] and [max] are the exact operations on [R];
      infinities and NaN are outside the model.  Rounding is modelled in the
      two places where a float is fed back into the same computation frame
      after frame.  The local correction of the client rounds the result of
      every operation with the rounding function of a [Py.float_format];
      the same two lines are also written on binary64 itself
      ([Binary64.blend]).  The send timer of the client is a binary64 number
      ([PrimFloat]).
    - Python dictionaries that are iterated ([players], [entity_state]) are
      association lists in insertion order; a store to an existing key keeps
      its place, as in Python.
    - A raised exception that the program does not catch is [None].
    - [json.loads], [json.dumps], [float] and [int] on strings and the
      drawing calls of pygame belong to libraries, not to the program: they
      are section variables.
    - Text is a [string]; [json.dumps] writes ASCII only, so on the wire a
      byte is a character.
    - Wall-clock time and [random.randint] are inputs of the step functions;
      the threads of the server are step functions on the shared world, and
      their interleaving is not modelled. *)

From Stdlib Require Import Reals Lra Lia ZArith List Bool String Ascii.
From Stdlib Require Floats.
From Equations Require Import Equations.
Import ListNotations.

Set Warnings "-register-all,-inexact-float".

(** ** Python built-ins on numbers *)

Module Py.

Local Open Scope R_scope.

(** [min(a, b)]: the first argument unless the second is smaller. *)
Definition min (a b : R) : R := if Rlt_dec b a then b else a.

(** [max(a, b)]: the first argument unless the second is greater. *)
Definition max (a b : R) : R := if Rgt_dec b a then b else a.

(** [math.hypot(a, b)]. *)
Definition hypot (a b : R) : R := sqrt (a * a + b * b).

(** A floating-point format, given by the function that rounds a real
    result to a value of the format.  The laws are those of rounding to
    nearest in binary64, overflow aside: rounding keeps the order, gives
    values that round to themselves, and at most doubles a magnitude (a
    normal number moves by a fraction of its last place, and below the
    smallest subnormal [s] a number is rounded to [s] only from [s / 2]
    on). *)
Record float_format : Type := Format {
  round : R -> R;
  round_monotone : forall x y, x <= y -> round x <= round y;
  round_idempotent : forall x, round (round x) = round x;
  round_above : forall x, 0 <= x -> round x <= 2 * x;
  round_below : forall x, x <= 0 -> 2 * x <= round x
}.

(** The values of a format: the numbers that rounding leaves alone. *)
Definition in_format (F : float_format) (x : R) : Prop := round F x = x.

(** [int(r)] for a float [r]: the integer part, toward zero. *)
Definition int_of_float (r : R) : Z :=
  if Rle_dec 0 r then Int_part r else (- Int_part (- r))%Z.

End Py.

(** ** Python text: the [str] methods the decoders use *)

Module Text.

Local Open Scope string_scope.

(** The line delimiter of the protocol. *)
Definition newline : ascii := "010"%char.

(** [c.isspace()] for the characters a [string] can hold. *)
Definition is_space (c : ascii) : bool :=
  let n := nat_of_ascii c in
  ((9 <=? n) && (n <=? 13) || (28 <=? n) && (n <=? 32)
   || (n =? 133) || (n =? 160))%nat.

Fixpoint lstrip (s : string) : string :=
  match s with
  | EmptyString => EmptyString
  | String c t => if is_space c then lstrip t else s
  end.

Fixpoint rstrip (s : string) : string :=
  match s with
  | EmptyString => EmptyString
  | String c t =>
      match rstrip t with
      | EmptyString => if is_space c then EmptyString else String c EmptyString
      | t' => String c t'
      end
  end.

(** [s.strip()]. *)
Definition strip (s : string) : string := rstrip (lstrip s).

(** [not s] for a string. *)
Definition is_empty (s : string) : bool :=
  match s with EmptyString => true | _ => false end.

(** [s.split("\n", 1)] when ["\n" in s]: the text before the first newline
    and the text after it; [None] when [s] has no newline. *)
Fixpoint split_newline (s : string) : option (string * string) :=
  match s with
  | EmptyString => None
  | String c t =>
      if Ascii.eqb c newline then Some (EmptyString, t)
      else match split_newline t with
           | Some (line, rest) => Some (String c line, rest)
           | None => None
           end
  end.

(** ["\n" in s]. *)
Fixpoint has_newline (s : string) : bool :=
  match s with
  | EmptyString => false
  | String c t => Ascii.eqb c newline || has_newline t
  end.

Definition concat (chunks : list string) : string :=
  fold_right append EmptyString chunks.

End Text.

(** ** JSON values as Python objects *)

Module Json.

Local Open Scope string_scope.

(** What [json.loads] returns: [None], [bool], [int], [float], [str], [list]
    and [dict] (keys in insertion order). *)
Inductive json : Type :=
| JNull
| JBool (b : bool)
| JInt (z : Z)
| JFloat (r : R)
| JStr (s : string)
| JArr (l : list json)
| JObj (m : list (string * json)).

Fixpoint lookup (k : string) (m : list (string * json)) : option json :=
  match m with
  | [] => None
  | (k', v) :: rest => if String.eqb k k' then Some v else lookup k rest
  end.

(** [obj.get(k, default)]: only a [dict] has [get]; on anything else the
    call raises [AttributeError]. *)
Definition get (obj : json) (k : string) (default : json) : option json :=
  match obj with
  | JObj m => Some (match lookup k m with Some v => v | None => default end)
  | _ => None
  end.

(** [obj[k]] for a string [k]: [KeyError] when the key is absent from a
    [dict], [TypeError] when [obj] is not a [dict]. *)
Definition getitem (obj : json) (k : string) : option json :=
  match obj with
  | JObj m => lookup k m
  | _ => None
  end.

(** [bool(v)]. *)
Definition truthy (v : json) : bool :=
  match v with
  | JNull => false
  | JBool b => b
  | JInt z => negb (z =? 0)%Z
  | JFloat r => if Req_dec_T r 0 then false else true
  | JStr s => negb (Text.is_empty s)
  | JArr l => match l with [] => false | _ => true end
  | JObj m => match m with [] => false | _ => true end
  end.

(** [v == s] for a string literal [s]. *)
Definition eq_str (v : json) (s : string) : bool :=
  match v with
  | JStr t => String.eqb t s
  | _ => false
  end.

(** The numeric value of a [bool], [int] or [float]. *)
Definition number (v : json) : option R :=
  match v with
  | JBool b => Some (if b then 1 else 0)%R
  | JInt z => Some (IZR z)
  | JFloat r => Some r
  | _ => None
  end.

(** Whether [v] can be a dictionary key or a set member. *)
Definition hashable (v : json) : bool :=
  match v with
  | JArr _ | JObj _ => false
  | _ => true
  end.

(** [k == v] where [k] is hashable: numbers compare by value ([True == 1
    == 1.0]), strings by content, [None] only equals [None]. *)
Definition key_eqb (k v : json) : bool :=
  match number k, number v with
  | Some a, Some b => if Req_dec_T a b then true else false
  | None, None =>
      match k, v with
      | JNull, JNull => true
      | JStr s, JStr t => String.eqb s t
      | _, _ => false
      end
  | _, _ => false
  end.

(** [list(v)], the elements a [for] loop over [v] visits: a [dict] yields
    its keys, a [str] its characters; the others raise [TypeError]. *)
Definition elements (v : json) : option (list json) :=
  match v with
  | JArr l => Some l
  | JObj m => Some (map (fun kv => JStr (fst kv)) m)
  | JStr s => Some (map (fun c => JStr (String c EmptyString))
                        (list_ascii_of_string s))
  | _ => None
  end.

End Json.

(** ** The server: world state and the authoritative game loop *)

Module Server.

Import Json.
Local Open Scope R_scope.

Definition TICK_RATE : R := 20.
Definition DT : R := 1 / TICK_RATE.
Definition MAP_WIDTH : R := 800.
Definition MAP_HEIGHT : R := 600.
Definition PLAYER_SPEED : R := 200.
Definition PLAYER_RADIUS : R := 20.
Definition COIN_RADIUS : R := 15.
Definition MAX_COINS : nat := 5.

(** A connection handle, the key of the [players] dictionary. *)
Definition conn : Type := nat.

(** The ["input"] dictionary of a player. *)
Record keys : Type := Keys {
  k_up : bool;
  k_down : bool;
  k_left : bool;
  k_right : bool
}.

Record player : Type := Player {
  p_id : Z;
  p_x : R;
  p_y : R;
  p_score : Z;
  p_input : keys
}.

(** A coin; [random.randint] gives it integer coordinates. *)
Record coin : Type := Coin {
  c_id : Z;
  c_x : Z;
  c_y : Z
}.

(** The module globals [players], [coins], [next_player_id] and
    [next_coin_id]. *)
Record world : Type := World {
  players : list (conn * player);
  coins : list coin;
  next_player_id : Z;
  next_coin_id : Z
}.

(** [spawn_coin], with the two [random.randint] results as arguments. *)
Definition spawn_coin (x y : Z) (w : world) : world :=
  let coin := Coin (next_coin_id w) x y in
  World (players w) (coins w ++ [coin]) (next_player_id w)
        (next_coin_id w + 1).

(** *** Movement: the first loop over [player_items] *)

Definition set_pos (p : player) (x y : R) : player :=
  Player (p_id p) x y (p_score p) (p_input p).

(** The direction [(dx, dy)] read from the four flags, before it is
    normalised. *)
Definition direction (k : keys) : R * R :=
  let dx := 0 in
  let dy := 0 in
  let dy := if k_up k then dy - 1 else dy in
  let dy := if k_down k then dy + 1 else dy in
  let dx := if k_left k then dx - 1 else dx in
  let dx := if k_right k then dx + 1 else dx in
  (dx, dy).

(** [if length > 0: dx /= length; dy /= length]. *)
Definition normalise (d : R * R) : R * R :=
  let '(dx, dy) := d in
  let length := Py.hypot dx dy in
  if Rgt_dec length 0 then (dx / length, dy / length) else (dx, dy).

(** The position after integration and before clamping. *)
Definition integrate (p : player) : R * R :=
  let '(dx, dy) := normalise (direction (p_input p)) in
  (p_x p + dx * PLAYER_SPEED * DT, p_y p + dy * PLAYER_SPEED * DT).

(** One iteration of the movement loop: integrate, then clamp. *)
Definition update_position (p : player) : player :=
  let '(x, y) := integrate p in
  set_pos p
    (Py.max PLAYER_RADIUS (Py.min (MAP_WIDTH - PLAYER_RADIUS) x))
    (Py.max PLAYER_RADIUS (Py.min (MAP_HEIGHT - PLAYER_RADIUS) y)).

Definition move_players (player_items : list (conn * player))
  : list (conn * player) :=
  map (fun cp => (fst cp, update_position (snd cp))) player_items.

(** *** Collisions: the loop over [coins] *)

Definition add_score (p : player) : player :=
  Player (p_id p) (p_x p) (p_y p) (p_score p + 1) (p_input p).

(** [dist = math.hypot(px - cx, py - cy)]. *)
Definition dist (p : player) (c : coin) : R :=
  Py.hypot (p_x p - IZR (c_x c)) (p_y p - IZR (c_y c)).

(** The inner loop for one coin: the first player with
    [dist < PLAYER_RADIUS + COIN_RADIUS] scores and the loop breaks.
    Returns the players and whether the coin was collected. *)
Fixpoint collect (c : coin) (player_items : list (conn * player))
  : list (conn * player) * bool :=
  match player_items with
  | [] => ([], false)
  | (k, p) :: rest =>
      if Rlt_dec (dist p c) (PLAYER_RADIUS + COIN_RADIUS)
      then ((k, add_score p) :: rest, true)
      else let '(rest', hit) := collect c rest in ((k, p) :: rest', hit)
  end.

(** The set [to_remove] of coin ids. *)
Abbreviation id_set := (list Z) (only parsing).

Definition mem (i : Z) (s : id_set) : bool := existsb (Z.eqb i) s.

Definition add (i : Z) (s : id_set) : id_set :=
  if mem i s then s else i :: s.

(** The body of the outer loop for one coin. *)
Definition sweep_coin (c : coin) (st : list (conn * player) * id_set)
  : list (conn * player) * id_set :=
  let '(items, to_remove) := st in
  let '(items', hit) := collect c items in
  (items', if hit then add (c_id c) to_remove else to_remove).

Definition sweep (cs : list coin) (st : list (conn * player) * id_set)
  : list (conn * player) * id_set :=
  fold_left (fun st c => sweep_coin c st) cs st.

(** [if to_remove: coins[:] = [c for c in coins if c["id"] not in
    to_remove]]. *)
Definition remove_collected (to_remove : id_set) (cs : list coin)
  : list coin :=
  match to_remove with
  | [] => cs
  | _ => filter (fun c => negb (mem (c_id c) to_remove)) cs
  end.

(** The whole collision block: the players with their new scores and the
    coins that remain. *)
Definition handle_collisions (player_items : list (conn * player))
  (cs : list coin) : list (conn * player) * list coin :=
  let '(items', to_remove) := sweep cs (player_items, []) in
  (items', remove_collected to_remove cs).

(** *** The state message *)

Local Open Scope string_scope.

(** An entry of [players_snapshot]. *)
Definition player_entry (p : player) : json :=
  JObj [("id", JInt (p_id p)); ("x", JFloat (p_x p)); ("y", JFloat (p_y p));
        ("score", JInt (p_score p))].

(** An entry of [coins_snapshot], a copy of the coin's dictionary. *)
Definition coin_entry (c : coin) : json :=
  JObj [("id", JInt (c_id c)); ("x", JInt (c_x c)); ("y", JInt (c_y c))].

Definition state_msg (player_items : list (conn * player)) (cs : list coin)
  : json :=
  JObj [("type", JStr "state");
        ("players", JArr (map (fun cp => player_entry (snd cp)) player_items));
        ("coins", JArr (map coin_entry cs))].

(** *** One iteration of [game_loop]

    [now] is [time.time()] at the spawn test and [rx], [ry] are the values
    [random.randint] returns if a coin is spawned.  The result is the new
    world, the new [last_spawn_time] and the calls of [send_message], one per
    snapshot entry. *)
Definition tick (now : R) (rx ry : Z) (w : world) (last_spawn_time : R)
  : world * R * list (conn * json) :=
  let '(w1, last_spawn_time') :=
    if (List.length (coins w) <? MAX_COINS)%nat
    then if Rgt_dec (now - last_spawn_time) 2
         then (spawn_coin rx ry w, now)
         else (w, last_spawn_time)
    else (w, last_spawn_time) in
  let player_items := players w1 in
  let moved := move_players player_items in
  let '(scored, coins') := handle_collisions moved (coins w1) in
  let msg := state_msg scored coins' in
  (World scored coins' (next_player_id w1) (next_coin_id w1),
   last_spawn_time',
   map (fun cp => (fst cp, msg)) scored).

Definition tick_world (now : R) (rx ry : Z) (w : world) (t : R) : world :=
  fst (fst (tick now rx ry w t)).

(** *** The [players] dictionary *)

Fixpoint dict_get (c : conn) (m : list (conn * player)) : option player :=
  match m with
  | [] => None
  | (c', p) :: rest => if (c =? c')%nat then Some p else dict_get c rest
  end.

(** [players[c] = p]: a present key keeps its place, a new one goes last. *)
Fixpoint dict_set (c : conn) (p : player) (m : list (conn * player))
  : list (conn * player) :=
  match m with
  | [] => [(c, p)]
  | (c', q) :: rest =>
      if (c =? c')%nat then (c, p) :: rest else (c', q) :: dict_set c p rest
  end.

(** [if c in players: del players[c]]. *)
Definition dict_del (c : conn) (m : list (conn * player))
  : list (conn * player) :=
  filter (fun cp => negb (fst cp =? c)%nat) m.

Definition set_players (w : world) (ps : list (conn * player)) : world :=
  World ps (coins w) (next_player_id w) (next_coin_id w).

(** *** [handle_client]: one thread per connection *)

Section HandleClient.

Variable json_loads : string -> option json.
Variable json_dumps : json -> string.

(** [send_message]: the text written to the socket, one line per message. *)
Definition send_message (obj : json) : string :=
  json_dumps obj ++ String Text.newline EmptyString.

(** What a connection's thread works on: the shared world, its local
    [player_id], and the objects it has handed to [send_message]. *)
Record session : Type := Session {
  s_world : world;
  s_player_id : option Z;
  s_sent : list json
}.

(** How the body of the [for line in f] loop ends. *)
Inductive control : Type :=
| Continue
| Break
| Raise.

Definition set_input (p : player) (k : keys) : player :=
  Player (p_id p) (p_x p) (p_y p) (p_score p) k.

(** The ["join"] branch; [start] holds the two [random.randint] results. *)
Definition join (c : conn) (start : Z * Z) (s : session) : session :=
  let w := s_world s in
  let player_id := next_player_id w in
  let p := Player player_id (IZR (fst start)) (IZR (snd start)) 0
                  (Keys false false false false) in
  Session
    (World (dict_set c p (players w)) (coins w) (player_id + 1)
           (next_coin_id w))
    (Some player_id)
    (s_sent s ++ [JObj [("type", JStr "welcome"); ("id", JInt player_id)]]).

(** [bool(keys.get(name, False))]. *)
Definition flag (ks : list (string * json)) (name : string) : bool :=
  match lookup name ks with
  | Some v => truthy v
  | None => truthy (JBool false)
  end.

(** The ["input"] branch, entered when [player_id is not None]. *)
Definition input (c : conn) (msg : json) (s : session) : option session :=
  match get msg "keys" (JObj []) with
  | None => None
  | Some ks =>
      match dict_get c (players (s_world s)) with
      | None => Some s
      | Some p =>
          match ks with
          | JObj ks =>
              let k := Keys (flag ks "up") (flag ks "down")
                            (flag ks "left") (flag ks "right") in
              Some (Session
                      (set_players (s_world s)
                         (dict_set c (set_input p k) (players (s_world s))))
                      (s_player_id s) (s_sent s))
          | _ => None
          end
      end
  end.

(** The dispatch on [msg.get("type")]; [None] is a raised exception. *)
Definition handle_message (c : conn) (start : Z * Z) (msg : json)
  (s : session) : option session :=
  match get msg "type" JNull with
  | None => None
  | Some mtype =>
      if eq_str mtype "join" then Some (join c start s)
      else if eq_str mtype "input"
                && match s_player_id s with Some _ => true | None => false end
      then input c msg s
      else Some s
  end.

(** The body of the loop for one line. *)
Definition handle_line (c : conn) (start : Z * Z) (line : string)
  (s : session) : session * control :=
  let line := Text.strip line in
  if Text.is_empty line then (s, Break)
  else match json_loads line with
       | None => (s, Continue)
       | Some msg =>
           match handle_message c start msg s with
           | Some s' => (s', Continue)
           | None => (s, Raise)
           end
       end.

(** [for line in f]: the lines the file object yields, each paired with the
    random draws a join on that line would use.  The result tells how the
    loop was left: [Continue] when the stream ended. *)
Fixpoint serve (c : conn) (lines : list (string * (Z * Z))) (s : session)
  : session * control :=
  match lines with
  | [] => (s, Continue)
  | (line, start) :: rest =>
      match handle_line c start line s with
      | (s', Continue) => serve c rest s'
      | stopped => stopped
      end
  end.

(** The [finally] block. *)
Definition close (c : conn) (s : session) : session :=
  Session (set_players (s_world s) (dict_del c (players (s_world s))))
          (s_player_id s) (s_sent s).

Definition handle_client (c : conn) (lines : list (string * (Z * Z)))
  (w : world) : session :=
  close c (fst (serve c lines (Session w None []))).

End HandleClient.

(** The bounds every position is clamped to. *)
Definition in_bounds (p : player) : Prop :=
  PLAYER_RADIUS <= p_x p <= MAP_WIDTH - PLAYER_RADIUS /\
  PLAYER_RADIUS <= p_y p <= MAP_HEIGHT - PLAYER_RADIUS.

End Server.

(** ** The client: framing, reconciliation and the positions it draws *)

Module Client.

Import Json.
Local Open Scope R_scope.
Local Open Scope string_scope.

Definition MAP_WIDTH : R := 800.
Definition MAP_HEIGHT : R := 600.
Definition INTERP_DURATION : R := 0.1.

(** Exceptions are [None]; this is the sequencing of statements that may
    raise. *)
Notation "x <- e ;; k" :=
  (match e with Some x => k | None => None end)
  (at level 61, e at next level, right associativity).

(** The interpolation record of one player.  [x_draw] and [y_draw] are
    absent until the player has been drawn as the local one. *)
Record entity : Type := Entity {
  e_x_prev : R;
  e_y_prev : R;
  e_x : R;
  e_y : R;
  e_t : R;
  e_score : json;
  e_x_draw : option R;
  e_y_draw : option R
}.

(** The globals [world_state["coins"]], [my_id] and [entity_state]. *)
Record client : Type := ClientState {
  coins : json;
  my_id : json;
  entity_state : list (json * entity)
}.

(** What [sock.recv(4096)] followed by [data.decode("utf-8")] does in one
    call of [recv_messages]: yield text (empty when the server has closed),
    fail to decode, or raise one of the three socket errors. *)
Inductive recv_result : Type :=
| Received (text : string)
| UnicodeDecodeError
| BlockingIOError
| ConnectionResetError
| OSError.

Lemma split_newline_shorter (s line rest : string) :
  Text.split_newline s = Some (line, rest) ->
  (String.length rest < String.length s)%nat.
Proof.
  revert line. induction s as [|c s IH]; intros line H; cbn in H.
  - discriminate.
  - destruct (Ascii.eqb c Text.newline).
    + injection H as _ <-. cbn. lia.
    + destruct (Text.split_newline s) as [[l r]|]; [|discriminate].
      injection H as _ <-. specialize (IH l eq_refl). cbn. lia.
Qed.

(** A value together with the equation that names it, for the
    termination proofs of loops that test before they recurse. *)
Definition inspect {A : Type} (a : A) : {b : A | a = b} := exist _ a eq_refl.

Section Client.

Variable json_loads : string -> option json.
Variable json_dumps : json -> string.

(** [float(s)] for a string [s]; [None] is [ValueError]. *)
Variable float_of_str : string -> option R.

(** [int(s)] for a string [s]; [None] is [ValueError]. *)
Variable int_of_str : string -> option Z.

(** [pygame.draw.circle(screen, colour, (x, y), 10)] and
    [pygame.draw.rect(screen, colour, pygame.Rect(x, y, 30, 30))] belong to
    pygame: what they paint is not modelled, only whether they raise
    ([None]). *)
Variable draw_circle : Z * Z -> option unit.
Variable draw_rect : Z * Z -> option unit.

(** The floating-point format of the local correction. *)
Variable F : Py.float_format.

(** *** Message framing *)

(** The [while True] loop of [recv_messages]: takes complete lines off the
    front of [buffer], skipping empty and malformed ones. *)
Equations drain (buffer : string) (messages : list json)
  : string * list json by wf (String.length buffer) lt :=
  drain buffer messages with inspect (Text.split_newline buffer) := {
    | @exist None _ => (buffer, messages)
    | @exist (Some (line, rest)) Hsplit =>
        let line := Text.strip line in
        if Text.is_empty line then drain rest messages
        else match json_loads line with
             | Some msg => drain rest (messages ++ [msg])
             | None => drain rest messages
             end
  }.
Next Obligation. eapply split_newline_shorter; eauto. Qed.
Next Obligation. eapply split_newline_shorter; eauto. Qed.
Next Obligation. eapply split_newline_shorter; eauto. Qed.

(** [recv_messages(sock, buffer)], given what the socket does. *)
Definition recv_messages (r : recv_result) (buffer : string)
  : option (string * list json) :=
  match r with
  | Received data =>
      if Text.is_empty data then Some (buffer, [])
      else Some (drain (buffer ++ data) [])
  | UnicodeDecodeError => None
  | BlockingIOError | ConnectionResetError | OSError => Some (buffer, [])
  end.

(** [send_input]: the text written to the socket. *)
Definition send_input (keys : json) : string :=
  json_dumps (JObj [("type", JStr "input"); ("keys", keys)])
  ++ String Text.newline EmptyString.

(** *** Interpolation targets: [update_entities_from_server] *)

(** [float(v)]: [TypeError] on [None], lists and dictionaries. *)
Definition float (v : json) : option R :=
  match v with
  | JStr s => float_of_str s
  | JArr _ | JObj _ | JNull => None
  | _ => number v
  end.

(** [entity_state.get(pid)], keys compared as Python compares them. *)
Fixpoint find (pid : json) (es : list (json * entity)) : option entity :=
  match es with
  | [] => None
  | (k, ent) :: rest => if key_eqb k pid then Some ent else find pid rest
  end.

(** [pid in seen_ids]. *)
Definition seen (pid : json) (seen_ids : list json) : bool :=
  existsb (fun k => key_eqb k pid) seen_ids.

(** The record made on the first sight of a player. *)
Definition first_seen (x y : R) (score : json) : entity :=
  Entity x y x y 0 score None None.

(** The update of a record already present: the target becomes the
    previous position and the timer restarts. *)
Definition retarget (ent : entity) (x y : R) (score : json) : entity :=
  Entity (e_x ent) (e_y ent) x y 0 score (e_x_draw ent) (e_y_draw ent).

(** The [if pid not in entity_state ... else ...] statement. *)
Fixpoint upsert (pid : json) (x y : R) (score : json)
  (es : list (json * entity)) : list (json * entity) :=
  match es with
  | [] => [(pid, first_seen x y score)]
  | (k, ent) :: rest =>
      if key_eqb k pid then (k, retarget ent x y score) :: rest
      else (k, ent) :: upsert pid x y score rest
  end.

(** The body of [for p in players_list], on [entity_state] and
    [seen_ids]. *)
Definition update_entity (p : json) (st : list (json * entity) * list json)
  : option (list (json * entity) * list json) :=
  let '(es, seen_ids) := st in
  pid <- getitem p "id" ;;
  vx <- getitem p "x" ;;
  x <- float vx ;;
  vy <- getitem p "y" ;;
  y <- float vy ;;
  score <- getitem p "score" ;;
  if hashable pid
  then Some (upsert pid x y score es, pid :: seen_ids)
  else None.

Fixpoint update_entities (ps : list json)
  (st : list (json * entity) * list json)
  : option (list (json * entity) * list json) :=
  match ps with
  | [] => Some st
  | p :: rest => st' <- update_entity p st ;; update_entities rest st'
  end.

(** [update_entities_from_server(players_list)]: the loop, then the
    removal of every player the snapshot does not list. *)
Definition update_entities_from_server (players_list : json)
  (es : list (json * entity)) : option (list (json * entity)) :=
  ps <- elements players_list ;;
  st <- update_entities ps (es, []) ;;
  let '(es', seen_ids) := st in
  Some (filter (fun ke => seen (fst ke) seen_ids) es').

(** *** The message dispatch of [main] *)

Definition process (msg : json) (cl : client) : option client :=
  mtype <- get msg "type" JNull ;;
  if eq_str mtype "welcome" then
    id <- get msg "id" JNull ;;
    Some (ClientState (coins cl) id (entity_state cl))
  else if eq_str mtype "state" then
    cs <- get msg "coins" (JArr []) ;;
    players_list <- get msg "players" (JArr []) ;;
    es <- update_entities_from_server players_list (entity_state cl) ;;
    Some (ClientState cs (my_id cl) es)
  else Some cl.

Fixpoint process_all (msgs : list json) (cl : client) : option client :=
  match msgs with
  | [] => Some cl
  | msg :: rest => cl' <- process msg cl ;; process_all rest cl'
  end.

(** *** Timers and drawn positions *)

(** [ent["t"] += dt] for every record. *)
Definition advance (dt : R) (es : list (json * entity))
  : list (json * entity) :=
  map (fun ke =>
         let ent := snd ke in
         (fst ke,
          Entity (e_x_prev ent) (e_y_prev ent) (e_x ent) (e_y ent)
                 (e_t ent + dt) (e_score ent) (e_x_draw ent) (e_y_draw ent)))
      es.

(** [alpha = min(ent["t"] / INTERP_DURATION, 1.0)]. *)
Definition alpha (ent : entity) : R := Py.min (e_t ent / INTERP_DURATION) 1.

(** The remote branch: the position drawn for another player. *)
Definition interpolate (ent : entity) : R * R :=
  (e_x_prev ent + (e_x ent - e_x_prev ent) * alpha ent,
   e_y_prev ent + (e_y ent - e_y_prev ent) * alpha ent).

(** The literal [0.15], read into the format. *)
Definition correct_speed : R := Py.round F 0.15.

(** [draw += (target - draw) * rate]: the difference, the product and the
    sum are each rounded. *)
Definition blend (rate draw target : R) : R :=
  Py.round F (draw + Py.round F (Py.round F (target - draw) * rate)).

(** The visual position a record carries: [ent.get("x_draw", ent["x"])]
    and the same for [y]. *)
Definition visual (ent : entity) : R * R :=
  (match e_x_draw ent with Some v => v | None => e_x ent end,
   match e_y_draw ent with Some v => v | None => e_y ent end).

(** The local branch with correction rate [rate]: the visual position
    moves toward the authoritative one and is saved in the record. *)
Definition correct_with (rate : R) (ent : entity) : entity :=
  let '(x_draw, y_draw) := visual ent in
  let x_draw := blend rate x_draw (e_x ent) in
  let y_draw := blend rate y_draw (e_y ent) in
  Entity (e_x_prev ent) (e_y_prev ent) (e_x ent) (e_y ent) (e_t ent)
         (e_score ent) (Some x_draw) (Some y_draw).

(** The local branch as the program runs it. *)
Definition correct (ent : entity) : entity := correct_with correct_speed ent.

(** One iteration of the drawing loop up to the call of
    [pygame.draw.rect]: the record after it and the position
    [(x_draw, y_draw)]. *)
Definition draw_entity (me pid : json) (ent : entity) : entity * (R * R) :=
  if negb (key_eqb pid me) then (ent, interpolate ent)
  else let ent' := correct ent in (ent', visual ent').

Definition draw_players (me : json) (es : list (json * entity))
  : list (json * entity) * list (R * R) :=
  (map (fun ke => (fst ke, fst (draw_entity me (fst ke) (snd ke)))) es,
   map (fun ke => snd (draw_entity me (fst ke) (snd ke))) es).

(** [int(v)]: [TypeError] on [None], lists and dictionaries. *)
Definition int (v : json) : option Z :=
  match v with
  | JBool b => Some (if b then 1 else 0)%Z
  | JInt z => Some z
  | JFloat r => Some (Py.int_of_float r)
  | JStr s => int_of_str s
  | JNull | JArr _ | JObj _ => None
  end.

(** The body of [for c in coins]: the centre of the circle, once pygame
    has drawn it. *)
Definition draw_coin (c : json) : option (Z * Z) :=
  vx <- getitem c "x" ;;
  x <- int vx ;;
  vy <- getitem c "y" ;;
  y <- int vy ;;
  _ <- draw_circle (x, y) ;;
  Some (x, y).

Fixpoint draw_coins (cs : list json) : option (list (Z * Z)) :=
  match cs with
  | [] => Some []
  | c :: rest =>
      centre <- draw_coin c ;;
      centres <- draw_coins rest ;;
      Some (centre :: centres)
  end.

(** The corner [(int(x_draw) - 15, int(y_draw) - 15)] of a player's
    rectangle. *)
Definition corner (drawn : R * R) : Z * Z :=
  (Py.int_of_float (fst drawn) - 15, Py.int_of_float (snd drawn) - 15)%Z.

(** The calls of [pygame.draw.rect], one per record. *)
Fixpoint draw_rects (corners : list (Z * Z)) : option (list (Z * Z)) :=
  match corners with
  | [] => Some []
  | c :: rest =>
      _ <- draw_rect c ;;
      rects <- draw_rects rest ;;
      Some (c :: rects)
  end.

(** One iteration of the [while running] loop without its keyboard and
    window parts: receive and process, advance the timers by the frame time
    [dt], draw the coins, then the players.  Yields the new receive buffer,
    the new client state, the centres of the circles and the corners of the
    rectangles drawn. *)
Definition frame (dt : R) (r : recv_result) (recv_buffer : string)
  (cl : client)
  : option (string * client * list (Z * Z) * list (Z * Z)) :=
  received <- recv_messages r recv_buffer ;;
  let '(recv_buffer', msgs) := received in
  cl' <- process_all msgs cl ;;
  let aged := advance dt (entity_state cl') in
  cs <- elements (coins cl') ;;
  circles <- draw_coins cs ;;
  let '(es, drawn) := draw_players (my_id cl') aged in
  rects <- draw_rects (map corner drawn) ;;
  Some (recv_buffer', ClientState (coins cl') (my_id cl') es, circles, rects).

End Client.


End Client.

(** ** The local correction on binary64

    The two lines [x_draw += (ent["x"] - x_draw) * correct_speed] of
    [client.py] with Python's own arithmetic. *)

Module Binary64.

Import PrimFloat.
Local Open Scope float_scope.

Definition correct_speed : float := 0.15.

(** [draw += (target - draw) * rate]. *)
Definition blend (rate draw target : float) : float :=
  draw + (target - draw) * rate.

(** The visual coordinate after [n] frames in which the authoritative
    coordinate stays [target]. *)
Definition frames (n : nat) (draw target : float) : float :=
  Nat.iter n (fun draw => blend correct_speed draw target) draw.


End Binary64.

(** ** The client's input sending: the keyboard part of [main] *)

Module ClientInput.

Import Json.
Import PrimFloat.
Local Open Scope string_scope.

(** The [input_keys] dictionary, built from the four flags the keyboard
    gives. *)
Definition input_keys (k : Server.keys) : json :=
  JObj [("up", JBool (Server.k_up k)); ("down", JBool (Server.k_down k));
        ("left", JBool (Server.k_left k)); ("right", JBool (Server.k_right k))].

(** The locals [last_input_keys] and [send_timer] of [main]; the timer is
    a binary64 number. *)
Record sender : Type := Sender {
  last_input_keys : option Server.keys;
  send_timer : float
}.

(** Their values before the first frame. *)
Definition initial : sender := Sender None 0%float.

(** Equality of two [input_keys] dictionaries. *)
Definition keys_eqb (a b : Server.keys) : bool :=
  Bool.eqb (Server.k_up a) (Server.k_up b)
  && Bool.eqb (Server.k_down a) (Server.k_down b)
  && Bool.eqb (Server.k_left a) (Server.k_left b)
  && Bool.eqb (Server.k_right a) (Server.k_right b).

(** [input_keys != last_input_keys]; nothing equals the initial [None]. *)
Definition changed (k : Server.keys) (last : option Server.keys) : bool :=
  match last with
  | None => true
  | Some l => negb (keys_eqb k l)
  end.

(** [send_timer >= 0.1], the comparison of binary64 numbers with the
    double nearest to 0.1. *)
Definition due (send_timer : float) : bool := leb 0.1%float send_timer.

Section Sending.

Variable json_dumps : json -> string.

(** The input block of one frame: the frame time [dt] is added to the
    timer and the keys are sent when they changed or the timer has reached
    0.1.  Returns the new locals and the text handed to the socket, if
    any. *)
Definition poll (dt : float) (k : Server.keys) (st : sender)
  : sender * option string :=
  let send_timer := (send_timer st + dt)%float in
  if changed k (last_input_keys st) || due send_timer
  then (Sender (Some k) 0%float,
        Some (Client.send_input json_dumps (input_keys k)))
  else (Sender (last_input_keys st) send_timer, None).

(** The input blocks of consecutive frames, with the texts sent. *)
Fixpoint polls (frames : list (float * Server.keys)) (st : sender)
  : sender * list string :=
  match frames with
  | [] => (st, [])
  | (dt, k) :: rest =>
      let '(st', sent) := poll dt k st in
      let '(st'', more) := polls rest st' in
      (st'', match sent with Some text => text :: more | None => more end)
  end.

End Sending.

End ClientInput.

(** * Properties *)

(** ** Facts about the numeric built-ins *)

Module PyFacts.

Import Py.
Local Open Scope R_scope.

Lemma min_le_l a b : min a b <= a.
Proof. unfold min. destruct (Rlt_dec b a); lra. Qed.

Lemma min_le_r a b : min a b <= b.
Proof. unfold min. destruct (Rlt_dec b a); lra. Qed.

Lemma max_ge_l a b : a <= max a b.
Proof. unfold max. destruct (Rgt_dec b a); lra. Qed.

Lemma max_ge_r a b : b <= max a b.
Proof. unfold max. destruct (Rgt_dec b a); lra. Qed.

Lemma max_lub a b c : a <= c -> b <= c -> max a b <= c.
Proof. unfold max. destruct (Rgt_dec b a); lra. Qed.

Lemma clamp_id lo hi v : lo <= v <= hi -> max lo (min hi v) = v.
Proof.
  intros [Hlo Hhi]. unfold max, min.
  destruct (Rlt_dec v hi); destruct (Rgt_dec _ lo); lra.
Qed.

Lemma hypot_nonneg a b : 0 <= hypot a b.
Proof. apply sqrt_pos. Qed.

Lemma hypot_sqr a b : hypot a b * hypot a b = a * a + b * b.
Proof. unfold hypot. apply sqrt_sqrt. nra. Qed.

(** The distance test of the program, without the square root. *)
Lemma hypot_lt_iff a b r :
  0 <= r -> (hypot a b < r <-> a * a + b * b < r * r).
Proof.
  intros Hr. pose proof (hypot_nonneg a b) as Hh.
  pose proof (hypot_sqr a b) as Hs. split; intros H.
  - rewrite <- Hs. nra.
  - destruct (Rlt_dec (hypot a b) r) as [|Hn]; [assumption|].
    exfalso. apply Rnot_lt_le in Hn. nra.
Qed.


Lemma hypot_ge_iff a b r :
  0 <= r -> (r <= hypot a b <-> r * r <= a * a + b * b).
Proof.
  intros Hr. pose proof (hypot_lt_iff a b r Hr) as H. split; intros H1.
  - destruct (Rlt_dec (a * a + b * b) (r * r)) as [Hlt|]; [|lra].
    apply H in Hlt. lra.
  - destruct (Rlt_dec (hypot a b) r) as [Hlt|]; [|lra].
    apply H in Hlt. lra.
Qed.


(** *** Rounding *)

Lemma round_zero (F : float_format) : round F 0 = 0.
Proof.
  pose proof (round_above F 0). pose proof (round_below F 0). lra.
Qed.

Lemma round_nonneg (F : float_format) x : 0 <= x -> 0 <= round F x.
Proof.
  intros H. rewrite <- (round_zero F). apply round_monotone. exact H.
Qed.



Lemma double_above x : 0 <= x -> x <= 2 * x.
Proof. intros H. lra. Qed.

Lemma double_below x : x <= 0 -> 2 * x <= x.
Proof. intros H. lra. Qed.

(** Arithmetic without rounding is a format: every real is a value. *)
Definition exact_reals : float_format :=
  Format (fun x => x) (fun x y H => H) (fun x => eq_refl)
         double_above double_below.

Lemma exact_reals_in_format x : in_format exact_reals x.
Proof. reflexivity. Qed.

End PyFacts.

(** ** The simulation loop *)

Module Simulation.

Import Json Server.
Local Open Scope R_scope.

(** *** Movement keeps every player inside the map *)

Lemma update_position_in_bounds (p : player) : in_bounds (update_position p).
Proof.
  unfold update_position, in_bounds.
  destruct (integrate p) as [x y]. cbn [set_pos p_x p_y].
  unfold PLAYER_RADIUS, MAP_WIDTH, MAP_HEIGHT.
  repeat split;
    first [ apply PyFacts.max_ge_l
          | apply PyFacts.max_lub; [lra | apply PyFacts.min_le_l] ].
Qed.

Lemma move_players_in_bounds (items : list (conn * player)) :
  Forall (fun cp => in_bounds (snd cp)) (move_players items).
Proof.
  unfold move_players. apply Forall_forall. intros cp Hin.
  apply in_map_iff in Hin. destruct Hin as [cp0 [<- _]].
  apply update_position_in_bounds.
Qed.

(** The collision block only touches scores: a property of players that
    [add_score] keeps is kept by the whole sweep. *)
Section ScoreBlind.

Variable P : player -> Prop.
Hypothesis P_add_score : forall p, P p -> P (add_score p).

Lemma collect_Forall (c : coin) (items : list (conn * player)) :
  Forall (fun cp => P (snd cp)) items ->
  Forall (fun cp => P (snd cp)) (fst (collect c items)).
Proof.
  induction items as [|[k p] rest IH]; intros H; cbn [collect].
  - constructor.
  - inversion H as [|? ? Hp Hrest]; subst; cbn [snd] in Hp.
    destruct (Rlt_dec (dist p c) (PLAYER_RADIUS + COIN_RADIUS)).
    + cbn [fst]. constructor; [cbn [snd]; auto | assumption].
    + specialize (IH Hrest). destruct (collect c rest) as [rest' hit].
      cbn [fst] in *. constructor; assumption.
Qed.

Lemma sweep_Forall (cs : list coin) (st : list (conn * player) * id_set) :
  Forall (fun cp => P (snd cp)) (fst st) ->
  Forall (fun cp => P (snd cp)) (fst (sweep cs st)).
Proof.
  revert st. induction cs as [|c cs IH]; intros [items rm] H; cbn [sweep fold_left].
  - assumption.
  - apply IH. unfold sweep_coin.
    pose proof (collect_Forall c items H) as Hc. cbn [fst] in Hc.
    destruct (collect c items) as [items' hit]. exact Hc.
Qed.

End ScoreBlind.

Lemma in_bounds_add_score (p : player) : in_bounds p -> in_bounds (add_score p).
Proof. unfold in_bounds, add_score. cbn [p_x p_y]. tauto. Qed.

(** The players a tick leaves in the world are the snapshot entries after
    movement and scoring; a spawned coin does not touch them. *)
Lemma tick_world_players (now : R) (rx ry : Z) (w : world) (t : R) :
  exists cs,
    players (tick_world now rx ry w t)
    = fst (sweep cs (move_players (players w), [])).
Proof.
  unfold tick_world, tick.
  destruct (List.length (coins w) <? MAX_COINS)%nat;
    [destruct (Rgt_dec (now - t) 2)|].
  all: match goal with
       | |- context [handle_collisions ?m ?c] =>
           exists c; unfold handle_collisions; cbn [spawn_coin players];
           destruct (sweep c _) as [items' rm]
       end; reflexivity.
Qed.

(** C1. After every tick, whatever the world, the clock, the random draws,
    the input flags and the positions before it, every player of the world
    has PLAYER_RADIUS <= x <= MAP_WIDTH - PLAYER_RADIUS and
    PLAYER_RADIUS <= y <= MAP_HEIGHT - PLAYER_RADIUS. *)
Theorem tick_positions_in_bounds (now : R) (rx ry : Z) (w : world) (t : R) :
  Forall (fun cp =>
            PLAYER_RADIUS <= p_x (snd cp) <= MAP_WIDTH - PLAYER_RADIUS /\
            PLAYER_RADIUS <= p_y (snd cp) <= MAP_HEIGHT - PLAYER_RADIUS)
         (players (tick_world now rx ry w t)).
Proof.
  destruct (tick_world_players now rx ry w t) as [cs ->].
  apply (sweep_Forall in_bounds in_bounds_add_score cs).
  cbn [fst]. apply move_players_in_bounds.
Qed.

(** *** The collision sweep *)

(** The collection test as a boolean. *)
Definition in_range (p : player) (c : coin) : bool :=
  if Rlt_dec (dist p c) (PLAYER_RADIUS + COIN_RADIUS) then true else false.

Lemma in_range_true (p : player) (c : coin) :
  in_range p c = true <-> dist p c < PLAYER_RADIUS + COIN_RADIUS.
Proof.
  unfold in_range. destruct (Rlt_dec _ _); split; intros; try lra; try easy.
Qed.

Lemma in_range_false (p : player) (c : coin) :
  in_range p c = false <-> PLAYER_RADIUS + COIN_RADIUS <= dist p c.
Proof.
  unfold in_range. destruct (Rlt_dec _ _); split; intros; try lra; try easy.
Qed.

Lemma dist_add_score (p : player) (c : coin) : dist (add_score p) c = dist p c.
Proof. reflexivity. Qed.

(** Where a snapshot entry stands: its connection and position. *)
Definition place (cp : conn * player) : conn * R * R :=
  (fst cp, p_x (snd cp), p_y (snd cp)).

Lemma in_range_place (a b : conn * player) (c : coin) :
  place a = place b -> in_range (snd a) c = in_range (snd b) c.
Proof.
  unfold place, in_range, dist. intros H. injection H as _ -> ->. reflexivity.
Qed.

Lemma collect_miss (c : coin) (items : list (conn * player)) :
  (forall q, In q items -> in_range (snd q) c = false) ->
  collect c items = (items, false).
Proof.
  induction items as [|[k p] rest IH]; intros H; cbn [collect].
  - reflexivity.
  - pose proof (H (k, p) (or_introl eq_refl)) as Hp. cbn [snd] in Hp.
    apply in_range_false in Hp.
    destruct (Rlt_dec (dist p c) (PLAYER_RADIUS + COIN_RADIUS)); [lra|].
    rewrite IH; [reflexivity|]. intros q Hq. apply H. right. exact Hq.
Qed.

Lemma collect_first (c : coin) (pre post : list (conn * player))
  (k : conn) (p : player) :
  (forall q, In q pre -> in_range (snd q) c = false) ->
  in_range p c = true ->
  collect c (pre ++ (k, p) :: post) = (pre ++ (k, add_score p) :: post, true).
Proof.
  intros Hpre Hp. induction pre as [|[k0 p0] pre IH]; cbn [collect app].
  - apply in_range_true in Hp.
    destruct (Rlt_dec (dist p c) (PLAYER_RADIUS + COIN_RADIUS)); [reflexivity|lra].
  - pose proof (Hpre (k0, p0) (or_introl eq_refl)) as H0. cbn [snd] in H0.
    apply in_range_false in H0.
    destruct (Rlt_dec (dist p0 c) (PLAYER_RADIUS + COIN_RADIUS)); [lra|].
    rewrite IH; [reflexivity|]. intros q Hq. apply Hpre. right. exact Hq.
Qed.

(** The inner loop is decided by the first entry in range, if any. *)
Lemma collect_cases (c : coin) (items : list (conn * player)) :
  (collect c items = (items, false) /\
   forall q, In q items -> in_range (snd q) c = false)
  \/
  (exists pre k p post,
      items = pre ++ (k, p) :: post /\
      (forall q, In q pre -> in_range (snd q) c = false) /\
      in_range p c = true /\
      collect c items = (pre ++ (k, add_score p) :: post, true)).
Proof.
  induction items as [|[k p] rest IH].
  - left. split; [reflexivity|]. intros q [].
  - destruct (in_range p c) eqn:Hp.
    + right. exists [], k, p, rest. repeat split; try assumption.
      * intros q [].
      * apply (collect_first c [] rest k); [intros q []|assumption].
    + destruct IH as [[Hc Hall]|(pre & k' & p' & post & -> & Hpre & Hp' & Hc)].
      * left. assert (Hall' : forall q, In q ((k, p) :: rest) ->
                                      in_range (snd q) c = false).
        { intros q [<-|Hq]; [exact Hp|apply Hall; exact Hq]. }
        split; [apply collect_miss|]; assumption.
      * right. exists ((k, p) :: pre), k', p', post.
        assert (Hpre' : forall q, In q ((k, p) :: pre) ->
                                  in_range (snd q) c = false).
        { intros q [<-|Hq]; [exact Hp|apply Hpre; exact Hq]. }
        repeat split; try assumption.
        apply (collect_first c ((k, p) :: pre) post k'); assumption.
Qed.

Lemma collect_places (c : coin) (items : list (conn * player)) :
  map place (fst (collect c items)) = map place items.
Proof.
  destruct (collect_cases c items)
    as [[-> _]|(pre & k & p & post & -> & _ & _ & ->)]; [reflexivity|].
  cbn [fst]. rewrite !map_app. reflexivity.
Qed.

Lemma sweep_coin_places (c : coin) (st : list (conn * player) * id_set) :
  map place (fst (sweep_coin c st)) = map place (fst st).
Proof.
  destruct st as [items rm]. unfold sweep_coin.
  pose proof (collect_places c items) as H.
  destruct (collect c items) as [items' hit]. exact H.
Qed.

Lemma sweep_places (cs : list coin) (st : list (conn * player) * id_set) :
  map place (fst (sweep cs st)) = map place (fst st).
Proof.
  revert st. induction cs as [|c cs IH]; intros st; cbn [sweep fold_left].
  - reflexivity.
  - fold (sweep cs (sweep_coin c st)). rewrite IH. apply sweep_coin_places.
Qed.

(** Whether some entry of a snapshot is in range of a coin depends on the
    places only. *)
Lemma reach_places (c : coin) (l l' : list (conn * player)) :
  map place l = map place l' ->
  (forall q, In q l -> in_range (snd q) c = false) ->
  forall q, In q l' -> in_range (snd q) c = false.
Proof.
  revert l'. induction l as [|a l IH]; intros [|a' l'] Hm Hall q Hq;
    try discriminate; [destruct Hq|].
  cbn [map] in Hm. assert (Ha : place a = place a') by congruence.
  assert (Hl : map place l = map place l') by congruence.
  destruct Hq as [<-|Hq].
  - rewrite <- (in_range_place a a' c Ha). apply Hall. left. reflexivity.
  - apply (IH l' Hl); [|exact Hq]. intros q0 Hq0. apply Hall. right. exact Hq0.
Qed.

(** Whether some snapshot entry is in range of a coin. *)
Definition reach (c : coin) (items : list (conn * player)) : bool :=
  existsb (fun q => in_range (snd q) c) items.

Lemma reach_false (c : coin) (items : list (conn * player)) :
  reach c items = false <->
  forall q, In q items -> in_range (snd q) c = false.
Proof.
  unfold reach. split.
  - intros H q Hq. destruct (in_range (snd q) c) eqn:E; [|reflexivity].
    assert (existsb (fun q => in_range (snd q) c) items = true)
      by (apply existsb_exists; exists q; split; assumption).
    congruence.
  - intros H. destruct (existsb _ items) eqn:E; [|reflexivity].
    apply existsb_exists in E. destruct E as [q [Hq Hr]].
    rewrite (H q Hq) in Hr. discriminate.
Qed.

Lemma reach_true (c : coin) (items : list (conn * player)) :
  reach c items = true <->
  exists q, In q items /\ dist (snd q) c < PLAYER_RADIUS + COIN_RADIUS.
Proof.
  unfold reach. rewrite existsb_exists.
  split; intros [q [Hq Hr]]; exists q; split; try assumption;
    apply in_range_true; assumption.
Qed.

Lemma collect_hit (c : coin) (items : list (conn * player)) :
  snd (collect c items) = reach c items.
Proof.
  destruct (collect_cases c items)
    as [[-> Hall]|(pre & k & p & post & -> & _ & Hp & ->)]; cbn [snd].
  - symmetry. apply reach_false. exact Hall.
  - symmetry. apply reach_true. exists (k, p). split.
    + apply in_or_app. right. left. reflexivity.
    + apply in_range_true. exact Hp.
Qed.

Lemma reach_places_eq (c : coin) (l l' : list (conn * player)) :
  map place l = map place l' -> reach c l = reach c l'.
Proof.
  intros H. destruct (reach c l) eqn:E; symmetry.
  - destruct (reach c l') eqn:E'; [reflexivity|].
    rewrite reach_false in E'.
    pose proof (reach_places c l' l (eq_sym H) E') as Hl.
    apply reach_false in Hl. congruence.
  - apply reach_false. apply (reach_places c l l' H).
    apply reach_false. exact E.
Qed.

Lemma mem_add (i j : Z) (s : id_set) :
  mem i (add j s) = (i =? j)%Z || mem i s.
Proof.
  unfold add. destruct (mem j s) eqn:E; cbn [mem existsb]; [|reflexivity].
  destruct (Z.eqb_spec i j) as [->|]; [|reflexivity].
  cbn [orb]. exact E.
Qed.

Lemma sweep_coin_marks (c : coin) (items : list (conn * player))
  (rm : id_set) (i : Z) :
  mem i (snd (sweep_coin c (items, rm)))
  = mem i rm || ((c_id c =? i)%Z && reach c items).
Proof.
  unfold sweep_coin. rewrite <- collect_hit.
  destruct (collect c items) as [items' [|]]; cbn [snd].
  - rewrite mem_add, Z.eqb_sym, andb_true_r. apply orb_comm.
  - rewrite andb_false_r, orb_false_r. reflexivity.
Qed.

(** The ids the sweep marks: those of the coins some player reaches. *)
Lemma sweep_marks (cs : list coin) (items : list (conn * player))
  (rm : id_set) (i : Z) :
  mem i (snd (sweep cs (items, rm)))
  = mem i rm || existsb (fun c => (c_id c =? i)%Z && reach c items) cs.
Proof.
  revert items rm. induction cs as [|c cs IH]; intros items rm;
    cbn [sweep fold_left existsb].
  - rewrite orb_false_r. reflexivity.
  - fold (sweep cs (sweep_coin c (items, rm))).
    pose proof (sweep_coin_marks c items rm i) as Hm.
    pose proof (sweep_coin_places c (items, rm)) as Hp.
    destruct (sweep_coin c (items, rm)) as [items1 rm1]. cbn [fst snd] in *.
    rewrite IH, Hm, <- orb_assoc. f_equal. f_equal.
    clear IH Hm. induction cs as [|c0 cs IHcs]; cbn [existsb]; [reflexivity|].
    rewrite IHcs, (reach_places_eq c0 items1 items Hp). reflexivity.
Qed.

Lemma remove_collected_In (rm : id_set) (cs : list coin) (c : coin) :
  In c (remove_collected rm cs) <-> In c cs /\ mem (c_id c) rm = false.
Proof.
  unfold remove_collected. destruct rm as [|i rm].
  - cbn [mem existsb]. tauto.
  - rewrite filter_In, negb_true_iff. reflexivity.
Qed.

(** The coins the collision block leaves: those whose id no reached coin
    carries. *)
Lemma handle_collisions_coins (items : list (conn * player))
  (cs : list coin) (c : coin) :
  In c (snd (handle_collisions items cs)) <->
  In c cs /\
  existsb (fun c' => (c_id c' =? c_id c)%Z && reach c' items) cs = false.
Proof.
  unfold handle_collisions.
  pose proof (sweep_marks cs items [] (c_id c)) as Hm.
  destruct (sweep cs (items, [])) as [items' rm]. cbn [snd] in *.
  rewrite remove_collected_In, Hm. cbn [mem existsb orb]. reflexivity.
Qed.

Lemma reached_coin_removed (items : list (conn * player)) (cs : list coin)
  (c : coin) :
  reach c items = true -> ~ In c (snd (handle_collisions items cs)).
Proof.
  intros Hr Hin. apply handle_collisions_coins in Hin.
  destruct Hin as [Hc Hex].
  assert (existsb (fun c' => (c_id c' =? c_id c)%Z && reach c' items) cs = true).
  { apply existsb_exists. exists c. split; [exact Hc|].
    rewrite Z.eqb_refl, Hr. reflexivity. }
  congruence.
Qed.

Lemma same_id_same_coin (cs : list coin) (c c' : coin) :
  NoDup (map c_id cs) -> In c cs -> In c' cs -> c_id c' = c_id c -> c' = c.
Proof.
  induction cs as [|a cs IH]; intros Hnd Hc Hc' Hid; [destruct Hc|].
  cbn [map] in Hnd. inversion Hnd as [|? ? Hnotin Hnd']; subst.
  destruct Hc as [->|Hc]; destruct Hc' as [->|Hc'].
  - reflexivity.
  - exfalso. apply Hnotin. rewrite <- Hid. apply in_map. exact Hc'.
  - exfalso. apply Hnotin. rewrite Hid. apply in_map. exact Hc.
  - apply IH; assumption.
Qed.

Lemma unreached_coin_kept (items : list (conn * player)) (cs : list coin)
  (c : coin) :
  NoDup (map c_id cs) -> In c cs -> reach c items = false ->
  In c (snd (handle_collisions items cs)).
Proof.
  intros Hnd Hc Hr. apply handle_collisions_coins. split; [exact Hc|].
  destruct (existsb _ cs) eqn:E; [|reflexivity].
  apply existsb_exists in E. destruct E as [c' [Hc' Hb]].
  apply andb_true_iff in Hb. destruct Hb as [Hid Hr'].
  apply Z.eqb_eq in Hid.
  rewrite (same_id_same_coin cs c c' Hnd Hc Hc' Hid) in Hr'. congruence.
Qed.

(** *** One coin more in the list *)

(** The entry at position [n] gains a point. *)
Fixpoint bump (n : nat) (items : list (conn * player))
  : list (conn * player) :=
  match items, n with
  | [], _ => []
  | (k, p) :: rest, O => (k, add_score p) :: rest
  | kp :: rest, S n => kp :: bump n rest
  end.

Lemma bump_app (pre rest : list (conn * player)) (k : conn) (p : player) :
  bump (List.length pre) (pre ++ (k, p) :: rest)
  = pre ++ (k, add_score p) :: rest.
Proof.
  induction pre as [|[k0 p0] pre IH]; cbn [List.length app bump];
    [reflexivity|].
  rewrite IH. reflexivity.
Qed.

(** The tests of the inner loop do not look at scores: a point more or
    less for some entry changes neither who collects nor what is marked. *)
Lemma collect_bump (c : coin) (n : nat) (items : list (conn * player)) :
  collect c (bump n items)
  = (bump n (fst (collect c items)), snd (collect c items)).
Proof.
  revert n. induction items as [|[k p] rest IH]; intros n.
  - destruct n; reflexivity.
  - destruct n as [|n]; cbn [bump collect].
    + rewrite dist_add_score.
      destruct (Rlt_dec (dist p c) (PLAYER_RADIUS + COIN_RADIUS));
        [reflexivity|].
      destruct (collect c rest) as [rest' hit]. reflexivity.
    + destruct (Rlt_dec (dist p c) (PLAYER_RADIUS + COIN_RADIUS));
        [reflexivity|].
      rewrite IH. destruct (collect c rest) as [rest' hit]. reflexivity.
Qed.

Lemma sweep_bump (cs : list coin) (n : nat) :
  forall (items : list (conn * player)) (rm : id_set),
    sweep cs (bump n items, rm)
    = (bump n (fst (sweep cs (items, rm))), snd (sweep cs (items, rm))).
Proof.
  induction cs as [|c cs IH]; intros items rm; cbn [sweep fold_left].
  - reflexivity.
  - fold (sweep cs (sweep_coin c (bump n items, rm))).
    fold (sweep cs (sweep_coin c (items, rm))).
    unfold sweep_coin. rewrite collect_bump.
    destruct (collect c items) as [items1 hit]. cbn [fst snd]. apply IH.
Qed.

(** The players after a sweep do not depend on the ids marked before it. *)
Lemma sweep_players_any_marks (cs : list coin) :
  forall (items : list (conn * player)) (rm rm' : id_set),
    fst (sweep cs (items, rm)) = fst (sweep cs (items, rm')).
Proof.
  induction cs as [|c cs IH]; intros items rm rm'; cbn [sweep fold_left].
  - reflexivity.
  - fold (sweep cs (sweep_coin c (items, rm))).
    fold (sweep cs (sweep_coin c (items, rm'))).
    unfold sweep_coin. destruct (collect c items) as [items1 hit]. apply IH.
Qed.

Lemma sweep_app (cs1 cs2 : list coin) (st : list (conn * player) * id_set) :
  sweep (cs1 ++ cs2) st = sweep cs2 (sweep cs1 st).
Proof. unfold sweep. apply fold_left_app. Qed.

(** The inner loop, on players standing where those of
    [pre ++ x :: rest] stand, none of [pre] in range and [x] in range:
    the entry at the position of [x] scores. *)
Lemma collect_at_first (c : coin) (pre : list (conn * player)) :
  forall (items rest : list (conn * player)) (x : conn * player),
    map place items = map place (pre ++ x :: rest) ->
    (forall q, In q pre -> in_range (snd q) c = false) ->
    in_range (snd x) c = true ->
    collect c items = (bump (List.length pre) items, true).
Proof.
  induction pre as [|[k0 p0] pre IH]; intros items rest x Hm Hpre Hx;
    destruct items as [|[k p] items]; try discriminate;
    cbn [app map] in Hm;
    match type of Hm with
    | ?u :: ?l = ?v :: ?l' =>
        assert (Hplace : u = v) by congruence;
        assert (Hrest : l = l') by congruence
    end;
    cbn [collect List.length bump].
  - rewrite <- (in_range_place (k, p) x c Hplace) in Hx.
    cbn [snd] in Hx. apply in_range_true in Hx.
    destruct (Rlt_dec (dist p c) (PLAYER_RADIUS + COIN_RADIUS));
      [reflexivity|lra].
  - pose proof (Hpre (k0, p0) (or_introl eq_refl)) as H0.
    rewrite <- (in_range_place (k, p) (k0, p0) c Hplace) in H0.
    cbn [snd] in H0. apply in_range_false in H0.
    destruct (Rlt_dec (dist p c) (PLAYER_RADIUS + COIN_RADIUS)); [lra|].
    rewrite (IH items rest x Hrest); [reflexivity| |exact Hx].
    intros q Hq. apply Hpre. right. exact Hq.
Qed.

(** With one more coin in the list, in range of the entry at position
    [length pre] and of none before it, the players after the sweep are
    those of the sweep without the coin, with one point more for that
    entry. *)
Lemma sweep_with_coin (c : coin) (cs1 cs2 : list coin)
  (pre rest : list (conn * player)) (x : conn * player) :
  (forall q, In q pre -> in_range (snd q) c = false) ->
  in_range (snd x) c = true ->
  fst (sweep (cs1 ++ c :: cs2) (pre ++ x :: rest, []))
  = bump (List.length pre) (fst (sweep (cs1 ++ cs2) (pre ++ x :: rest, []))).
Proof.
  intros Hpre Hx. rewrite !sweep_app.
  pose proof (sweep_places cs1 (pre ++ x :: rest, [])) as Hpl.
  destruct (sweep cs1 (pre ++ x :: rest, [])) as [items1 rm1].
  cbn [fst] in Hpl. cbn [sweep fold_left].
  fold (sweep cs2 (sweep_coin c (items1, rm1))).
  unfold sweep_coin.
  rewrite (collect_at_first c pre items1 rest x Hpl Hpre Hx).
  rewrite sweep_bump. cbn [fst]. f_equal. apply sweep_players_any_marks.
Qed.

(** A list of entries standing where those of [l1 ++ x :: l2] stand is
    cut in the same way. *)
Lemma same_places_split (l l1 l2 : list (conn * player))
  (x : conn * player) :
  map place l = map place (l1 ++ x :: l2) ->
  exists l1' p' l2',
    l = l1' ++ (fst x, p') :: l2'
    /\ List.length l1' = List.length l1
    /\ map place l2' = map place l2.
Proof.
  revert l. induction l1 as [|y l1 IH]; intros [|[k p] l] H;
    try discriminate; cbn [app map] in H;
    match type of H with
    | ?u :: ?m = ?v :: ?m' =>
        assert (Hp : u = v) by congruence;
        assert (Hm : m = m') by congruence
    end.
  - exists [], p, l. cbn [app List.length].
    assert (Hk : k = fst x) by (unfold place in Hp; cbn [fst] in Hp;
                                congruence).
    rewrite Hk. repeat split. exact Hm.
  - destruct (IH l Hm) as (l1' & p' & l2' & -> & Hlen & Hl2).
    exists ((k, p) :: l1'), p', l2'. cbn [app List.length].
    rewrite Hlen. repeat split. exact Hl2.
Qed.

(** C2. A coin in range of two players of the snapshot, [a] before [b],
    and of no player before [a].  The step of the sweep for that coin adds
    exactly 1 to the score of [a], leaves every other entry as it was
    ([b] and all later players included) and marks the coin.  For the
    collision block of a tick: with this coin alone in the world, the
    players it returns are the snapshot with the score of [a] one higher;
    with the coin at any place in any coin list, the players it returns
    are those it returns for the list without the coin, except that the
    score of [a] is one higher -- the entry of [b] and every other entry
    are the same with and without the coin; and the coin is not among the
    coins the block leaves. *)
Theorem coin_goes_to_first_player_in_range
  (c : coin) (pre mid post : list (conn * player)) (ka kb : conn)
  (a b : player) (to_remove : id_set) :
  (forall q, In q pre -> PLAYER_RADIUS + COIN_RADIUS <= dist (snd q) c) ->
  dist a c < PLAYER_RADIUS + COIN_RADIUS ->
  dist b c < PLAYER_RADIUS + COIN_RADIUS ->
  let items := pre ++ (ka, a) :: mid ++ (kb, b) :: post in
  let a_scored :=
    Player (p_id a) (p_x a) (p_y a) (p_score a + 1) (p_input a) in
  sweep_coin c (items, to_remove)
  = (pre ++ (ka, a_scored) :: mid ++ (kb, b) :: post,
     if mem (c_id c) to_remove then to_remove else c_id c :: to_remove)
  /\ handle_collisions items [c]
     = (pre ++ (ka, a_scored) :: mid ++ (kb, b) :: post, [])
  /\ forall cs1 cs2,
       (exists pre' a' mid' b' post',
           fst (handle_collisions items (cs1 ++ cs2))
           = pre' ++ (ka, a') :: mid' ++ (kb, b') :: post'
           /\ fst (handle_collisions items (cs1 ++ c :: cs2))
              = pre'
                ++ (ka, Player (p_id a') (p_x a') (p_y a') (p_score a' + 1)
                               (p_input a'))
                   :: mid' ++ (kb, b') :: post'
           /\ List.length pre' = List.length pre
           /\ List.length mid' = List.length mid)
       /\ ~ In c (snd (handle_collisions items (cs1 ++ c :: cs2))).
Proof.
  intros Hpre Ha Hb items a_scored.
  assert (Hpre' : forall q, In q pre -> in_range (snd q) c = false).
  { intros q Hq. apply in_range_false. apply Hpre. exact Hq. }
  assert (Ha' : in_range a c = true) by (apply in_range_true; exact Ha).
  assert (Hstep : forall rm,
             sweep_coin c (items, rm)
             = (pre ++ (ka, a_scored) :: mid ++ (kb, b) :: post,
                add (c_id c) rm)).
  { intros rm. unfold sweep_coin, items.
    rewrite (collect_first c pre (mid ++ (kb, b) :: post) ka a Hpre' Ha').
    reflexivity. }
  assert (Hreach : reach c items = true).
  { apply reach_true. exists (ka, a). split; [|exact Ha].
    unfold items. apply in_or_app. right. left. reflexivity. }
  split; [apply Hstep|]. split.
  - unfold handle_collisions. cbn [sweep fold_left]. rewrite Hstep.
    unfold add, remove_collected. cbn [mem existsb filter].
    rewrite Z.eqb_refl. reflexivity.
  - intros cs1 cs2. split; [|apply reached_coin_removed; exact Hreach].
    assert (Hwith : fst (handle_collisions items (cs1 ++ c :: cs2))
                    = bump (List.length pre)
                           (fst (handle_collisions items (cs1 ++ cs2)))).
    { unfold handle_collisions.
      pose proof (sweep_with_coin c cs1 cs2 pre (mid ++ (kb, b) :: post)
                    (ka, a) Hpre' Ha') as Hs. fold items in Hs.
      destruct (sweep (cs1 ++ c :: cs2) (items, [])) as [i1 r1].
      destruct (sweep (cs1 ++ cs2) (items, [])) as [i2 r2]. exact Hs. }
    assert (Hpl : map place (fst (handle_collisions items (cs1 ++ cs2)))
                  = map place items).
    { unfold handle_collisions.
      pose proof (sweep_places (cs1 ++ cs2) (items, [])) as Hs.
      destruct (sweep (cs1 ++ cs2) (items, [])) as [i2 r2]. exact Hs. }
    rewrite Hwith.
    destruct (same_places_split _ pre (mid ++ (kb, b) :: post) (ka, a) Hpl)
      as (pre' & a' & rest' & -> & Hlen & Hrest).
    destruct (same_places_split rest' mid post (kb, b) Hrest)
      as (mid' & b' & post' & -> & Hlen' & _).
    cbn [fst]. exists pre', a', mid', b', post'.
    split; [reflexivity|]. split; [|split; assumption].
    rewrite <- Hlen. apply bump_app.
Qed.

(** C10. The collection test is strict.  The step of the sweep for a coin
    changes a score only for a player at distance strictly below
    PLAYER_RADIUS + COIN_RADIUS; a coin at distance at least that sum from
    every player leaves players and marked ids as they were, and, coin ids
    being distinct, it is still among the coins after the sweep. *)
Theorem collection_test_is_strict
  (c : coin) (items : list (conn * player)) (to_remove : id_set) :
  (forall items' to_remove',
      sweep_coin c (items, to_remove) = (items', to_remove') ->
      (items', to_remove') <> (items, to_remove) ->
      exists pre k p post,
        items = pre ++ (k, p) :: post /\
        items' = pre ++ (k, add_score p) :: post /\
        dist p c < PLAYER_RADIUS + COIN_RADIUS)
  /\
  ((forall q, In q items -> PLAYER_RADIUS + COIN_RADIUS <= dist (snd q) c) ->
   sweep_coin c (items, to_remove) = (items, to_remove) /\
   forall cs, NoDup (map c_id cs) -> In c cs ->
              In c (snd (handle_collisions items cs))).
Proof.
  split.
  - intros items' rm' Hs Hne. unfold sweep_coin in Hs.
    destruct (collect_cases c items)
      as [[Hc _]|(pre & k & p & post & Hi & _ & Hp & Hc)];
      rewrite Hc in Hs; injection Hs as <- <-.
    + exfalso. apply Hne. reflexivity.
    + exists pre, k, p, post. repeat split; try assumption.
      apply in_range_true. exact Hp.
  - intros Hall.
    assert (Hall' : forall q, In q items -> in_range (snd q) c = false).
    { intros q Hq. apply in_range_false. apply Hall. exact Hq. }
    split.
    + unfold sweep_coin. rewrite (collect_miss c items Hall'). reflexivity.
    + intros cs Hnd Hc. apply unreached_coin_kept; try assumption.
      apply reach_false. exact Hall'.
Qed.

(** *** Several coins for one player *)

(** A player whose score has grown by [n]. *)
Definition scored (n : nat) (p : player) : player :=
  Player (p_id p) (p_x p) (p_y p) (p_score p + Z.of_nat n) (p_input p).

Lemma collect_app (c : coin) (l1 l2 : list (conn * player)) :
  collect c (l1 ++ l2)
  = if reach c l1 then (fst (collect c l1) ++ l2, true)
    else (l1 ++ fst (collect c l2), snd (collect c l2)).
Proof.
  induction l1 as [|[k p] l1 IH]; cbn [app collect reach existsb snd].
  - destruct (collect c l2); reflexivity.
  - unfold in_range at 1.
    destruct (Rlt_dec (dist p c) (PLAYER_RADIUS + COIN_RADIUS)); cbn [orb].
    + reflexivity.
    + rewrite IH. fold (reach c l1). destruct (reach c l1).
      * destruct (collect c l1) as [l1' h]. reflexivity.
      * reflexivity.
Qed.

Lemma scored_add_score (n : nat) (p : player) :
  scored n (add_score p) = scored (S n) p.
Proof.
  unfold scored, add_score. cbn [p_id p_x p_y p_score p_input].
  f_equal. lia.
Qed.

(** The entry of a player keeps its place through the sweep and gains one
    point for every coin in its range that no earlier entry reaches. *)
Lemma sweep_player (cs : list coin) :
  forall (pre post : list (conn * player)) (k : conn) (p : player)
         (rm : id_set),
    (forall c, In c cs -> in_range p c = true -> reach c pre = false) ->
    exists pre' post',
      fst (sweep cs (pre ++ (k, p) :: post, rm))
      = pre' ++ (k, scored (List.length (filter (in_range p) cs)) p) :: post'
      /\ map place pre' = map place pre
      /\ map place post' = map place post.
Proof.
  induction cs as [|c cs IH]; intros pre post k p rm H.
  - exists pre, post. cbn [sweep fold_left fst filter List.length].
    repeat split. unfold scored. cbn [Z.of_nat]. rewrite Z.add_0_r.
    destruct p; reflexivity.
  - cbn [sweep fold_left]. fold (sweep cs (sweep_coin c (pre ++ (k, p) :: post, rm))).
    assert (Hcs : forall l, map place l = map place pre ->
                  forall c', In c' cs -> in_range p c' = true ->
                             reach c' l = false).
    { intros l Hl c' Hc' Hr. rewrite (reach_places_eq c' l pre Hl).
      apply H; [right|]; assumption. }
    unfold sweep_coin. rewrite collect_app. cbn [filter].
    destruct (reach c pre) eqn:Hpre.
    + assert (Hp : in_range p c = false).
      { destruct (in_range p c) eqn:E; [|reflexivity].
        rewrite (H c (or_introl eq_refl) E) in Hpre. discriminate. }
      rewrite Hp.
      destruct (IH (fst (collect c pre)) post k p (add (c_id c) rm)
                   (Hcs _ (collect_places c pre)))
        as (pre' & post' & Hs & Hpre' & Hpost').
      exists pre', post'. rewrite Hs. repeat split; try assumption.
      rewrite Hpre'. apply collect_places.
    + cbn [collect].
      destruct (Rlt_dec (dist p c) (PLAYER_RADIUS + COIN_RADIUS)) as [Hlt|Hge].
      * assert (Hp : in_range p c = true) by (apply in_range_true; exact Hlt).
        rewrite Hp. cbn [fst snd List.length].
        destruct (IH pre post k (add_score p) (add (c_id c) rm) (Hcs pre eq_refl))
          as (pre' & post' & Hs & Hpre' & Hpost').
        exists pre', post'. rewrite Hs, scored_add_score.
        repeat split; assumption.
      * assert (Hp : in_range p c = false).
        { apply in_range_false. lra. }
        rewrite Hp.
        pose proof (collect_places c post) as Hpl.
        destruct (collect c post) as [post1 hit]. cbn [fst snd] in *.
        destruct (IH pre post1 k p (if hit then add (c_id c) rm else rm)
                     (Hcs pre eq_refl))
          as (pre' & post' & Hs & Hpre' & Hpost').
        exists pre', post'. rewrite Hs. repeat split; try assumption.
        rewrite Hpost'. exact Hpl.
Qed.

(** A player in range of several coins collects all of them in one
    sweep when no earlier entry of the snapshot is in range of a coin this
    player is in range of: the player's entry keeps its place, its score
    grows by the number of coins in its range, and none of these coins is
    left afterwards. *)
Lemma player_collects_every_coin_in_range
  (pre post : list (conn * player)) (k : conn) (p : player) (cs : list coin) :
  (forall c q, In c cs -> In q pre ->
               dist p c < PLAYER_RADIUS + COIN_RADIUS ->
               PLAYER_RADIUS + COIN_RADIUS <= dist (snd q) c) ->
  let items := pre ++ (k, p) :: post in
  let won := filter (in_range p) cs in
  exists pre' p' post',
    fst (handle_collisions items cs) = pre' ++ (k, p') :: post'
    /\ List.length pre' = List.length pre
    /\ p_score p' = (p_score p + Z.of_nat (List.length won))%Z
    /\ forall c, In c won -> ~ In c (snd (handle_collisions items cs)).
Proof.
  intros H items won.
  assert (H' : forall c, In c cs -> in_range p c = true -> reach c pre = false).
  { intros c Hc Hr. apply reach_false. intros q Hq. apply in_range_false.
    apply (H c q Hc Hq). apply in_range_true. exact Hr. }
  destruct (sweep_player cs pre post k p [] H')
    as (pre' & post' & Hs & Hpre' & _).
  exists pre', (scored (List.length won) p), post'. repeat split.
  - unfold handle_collisions, items.
    destruct (sweep cs (pre ++ (k, p) :: post, [])) as [items' rm].
    exact Hs.
  - rewrite <- (length_map place pre'), Hpre'. apply length_map.
  - intros c Hc. apply filter_In in Hc. destruct Hc as [_ Hr].
    apply reached_coin_removed. apply reach_true. exists (k, p). split.
    + unfold items. apply in_or_app. right. left. reflexivity.
    + apply in_range_true. exact Hr.
Qed.

(** Whether a coin goes to the entry [p] that stands behind the entries
    [pre]: it is in range of [p] and of none of [pre]. *)
Definition first_for (pre : list (conn * player)) (p : player) (c : coin)
  : bool :=
  in_range p c && negb (reach c pre).

Lemma first_for_places (pre pre' : list (conn * player)) (p : player)
  (cs : list coin) :
  map place pre' = map place pre ->
  filter (first_for pre' p) cs = filter (first_for pre p) cs.
Proof.
  intros H. apply filter_ext. intros c. unfold first_for.
  rewrite (reach_places_eq c pre' pre H). reflexivity.
Qed.

(** The entry of a player keeps its place through the sweep and gains one
    point for every coin it is the first entry in range of. *)
Lemma sweep_entry (cs : list coin) :
  forall (pre post : list (conn * player)) (k : conn) (p : player)
         (rm : id_set),
    exists pre' post',
      fst (sweep cs (pre ++ (k, p) :: post, rm))
      = pre' ++ (k, scored (List.length (filter (first_for pre p) cs)) p)
             :: post'
      /\ map place pre' = map place pre
      /\ map place post' = map place post.
Proof.
  induction cs as [|c cs IH]; intros pre post k p rm.
  - exists pre, post. cbn [sweep fold_left fst filter List.length].
    repeat split. unfold scored. cbn [Z.of_nat]. rewrite Z.add_0_r.
    destruct p; reflexivity.
  - cbn [sweep fold_left].
    fold (sweep cs (sweep_coin c (pre ++ (k, p) :: post, rm))).
    unfold sweep_coin. rewrite collect_app. cbn [filter].
    unfold first_for at 1.
    destruct (reach c pre) eqn:Hpre.
    + rewrite andb_false_r.
      destruct (IH (fst (collect c pre)) post k p (add (c_id c) rm))
        as (pre' & post' & Hs & Hpre' & Hpost').
      rewrite (first_for_places pre _ p cs (collect_places c pre)) in Hs.
      exists pre', post'. rewrite Hs. repeat split; try assumption.
      rewrite Hpre'. apply collect_places.
    + rewrite andb_true_r. cbn [collect].
      destruct (Rlt_dec (dist p c) (PLAYER_RADIUS + COIN_RADIUS)) as [Hlt|Hge].
      * assert (Hp : in_range p c = true) by (apply in_range_true; exact Hlt).
        rewrite Hp. cbn [fst snd List.length].
        destruct (IH pre post k (add_score p) (add (c_id c) rm))
          as (pre' & post' & Hs & Hpre' & Hpost').
        exists pre', post'. rewrite Hs, scored_add_score.
        repeat split; assumption.
      * assert (Hp : in_range p c = false).
        { apply in_range_false. lra. }
        rewrite Hp.
        pose proof (collect_places c post) as Hpl.
        destruct (collect c post) as [post1 hit]. cbn [fst snd] in *.
        destruct (IH pre post1 k p (if hit then add (c_id c) rm else rm))
          as (pre' & post' & Hs & Hpre' & Hpost').
        exists pre', post'. rewrite Hs. repeat split; try assumption.
        rewrite Hpost'. exact Hpl.
Qed.

(** C8, amended. In the collision block of one tick a player gains one
    point for every coin of which it is the first player of the snapshot
    in range, however many these are: its entry keeps its place, only its
    score changes, by the number of coins that are within
    PLAYER_RADIUS + COIN_RADIUS of it and of no entry before it, and none
    of these coins is left afterwards.  In particular a player collects
    every coin in its range when no earlier entry is in range of any of
    them. *)
Theorem player_collects_the_coins_it_is_first_for
  (pre post : list (conn * player)) (k : conn) (p : player) (cs : list coin) :
  let items := pre ++ (k, p) :: post in
  let won :=
    filter (fun c =>
              (if Rlt_dec (dist p c) (PLAYER_RADIUS + COIN_RADIUS)
               then true else false)
              && negb (existsb
                         (fun q =>
                            if Rlt_dec (dist (snd q) c)
                                       (PLAYER_RADIUS + COIN_RADIUS)
                            then true else false)
                         pre))
           cs in
  (exists pre' post',
      fst (handle_collisions items cs)
      = pre'
        ++ (k, Player (p_id p) (p_x p) (p_y p)
                      (p_score p + Z.of_nat (List.length won)) (p_input p))
           :: post'
      /\ List.length pre' = List.length pre
      /\ List.length post' = List.length post)
  /\ (forall c, In c won -> ~ In c (snd (handle_collisions items cs)))
  /\ ((forall c q, In c cs -> In q pre ->
                   dist p c < PLAYER_RADIUS + COIN_RADIUS ->
                   PLAYER_RADIUS + COIN_RADIUS <= dist (snd q) c) ->
      forall c, In c cs -> dist p c < PLAYER_RADIUS + COIN_RADIUS ->
                In c won).
Proof.
  intros items won.
  change won with (filter (first_for pre p) cs).
  destruct (sweep_entry cs pre post k p [])
    as (pre' & post' & Hs & Hpre' & Hpost').
  split; [|split].
  - exists pre', post'. split; [|split].
    + unfold handle_collisions, items.
      destruct (sweep cs (pre ++ (k, p) :: post, [])) as [items' rm].
      exact Hs.
    + rewrite <- (length_map place pre'), Hpre'. apply length_map.
    + rewrite <- (length_map place post'), Hpost'. apply length_map.
  - intros c Hc. apply filter_In in Hc. destruct Hc as [_ Hr].
    unfold first_for in Hr. apply andb_true_iff in Hr. destruct Hr as [Hr _].
    apply reached_coin_removed. apply reach_true. exists (k, p). split.
    + unfold items. apply in_or_app. right. left. reflexivity.
    + apply in_range_true. exact Hr.
  - intros Hfirst c Hc Hd. apply filter_In. split; [exact Hc|].
    unfold first_for. apply andb_true_iff. split.
    + apply in_range_true. exact Hd.
    + apply negb_true_iff, reach_false. intros q Hq. apply in_range_false.
      apply (Hfirst c q Hc Hq Hd).
Qed.

(** *** Diagonal movement *)







(** *** The theorems at concrete snapshots *)

Definition idle : keys := Keys false false false false.

(** Two players 10 apart and a coin under the first one. *)
Definition alice : player := Player 1 100 100 0 idle.
Definition bob : player := Player 2 110 100 0 idle.
Definition coin_under_alice : coin := Coin 1 100 100.

(** A third player far from every coin of the examples. *)
Definition carol : player := Player 3 400 300 0 idle.

(** A coin 20 to the right of [alice], and one exactly
    PLAYER_RADIUS + COIN_RADIUS to her right. *)
Definition coin_near_alice : coin := Coin 2 120 100.
Definition coin_at_threshold : coin := Coin 3 135 100.

Ltac on_examples :=
  unfold dist, alice, bob, carol, coin_under_alice, coin_near_alice,
    coin_at_threshold, PLAYER_RADIUS, COIN_RADIUS;
  cbn [p_x p_y c_x c_y snd fst].

Ltac dist_lt := on_examples; apply PyFacts.hypot_lt_iff; lra.

Ltac dist_ge := on_examples; apply PyFacts.hypot_ge_iff; lra.

Lemma coin_goes_to_first_player_in_range_witness :
  handle_collisions [(2%nat, carol); (0%nat, alice); (1%nat, bob)]
                    [coin_under_alice]
  = ([(2%nat, carol); (0%nat, Player 1 100 100 (0 + 1) idle);
      (1%nat, bob)], [])
  /\ ~ In coin_under_alice
        (snd (handle_collisions
                [(2%nat, carol); (0%nat, alice); (1%nat, bob)]
                [coin_at_threshold; coin_under_alice])).
Proof.
  destruct (coin_goes_to_first_player_in_range
              coin_under_alice [(2%nat, carol)] [] [] 0%nat 1%nat alice bob [])
    as (_ & Hone & Hany).
  - intros q [<-|[]]. dist_ge.
  - dist_lt.
  - dist_lt.
  - split; [exact Hone|]. apply (Hany [coin_at_threshold] []).
Defined.

Lemma collection_test_is_strict_witness :
  sweep_coin coin_at_threshold ([(0%nat, alice)], [])
  = ([(0%nat, alice)], [])
  /\ In coin_at_threshold
        (snd (handle_collisions [(0%nat, alice)]
                                [coin_under_alice; coin_at_threshold])).
Proof.
  destruct (collection_test_is_strict coin_at_threshold [(0%nat, alice)] [])
    as [_ H].
  destruct H as [Hs Hk].
  - intros q [<-|[]]. dist_ge.
  - split; [exact Hs|]. apply Hk.
    + repeat constructor; cbn; intuition discriminate.
    + right. left. reflexivity.
Defined.

(** Both coins of the example are in range of [alice]. *)
Lemma alice_in_range_of_two_coins :
  in_range alice coin_under_alice = true
  /\ in_range alice coin_near_alice = true.
Proof. split; apply in_range_true; dist_lt. Qed.

(** C8 as stated fails for a player that is not the first in range.
    [bob] is within PLAYER_RADIUS + COIN_RADIUS of both coins, and so is
    [alice], who comes before him in the snapshot: the collision block
    gives her both points and him none, and both coins are gone. *)
Lemma later_player_in_range_collects_nothing :
  dist bob coin_under_alice < PLAYER_RADIUS + COIN_RADIUS
  /\ dist bob coin_near_alice < PLAYER_RADIUS + COIN_RADIUS
  /\ handle_collisions [(0%nat, alice); (1%nat, bob)]
                       [coin_under_alice; coin_near_alice]
     = ([(0%nat, Player 1 100 100 2 idle); (1%nat, Player 2 110 100 0 idle)],
        []).
Proof.
  split; [dist_lt|]. split; [dist_lt|].
  destruct alice_in_range_of_two_coins as [H1 H2].
  assert (E1 : collect coin_under_alice [(0%nat, alice); (1%nat, bob)]
               = ([(0%nat, add_score alice); (1%nat, bob)], true)).
  { apply (collect_first coin_under_alice [] [(1%nat, bob)] 0%nat alice);
      [intros q []|exact H1]. }
  assert (E2 : collect coin_near_alice
                 [(0%nat, add_score alice); (1%nat, bob)]
               = ([(0%nat, add_score (add_score alice)); (1%nat, bob)],
                  true)).
  { apply (collect_first coin_near_alice [] [(1%nat, bob)] 0%nat
             (add_score alice)); [intros q []|exact H2]. }
  unfold handle_collisions. cbn [sweep fold_left]. unfold sweep_coin.
  rewrite E1, E2. reflexivity.
Qed.



End Simulation.

(** ** Message framing *)

Module Framing.

Import Json Client.
Local Open Scope string_scope.

(** The messages a complete line contributes: none when it is empty after
    [strip] or when [json.loads] rejects it. *)
Definition decode_line (json_loads : string -> option json) (line : string)
  : list json :=
  let line := Text.strip line in
  if Text.is_empty line then []
  else match json_loads line with
       | Some msg => [msg]
       | None => []
       end.

(** Successive calls of [recv_messages], one per chunk the socket yields,
    each starting from the buffer the previous call returned; the messages
    of all the calls in order. *)
Fixpoint feed (json_loads : string -> option json) (chunks : list string)
  (buffer : string) : option (string * list json) :=
  match chunks with
  | [] => Some (buffer, [])
  | data :: rest =>
      match recv_messages json_loads (Received data) buffer with
      | None => None
      | Some (buffer', msgs) =>
          match feed json_loads rest buffer' with
          | None => None
          | Some (buffer'', more) => Some (buffer'', (msgs ++ more)%list)
          end
      end
  end.

(** [json.dumps] and [json.loads] on the three JSON literals. *)
Definition literal_dumps (m : json) : string :=
  match m with
  | JBool true => "true"
  | JBool false => "false"
  | _ => "null"
  end.

Definition literal_loads (s : string) : option json :=
  if String.eqb s "true" then Some (JBool true)
  else if String.eqb s "false" then Some (JBool false)
  else if String.eqb s "null" then Some JNull
  else None.

Lemma append_nil_r (s : string) : s ++ "" = s.
Proof. induction s as [|c s IH]; cbn; [reflexivity|rewrite IH; reflexivity]. Qed.

Lemma append_assoc (a b c : string) : (a ++ b) ++ c = a ++ (b ++ c).
Proof. induction a as [|x a IH]; cbn; [reflexivity|rewrite IH; reflexivity]. Qed.

Lemma split_newline_none (s : string) :
  Text.split_newline s = None <-> Text.has_newline s = false.
Proof.
  induction s as [|c s IH]; cbn; [tauto|].
  destruct (Ascii.eqb c Text.newline); cbn; [split; discriminate|].
  destruct (Text.split_newline s) as [[l r]|]; split; intros H;
    try discriminate; try reflexivity.
  - apply IH in H. discriminate.
  - apply IH. reflexivity.
Qed.

Lemma split_newline_app (s line rest tail : string) :
  Text.split_newline s = Some (line, rest) ->
  Text.split_newline (s ++ tail) = Some (line, rest ++ tail).
Proof.
  revert line. induction s as [|c s IH]; intros line H; cbn in *.
  - discriminate.
  - destruct (Ascii.eqb c Text.newline).
    + injection H as <- <-. reflexivity.
    + destruct (Text.split_newline s) as [[l r]|]; [|discriminate].
      injection H as <- <-. rewrite (IH l eq_refl). reflexivity.
Qed.

Lemma split_newline_at (line rest : string) :
  Text.has_newline line = false ->
  Text.split_newline (line ++ String Text.newline rest) = Some (line, rest).
Proof.
  induction line as [|c line IH]; cbn; intros H.
  - reflexivity.
  - apply orb_false_iff in H. destruct H as [Hc Hl].
    rewrite Hc, (IH Hl). reflexivity.
Qed.

Section Decoder.

Variable json_loads : string -> option json.

Lemma drain_unfold (buffer : string) (messages : list json) :
  drain json_loads buffer messages
  = match Text.split_newline buffer with
    | None => (buffer, messages)
    | Some (line, rest) =>
        drain json_loads rest (messages ++ decode_line json_loads line)
    end.
Proof.
  unfold decode_line.
  funelim (drain json_loads buffer messages);
    match goal with H : Text.split_newline _ = _ |- _ => rewrite H end;
    [|reflexivity].
  destruct (Text.is_empty (Text.strip line)).
  - rewrite app_nil_r. reflexivity.
  - destruct (json_loads (Text.strip line)); [reflexivity|].
    rewrite app_nil_r. reflexivity.
Qed.

(** Induction along the lines a buffer holds. *)
Lemma buffer_ind (P : string -> Prop) :
  (forall b, Text.split_newline b = None -> P b) ->
  (forall b line rest,
      Text.split_newline b = Some (line, rest) -> P rest -> P b) ->
  forall b, P b.
Proof.
  intros Hnone Hsome b.
  induction b as [b IH] using (well_founded_induction
                                 (well_founded_ltof string String.length)).
  destruct (Text.split_newline b) as [[line rest]|] eqn:E.
  - apply (Hsome b line rest E). apply IH.
    unfold ltof. apply (split_newline_shorter b line rest E).
  - apply Hnone. exact E.
Qed.

Lemma drain_no_newline (buffer : string) (messages : list json) :
  Text.has_newline buffer = false ->
  drain json_loads buffer messages = (buffer, messages).
Proof.
  intros H. rewrite drain_unfold.
  apply split_newline_none in H. rewrite H. reflexivity.
Qed.

(** The loop only appends to [messages]. *)
Lemma drain_messages (buffer : string) :
  forall messages,
    drain json_loads buffer messages
    = (fst (drain json_loads buffer []),
       (messages ++ snd (drain json_loads buffer []))%list).
Proof.
  induction buffer as [b E|b line rest E IH] using buffer_ind;
    intros messages.
  - rewrite !drain_unfold, E. cbn [fst snd]. rewrite app_nil_r. reflexivity.
  - rewrite !(drain_unfold b), E. cbn [app].
    rewrite (IH (messages ++ _)%list), (IH (decode_line json_loads line)).
    cbn [fst snd]. rewrite app_assoc. reflexivity.
Qed.

(** What the loop leaves in the buffer has no complete line. *)
Lemma drain_rest (buffer : string) (messages : list json) :
  Text.has_newline (fst (drain json_loads buffer messages)) = false.
Proof.
  revert messages.
  induction buffer as [b E|b line rest E IH] using buffer_ind;
    intros messages; rewrite drain_unfold, E.
  - cbn [fst]. apply split_newline_none. exact E.
  - apply IH.
Qed.

(** Decoding does not depend on where the stream was cut: draining a
    buffer and then the remainder with more text appended is draining the
    whole text at once. *)
Lemma drain_app (b1 b2 : string) :
  forall messages,
    drain json_loads (b1 ++ b2) messages
    = drain json_loads (fst (drain json_loads b1 messages) ++ b2)
            (snd (drain json_loads b1 messages)).
Proof.
  induction b1 as [b E|b line rest E IH] using buffer_ind; intros messages.
  - rewrite (drain_unfold b), E. reflexivity.
  - rewrite (drain_unfold (b ++ b2)), (drain_unfold b), E.
    rewrite (split_newline_app b line rest b2 E). apply IH.
Qed.

Lemma concat_cons (data : string) (chunks : list string) :
  Text.concat (data :: chunks) = data ++ Text.concat chunks.
Proof. reflexivity. Qed.

(** However the stream is cut into chunks, the calls together decode what
    one pass over the whole text decodes, and keep what it keeps. *)
Lemma feed_concat (chunks : list string) :
  forall buffer,
    Text.has_newline buffer = false ->
    feed json_loads chunks buffer
    = Some (drain json_loads (buffer ++ Text.concat chunks) []).
Proof.
  induction chunks as [|data chunks IH]; intros buffer Hb.
  - cbn [feed Text.concat fold_right]. rewrite append_nil_r.
    rewrite (drain_no_newline buffer [] Hb). reflexivity.
  - cbn [feed recv_messages]. rewrite concat_cons.
    destruct (Text.is_empty data) eqn:Hd.
    + destruct data; [|discriminate]. cbn [append].
      rewrite (IH buffer Hb).
      destruct (drain json_loads (buffer ++ Text.concat chunks) []).
      reflexivity.
    + rewrite <- append_assoc.
      rewrite (drain_app (buffer ++ data) (Text.concat chunks) []).
      pose proof (drain_rest (buffer ++ data) []) as Hr.
      destruct (drain json_loads (buffer ++ data) []) as [buffer' msgs].
      cbn [fst snd] in *. cbn beta iota. rewrite (IH buffer' Hr).
      rewrite (drain_messages (buffer' ++ Text.concat chunks) msgs).
      destruct (drain json_loads (buffer' ++ Text.concat chunks) []).
      reflexivity.
Qed.

(** A text line that is empty after [strip], or that [json.loads] rejects,
    is passed over by the client's loop: the lines after it are decoded as
    if it had not been there. *)
Lemma client_skips_blank_and_malformed (line rest : string)
  (messages : list json) :
  Text.has_newline line = false ->
  Text.is_empty (Text.strip line) = true
  \/ json_loads (Text.strip line) = None ->
  drain json_loads (line ++ String Text.newline rest) messages
  = drain json_loads rest messages.
Proof.
  intros Hl Hbad. rewrite drain_unfold, (split_newline_at line rest Hl).
  unfold decode_line. destruct Hbad as [->| ->].
  - rewrite app_nil_r. reflexivity.
  - destruct (Text.is_empty (Text.strip line)); rewrite app_nil_r; reflexivity.
Qed.

End Decoder.

(** C4. A message is written as [json.dumps] of it followed by a newline.
    When [json.loads] inverts [json.dumps] on the message and the text of
    [json.dumps] is one non-empty line without surrounding white space, then
    for every cut of the written text into chunks, followed by trailing text
    [rest] without a newline, the calls of [recv_messages] over the chunks
    decode the message once, and nothing else, and are left with [rest] in
    the buffer. *)
Theorem framing_round_trip
  (json_loads : string -> option json) (json_dumps : json -> string)
  (msg : json) (chunks : list string) (rest : string) :
  json_loads (json_dumps msg) = Some msg ->
  Text.has_newline (json_dumps msg) = false ->
  Text.strip (json_dumps msg) = json_dumps msg ->
  json_dumps msg <> "" ->
  Text.has_newline rest = false ->
  Text.concat chunks = Server.send_message json_dumps msg ++ rest ->
  feed json_loads chunks "" = Some (rest, [msg]).
Proof.
  intros Hrt Hline Hstrip Hne Hrest Hcut.
  rewrite (feed_concat json_loads chunks "" eq_refl). cbn [append].
  rewrite Hcut. unfold Server.send_message.
  rewrite append_assoc. cbn [append].
  rewrite drain_unfold, (split_newline_at (json_dumps msg) rest Hline).
  unfold decode_line. rewrite Hstrip, Hrt.
  destruct (json_dumps msg) as [|c t] eqn:E; [congruence|].
  cbn [Text.is_empty app]. rewrite (drain_no_newline json_loads rest [msg] Hrest).
  reflexivity.
Qed.

(** The written text [true] and a newline, cut inside the word, with the
    start of a next message behind it. *)
Lemma framing_round_trip_witness :
  feed literal_loads ["tr"; "ue" ++ String Text.newline "tr"] ""
  = Some ("tr", [JBool true]).
Proof.
  apply (framing_round_trip literal_loads literal_dumps (JBool true)
           ["tr"; "ue" ++ String Text.newline "tr"] "tr");
    try reflexivity.
  discriminate.
Defined.

(** The client's loop on a stream with a blank line, a malformed line and
    an incomplete last line: both messages are decoded, the incomplete text
    stays in the buffer. *)
Example drain_skips_and_keeps :
  drain literal_loads
        ("true" ++ String Text.newline
           ("  " ++ String Text.newline
              ("bad" ++ String Text.newline
                 (" null " ++ String Text.newline "fal"))))
        []
  = ("fal", [JBool true; JNull]).
Proof. reflexivity. Qed.

(** *** Empty and malformed lines on the server *)

(** A line that [json.loads] rejects is passed over by the server's loop
    too. *)
Lemma server_skips_malformed (json_loads : string -> option json)
  (c : Server.conn) (start : Z * Z) (line : string)
  (rest : list (string * (Z * Z))) (s : Server.session) :
  Text.is_empty (Text.strip line) = false ->
  json_loads (Text.strip line) = None ->
  Server.serve json_loads c ((line, start) :: rest) s
  = Server.serve json_loads c rest s.
Proof.
  intros Hne Hbad. cbn [Server.serve]. unfold Server.handle_line.
  rewrite Hne, Hbad. reflexivity.
Qed.

(** C5, the server's side. A line holding only a newline makes the
    server's loop break: whatever lines follow are not decoded, the loop is
    left with the session as it was, and [handle_client] goes on to its
    [finally] block, which removes the player. *)
Theorem blank_line_ends_server_loop (json_loads : string -> option json)
  (c : Server.conn) (start : Z * Z) (rest : list (string * (Z * Z)))
  (s : Server.session) (w : Server.world) :
  Server.serve json_loads c ((String Text.newline "", start) :: rest) s
  = (s, Server.Break)
  /\ Server.handle_client json_loads c
       ((String Text.newline "", start) :: rest) w
     = Server.close c (Server.Session w None []).
Proof. split; reflexivity. Qed.

(** Without the blank line in front, a join line is acted upon: a player
    is registered and a welcome is sent. *)
Lemma server_acts_on_join (json_loads : string -> option json)
  (c : Server.conn) (start : Z * Z) (line : string)
  (fields : list (string * json)) (w : Server.world) :
  Text.is_empty (Text.strip line) = false ->
  json_loads (Text.strip line) = Some (JObj fields) ->
  lookup "type" fields = Some (JStr "join") ->
  Server.serve json_loads c [(line, start)] (Server.Session w None [])
  = (Server.join c start (Server.Session w None []), Server.Continue).
Proof.
  intros Hne Hmsg Htype. cbn [Server.serve]. unfold Server.handle_line.
  rewrite Hne, Hmsg. unfold Server.handle_message. cbn [get].
  rewrite Htype. reflexivity.
Qed.

End Framing.

(** ** Absent fields *)

Module Decoding.

Import Json.
Local Open Scope string_scope.

(** The value [obj.get(k, default)] yields for the fields of a dict. *)
Definition field (k : string) (default : json) (fields : list (string * json))
  : json :=
  match lookup k fields with
  | Some v => v
  | None => default
  end.

Lemma dict_get_set (c : Server.conn) (p : Server.player)
  (m : list (Server.conn * Server.player)) :
  Server.dict_get c (Server.dict_set c p m) = Some p.
Proof.
  induction m as [|[c' q] m IH]; cbn [Server.dict_set Server.dict_get].
  - rewrite Nat.eqb_refl. reflexivity.
  - destruct (c =? c')%nat eqn:E; cbn [Server.dict_get].
    + rewrite Nat.eqb_refl. reflexivity.
    + rewrite E. exact IH.
Qed.

(** A flag that the keys dictionary does not hold reads as false. *)
Lemma flag_absent (ks : list (string * json)) (name : string) :
  lookup name ks = None -> Server.flag ks name = false.
Proof. unfold Server.flag. intros ->. reflexivity. Qed.

(** An input message of a joined player is accepted whatever flags its
    keys dictionary holds, and without a keys dictionary at all. *)
Lemma input_accepted (c : Server.conn) (start : Z * Z)
  (fields ks : list (string * json)) (s : Server.session) (pid : Z)
  (p : Server.player) :
  lookup "type" fields = Some (JStr "input") ->
  field "keys" (JObj []) fields = JObj ks ->
  Server.s_player_id s = Some pid ->
  Server.dict_get c (Server.players (Server.s_world s)) = Some p ->
  exists s',
    Server.handle_message c start (JObj fields) s = Some s' /\
    Server.dict_get c (Server.players (Server.s_world s'))
    = Some (Server.set_input p
              (Server.Keys (Server.flag ks "up") (Server.flag ks "down")
                           (Server.flag ks "left") (Server.flag ks "right"))).
Proof.
  intros Htype Hkeys Hpid Hp. unfold Server.handle_message. cbn [get].
  rewrite Htype, Hpid. cbn [eq_str String.eqb Ascii.eqb Bool.eqb andb].
  unfold Server.input. cbn [get]. fold (field "keys" (JObj []) fields).
  rewrite Hkeys, Hp. eexists. split; [reflexivity|].
  cbn [Server.s_world Server.set_players Server.players].
  apply dict_get_set.
Qed.

Lemma flag_present (ks : list (string * json)) (name : string) (v : json) :
  lookup name ks = Some v -> Server.flag ks name = truthy v.
Proof. unfold Server.flag. intros ->. reflexivity. Qed.

Section ClientSide.

Variable float_of_str : string -> option R.

Lemma no_players_no_entities (es : list (json * Client.entity)) :
  Client.update_entities_from_server float_of_str (JArr []) es = Some [].
Proof.
  unfold Client.update_entities_from_server.
  cbn [elements Client.update_entities].
  induction es as [|ke es IH]; [reflexivity|].
  cbn [filter Client.seen existsb] in *. exact IH.
Qed.

(** The state branch, with the two defaults spelled out. *)
Lemma state_accepted (fields : list (string * json)) (cl : Client.client) :
  lookup "type" fields = Some (JStr "state") ->
  Client.process float_of_str (JObj fields) cl
  = match Client.update_entities_from_server float_of_str
            (field "players" (JArr []) fields) (Client.entity_state cl) with
    | Some es =>
        Some (Client.ClientState (field "coins" (JArr []) fields)
                                 (Client.my_id cl) es)
    | None => None
    end.
Proof.
  intros Htype. unfold Client.process. cbn [get]. rewrite Htype.
  reflexivity.
Qed.

(** An entry of the players list is read with [p["id"]], [p["x"]],
    [p["y"]] and [p["score"]]: without one of them the loop body raises. *)
Definition lacks_a_field (p : json) : Prop :=
  getitem p "id" = None \/ getitem p "x" = None
  \/ getitem p "y" = None \/ getitem p "score" = None.

Lemma update_entity_raises (p : json)
  (st : list (json * Client.entity) * list json) :
  lacks_a_field p -> Client.update_entity float_of_str p st = None.
Proof.
  intros H. unfold lacks_a_field in H. destruct st as [es seen_ids].
  unfold Client.update_entity.
  destruct (getitem p "id") as [pid|]; [|reflexivity].
  destruct (getitem p "x") as [vx|]; [|reflexivity].
  destruct (Client.float float_of_str vx) as [x|]; [|reflexivity].
  destruct (getitem p "y") as [vy|]; [|reflexivity].
  destruct (Client.float float_of_str vy) as [y|]; [|reflexivity].
  destruct (getitem p "score") as [score|]; [|reflexivity].
  destruct H as [H|[H|[H|H]]]; discriminate.
Qed.

Lemma update_entities_raises (ps : list json) (p : json) :
  In p ps -> lacks_a_field p ->
  forall st, Client.update_entities float_of_str ps st = None.
Proof.
  intros Hin Hp. induction ps as [|q ps IH]; [destruct Hin|].
  intros st. cbn [Client.update_entities].
  destruct Hin as [->|Hin].
  - rewrite (update_entity_raises p st Hp). reflexivity.
  - destruct (Client.update_entity float_of_str q st) as [st'|];
      [|reflexivity].
    apply (IH Hin).
Qed.

(** A state message whose players list has an entry without one of its
    four fields makes the dispatch raise. *)
Lemma state_entry_must_be_complete (fields : list (string * json))
  (ps : list json) (p : json) (cl : Client.client) :
  lookup "type" fields = Some (JStr "state") ->
  lookup "players" fields = Some (JArr ps) ->
  In p ps -> lacks_a_field p ->
  Client.process float_of_str (JObj fields) cl = None.
Proof.
  intros Htype Hps Hin Hp. rewrite (state_accepted fields cl Htype).
  unfold field. rewrite Hps. unfold Client.update_entities_from_server.
  cbn [elements]. rewrite (update_entities_raises ps p Hin Hp). reflexivity.
Qed.

End ClientSide.

(** A client that tracks one player. *)
Definition one_entity : Client.client :=
  Client.ClientState (JArr [JNull]) (JInt 7)
    [(JInt 7, Client.first_seen 300 200 (JInt 0))].

(** A state message whose one player entry has no position. *)
Definition no_position : json :=
  JObj [("type", JStr "state");
        ("players", JArr [JObj [("id", JInt 7); ("score", JInt 0)]]);
        ("coins", JArr [])].

(** C9 as stated fails for the fields of a player entry.  The entry of
    [no_position] has no ["x"]: [p["x"]] raises [KeyError], nothing in
    [main] catches it, and the message is not processed. *)
Lemma absent_entry_field_raises :
  getitem (JObj [("id", JInt 7); ("score", JInt 0)]) "x" = None
  /\ Client.process (fun _ => None) no_position one_entity = None.
Proof. split; reflexivity. Qed.

(** C9, amended. An absent field takes its default where the program
    reads it with [get], and only there.  On the server, an input message
    of a joined player is accepted whether or not it has a keys
    dictionary: the player keeps its id, position and score, and its input
    becomes the four flags, each the truth value of what the dictionary
    holds for it and false when the dictionary does not hold it.  On the
    client, a state message without a players list is processed as one
    with the empty list (no entity remains), and a state message without a
    coins list stores the empty list of coins and treats its players as
    usual.  But a state message that lists a player entry without an id,
    x, y or score is not processed: the dispatch raises.  And a coin entry
    without an x or y is stored with the message, and raises when the
    coins are drawn. *)
Theorem absent_fields_take_defaults :
  (forall (c : Server.conn) (start : Z * Z) (fields ks : list (string * json))
          (s : Server.session) (pid : Z) (p : Server.player),
      lookup "type" fields = Some (JStr "input") ->
      lookup "keys" fields = Some (JObj ks)
      \/ (lookup "keys" fields = None /\ ks = []) ->
      Server.s_player_id s = Some pid ->
      Server.dict_get c (Server.players (Server.s_world s)) = Some p ->
      (exists s' up down left right,
          Server.handle_message c start (JObj fields) s = Some s' /\
          Server.dict_get c (Server.players (Server.s_world s'))
          = Some (Server.Player (Server.p_id p) (Server.p_x p)
                                (Server.p_y p) (Server.p_score p)
                                (Server.Keys up down left right)) /\
          up = match lookup "up" ks with
               | Some v => truthy v | None => false end /\
          down = match lookup "down" ks with
                 | Some v => truthy v | None => false end /\
          left = match lookup "left" ks with
                 | Some v => truthy v | None => false end /\
          right = match lookup "right" ks with
                  | Some v => truthy v | None => false end))
  /\
  (forall (float_of_str : string -> option R) (fields : list (string * json))
          (cl : Client.client),
      lookup "type" fields = Some (JStr "state") ->
      (lookup "players" fields = None ->
       Client.process float_of_str (JObj fields) cl
       = Some (Client.ClientState (field "coins" (JArr []) fields)
                                  (Client.my_id cl) []))
      /\
      (lookup "coins" fields = None ->
       Client.process float_of_str (JObj fields) cl
       = match Client.update_entities_from_server float_of_str
                 (field "players" (JArr []) fields)
                 (Client.entity_state cl) with
         | Some es => Some (Client.ClientState (JArr []) (Client.my_id cl) es)
         | None => None
         end)
      /\
      (forall ps p,
          lookup "players" fields = Some (JArr ps) -> In p ps ->
          getitem p "id" = None \/ getitem p "x" = None
          \/ getitem p "y" = None \/ getitem p "score" = None ->
          Client.process float_of_str (JObj fields) cl = None))
  /\
  (forall (int_of_str : string -> option Z)
          (draw_circle : Z * Z -> option unit) (c : json),
      getitem c "x" = None \/ getitem c "y" = None ->
      Client.draw_coin int_of_str draw_circle c = None).
Proof.
  split; [|split].
  3:{ intros int_of_str draw_circle c H. unfold Client.draw_coin.
      destruct (getitem c "x") as [vx|]; [|reflexivity].
      destruct (Client.int int_of_str vx) as [x|]; [|reflexivity].
      destruct (getitem c "y") as [vy|]; [|reflexivity].
      destruct H; discriminate. }
  - intros c start fields ks s pid p Htype Hkeys Hpid Hp.
    assert (Hfield : field "keys" (JObj []) fields = JObj ks).
    { unfold field. destruct Hkeys as [->|[-> ->]]; reflexivity. }
    destruct (input_accepted c start fields ks s pid p Htype Hfield Hpid Hp)
      as [s' [Hs Hstored]].
    exists s', (Server.flag ks "up"), (Server.flag ks "down"),
      (Server.flag ks "left"), (Server.flag ks "right").
    split; [exact Hs|]. split; [exact Hstored|].
    unfold Server.flag.
    repeat split;
      match goal with
      | |- context [lookup ?n ks] => destruct (lookup n ks); reflexivity
      end.
  - intros float_of_str fields cl Htype.
    rewrite (state_accepted float_of_str fields cl Htype).
    split; [|split].
    + intros Habs. unfold field at 1.
      rewrite Habs, no_players_no_entities. reflexivity.
    + intros Habs. unfold field at 2. rewrite Habs. reflexivity.
    + intros ps p Hps Hin Hp.
      rewrite <- (state_accepted float_of_str fields cl Htype).
      apply (state_entry_must_be_complete float_of_str fields ps p cl);
        assumption.
Qed.

(** A joined player whose input message holds the up flag only. *)
Definition erin : Server.player :=
  Server.Player 7 300 200 0 (Server.Keys false false false true).

Definition erin_session : Server.session :=
  Server.Session (Server.World [(5%nat, erin)] [] 8 1) (Some 7%Z) [].

Definition up_only : list (string * json) :=
  [("type", JStr "input"); ("keys", JObj [("up", JBool true)])].

Lemma absent_fields_take_defaults_witness :
  (exists s',
      Server.handle_message 5%nat (0, 0)%Z (JObj up_only) erin_session
      = Some s' /\
      Server.dict_get 5%nat (Server.players (Server.s_world s'))
      = Some (Server.Player 7 300 200 0
                (Server.Keys true false false false)))
  /\
  Client.process (fun _ => None) (JObj [("type", JStr "state")]) one_entity
  = Some (Client.ClientState (JArr []) (JInt 7) []).
Proof.
  destruct absent_fields_take_defaults as (Hserver & Hclient & _). split.
  - destruct (Hserver 5%nat (0, 0)%Z up_only [("up", JBool true)]
                      erin_session 7%Z erin)
      as (s' & up & down & left & right & Hs & Hstored & -> & -> & -> & ->);
      try reflexivity.
    + left. reflexivity.
    + exists s'. split; [exact Hs|exact Hstored].
  - destruct (Hclient (fun _ => None) [("type", JStr "state")] one_entity
                      eq_refl) as [Hp _].
    apply Hp. reflexivity.
Defined.

End Decoding.

(** ** The local correction in the program's own arithmetic *)

Module Binary64Facts.

Import PrimFloat Binary64.
Local Open Scope float_scope.

Lemma frames_succ (n : nat) (draw target : float) :
  frames (S n) draw target = blend correct_speed (frames n draw target) target.
Proof. reflexivity. Qed.


(** From frame 203 on the coordinate never moves again. *)
Lemma stalled_for_good (n : nat) :
  frames (203 + n) 90 100 = frames 203 90 100.
Proof.
  induction n as [|n IH].
  - rewrite Nat.add_0_r. reflexivity.
  - rewrite Nat.add_succ_r, frames_succ, IH. vm_compute. reflexivity.
Qed.

(** What the amended C6 says, checked on this run: in each of the first
    300 frames the coordinate does not go back and does not pass 100. *)
Lemma run_stays_between :
  forallb (fun n =>
             leb (frames n 90 100) (frames (S n) 90 100)
             && leb (frames (S n) 90 100) 100)
          (seq 0 300)
  = true.
Proof. vm_compute. reflexivity. Qed.

End Binary64Facts.

(** ** Client reconciliation *)

Module Reconciliation.

Import Json Client.
Local Open Scope R_scope.

(** *** The local player's visual position *)

(** The record of the local player after [n] frames in which no snapshot
    changes its authoritative position, for a correction rate [rate]. *)
Definition frames (F : Py.float_format) (rate : R) (n : nat) (ent : entity)
  : entity :=
  Nat.iter n (correct_with F rate) ent.

(** A record as the first snapshot leaves it. *)
Definition fresh : entity := first_seen 100 100 (JInt 0).

Section Correction.

Variable F : Py.float_format.














(** The rate of the program, in a format that has the value 1/4. *)
Lemma correct_speed_range :
  Py.in_format F (1 / 4) -> 0 <= correct_speed F <= 1 / 4.
Proof.
  intros H. unfold correct_speed. split.
  - apply PyFacts.round_nonneg. lra.
  - rewrite <- H. apply Py.round_monotone. lra.
Qed.

(** The drawing loop runs [correct] on the record whose key is [my_id]
    and draws its new visual position. *)
Lemma draw_local (me pid : json) (ent : entity) :
  key_eqb pid me = true ->
  draw_entity F me pid ent
  = (correct_with F (correct_speed F) ent,
     visual (correct_with F (correct_speed F) ent)).
Proof. unfold draw_entity, correct. intros ->. reflexivity. Qed.


End Correction.



(** *** Remote players: first sight and the end of the interpolation *)

(** What a key stands for when keys are compared: its numeric value, its
    text, or [None]. *)
Definition canon (v : json) : option (R + string + unit) :=
  match v with
  | JNull => Some (inr tt)
  | JStr s => Some (inl (inr s))
  | JArr _ | JObj _ => None
  | JBool _ | JInt _ | JFloat _ =>
      match number v with
      | Some r => Some (inl (inl r))
      | None => None
      end
  end.

Lemma key_eqb_canon (a b : json) :
  key_eqb a b = true <-> exists k, canon a = Some k /\ canon b = Some k.
Proof.
  unfold key_eqb.
  destruct a, b; cbn [number canon];
    try (split; [discriminate | intros [k [H1 H2]]; congruence]);
    try (match goal with
         | |- context [Req_dec_T ?x ?y] =>
             destruct (Req_dec_T x y) as [E|E];
             [ split; [intros _; eexists; split; [reflexivity|];
                       rewrite E; reflexivity
                      | reflexivity]
             | split; [discriminate
                      | intros [k [H1 H2]]; exfalso; apply E; congruence] ]
         end).
  - split; [intros _; eexists; split; reflexivity | reflexivity].
  - rewrite String.eqb_eq. split.
    + intros ->. eexists. split; reflexivity.
    + intros [k [H1 H2]]. congruence.
Qed.

Lemma key_eqb_refl (k : json) : hashable k = true -> key_eqb k k = true.
Proof.
  intros H. apply key_eqb_canon.
  destruct k; try discriminate; cbn [canon number]; eexists; split; reflexivity.
Qed.

Lemma key_eqb_sym (a b : json) : key_eqb a b = true -> key_eqb b a = true.
Proof.
  rewrite !key_eqb_canon. intros [k [H1 H2]]. exists k. split; assumption.
Qed.

Lemma key_eqb_trans (a b c : json) :
  key_eqb a b = true -> key_eqb b c = true -> key_eqb a c = true.
Proof.
  rewrite !key_eqb_canon. intros [k [H1 H2]] [k' [H3 H4]].
  exists k. split; [assumption|congruence].
Qed.

(** Two keys equal to a third are equal to each other. *)
Lemma key_eqb_common (k a b : json) :
  key_eqb k a = true -> key_eqb k b = true -> key_eqb a b = true.
Proof.
  intros Ha Hb. apply (key_eqb_trans a k b); [apply key_eqb_sym|]; assumption.
Qed.

Lemma find_upsert_other (pid other : json) (x y : R) (score : json)
  (es : list (json * entity)) :
  key_eqb other pid = false ->
  find pid (upsert other x y score es) = find pid es.
Proof.
  intros Hne. induction es as [|[k ent] es IH]; cbn [upsert find].
  - rewrite Hne. reflexivity.
  - destruct (key_eqb k other) eqn:Hko; cbn [find].
    + destruct (key_eqb k pid) eqn:Hkp; [|reflexivity].
      rewrite (key_eqb_common k other pid Hko Hkp) in Hne. discriminate.
    + rewrite IH. reflexivity.
Qed.

Lemma find_upsert_new (pid : json) (x y : R) (score : json)
  (es : list (json * entity)) :
  hashable pid = true -> find pid es = None ->
  find pid (upsert pid x y score es) = Some (first_seen x y score).
Proof.
  intros Hh. induction es as [|[k ent] es IH]; cbn [upsert find]; intros Hf.
  - rewrite (key_eqb_refl pid Hh). reflexivity.
  - destruct (key_eqb k pid) eqn:Hk; [discriminate|].
    cbn [find]. rewrite Hk. apply IH. exact Hf.
Qed.

Lemma seen_cons (pid k : json) (seen_ids : list json) :
  seen pid (k :: seen_ids) = key_eqb k pid || seen pid seen_ids.
Proof. reflexivity. Qed.

Lemma find_filter_seen (pid : json) (seen_ids : list json)
  (es : list (json * entity)) :
  seen pid seen_ids = true ->
  find pid (filter (fun ke => seen (fst ke) seen_ids) es) = find pid es.
Proof.
  intros Hs. induction es as [|[k ent] es IH]; cbn [filter find fst].
  - reflexivity.
  - destruct (key_eqb k pid) eqn:Hk.
    + assert (Hseen : seen k seen_ids = true).
      { unfold seen in *. apply existsb_exists in Hs.
        destruct Hs as [k' [Hin Hk']]. apply existsb_exists.
        exists k'. split; [exact Hin|].
        apply (key_eqb_trans k' pid k Hk'). apply key_eqb_sym. exact Hk. }
      rewrite Hseen. cbn [find]. rewrite Hk. reflexivity.
    + destruct (seen k seen_ids); cbn [find]; [rewrite Hk|]; exact IH.
Qed.

Section Snapshot.

Variable float_of_str : string -> option R.

Lemma update_entities_app (l1 l2 : list json)
  (st : list (json * entity) * list json) :
  update_entities float_of_str (l1 ++ l2) st
  = match update_entities float_of_str l1 st with
    | Some st1 => update_entities float_of_str l2 st1
    | None => None
    end.
Proof.
  revert st. induction l1 as [|q l1 IH]; intros st; cbn [app update_entities].
  - reflexivity.
  - destruct (update_entity float_of_str q st) as [st'|]; [apply IH|reflexivity].
Qed.

(** What one iteration does, when it does not raise. *)
Lemma update_entity_some (p : json) (es es' : list (json * entity))
  (ids ids' : list json) :
  update_entity float_of_str p (es, ids) = Some (es', ids') ->
  exists pid vx vy x y score,
    getitem p "id" = Some pid /\ getitem p "x" = Some vx /\
    float float_of_str vx = Some x /\ getitem p "y" = Some vy /\
    float float_of_str vy = Some y /\ getitem p "score" = Some score /\
    hashable pid = true /\
    es' = upsert pid x y score es /\ ids' = pid :: ids.
Proof.
  unfold update_entity.
  destruct (getitem p "id") as [pid|] eqn:Hid; [|discriminate].
  destruct (getitem p "x") as [vx|] eqn:Hx; [|discriminate].
  destruct (float float_of_str vx) as [x|] eqn:Hfx; [|discriminate].
  destruct (getitem p "y") as [vy|] eqn:Hy; [|discriminate].
  destruct (float float_of_str vy) as [y|] eqn:Hfy; [|discriminate].
  destruct (getitem p "score") as [score|] eqn:Hscore; [|discriminate].
  destruct (hashable pid) eqn:Hh; [|discriminate].
  intros H. injection H as <- <-.
  exists pid, vx, vy, x, y, score. repeat split; assumption.
Qed.

(** Entries with other ids leave the record of [pid] alone. *)
Lemma update_entities_other (pid : json) (l : list json) :
  (forall q qid, In q l -> getitem q "id" = Some qid ->
                 key_eqb qid pid = false) ->
  forall es ids es' ids',
    update_entities float_of_str l (es, ids) = Some (es', ids') ->
    find pid es' = find pid es /\
    (seen pid ids = true -> seen pid ids' = true).
Proof.
  induction l as [|q l IH]; intros Hl es ids es' ids' H; cbn [update_entities] in H.
  - injection H as <- <-. split; [reflexivity|tauto].
  - destruct (update_entity float_of_str q (es, ids)) as [[es1 ids1]|] eqn:E;
      [|discriminate].
    destruct (update_entity_some q es es1 ids ids1 E)
      as (qid & vx & vy & x & y & score & Hid & _ & _ & _ & _ & _ & _ & -> & ->).
    assert (Hq : key_eqb qid pid = false)
      by (apply (Hl q qid); [left; reflexivity|exact Hid]).
    destruct (IH (fun q' qid' Hin => Hl q' qid' (or_intror Hin))
                 _ _ _ _ H) as [Hf Hs].
    split.
    + rewrite Hf. apply find_upsert_other. exact Hq.
    + intros Hseen. apply Hs. rewrite seen_cons, Hseen. apply orb_true_r.
Qed.

(** C7. (a) When a snapshot that is processed without error lists a
    player id the client does not track yet, exactly once, the record kept
    for that id has previous and current position both equal to the
    reported position and timer 0; for such a record alpha is 0 at timer 0
    and, whatever the timer, the drawn position is the reported position.
    (b) Whenever the timer of a record is at least INTERP_DURATION, alpha
    is 1 and the drawn position is the current target position. *)
Theorem first_sight_and_full_interpolation :
  (forall (before after : list json) (p pid vx vy score : json) (x y : R)
          (es es' : list (json * entity)),
      update_entities_from_server float_of_str
        (JArr (before ++ p :: after)) es = Some es' ->
      getitem p "id" = Some pid ->
      getitem p "x" = Some vx -> float float_of_str vx = Some x ->
      getitem p "y" = Some vy -> float float_of_str vy = Some y ->
      getitem p "score" = Some score ->
      find pid es = None ->
      (forall q qid, In q (before ++ after) -> getitem q "id" = Some qid ->
                     key_eqb qid pid = false) ->
      find pid es' = Some (Entity x y x y 0 score None None)
      /\ alpha (Entity x y x y 0 score None None) = 0
      /\ forall t, interpolate (Entity x y x y t score None None) = (x, y))
  /\
  (forall ent : entity,
      INTERP_DURATION <= e_t ent ->
      alpha ent = 1 /\ interpolate ent = (e_x ent, e_y ent)).
Proof.
  split.
  - intros before after p pid vx vy score x y es es'
           Hup Hid Hx Hfx Hy Hfy Hscore Hnew Hothers.
    split; [|split].
    + unfold update_entities_from_server in Hup. cbn [elements] in Hup.
      rewrite update_entities_app in Hup.
      destruct (update_entities float_of_str before (es, []))
        as [[es1 ids1]|] eqn:E1; [|discriminate].
      cbn [update_entities] in Hup.
      destruct (update_entity float_of_str p (es1, ids1))
        as [[es2 ids2]|] eqn:E2; [|discriminate].
      destruct (update_entities float_of_str after (es2, ids2))
        as [[es3 ids3]|] eqn:E3; [|discriminate].
      injection Hup as <-.
      destruct (update_entities_other pid before
                  (fun q qid Hin => Hothers q qid (in_or_app _ _ q (or_introl Hin)))
                  es [] es1 ids1 E1) as [Hf1 _].
      destruct (update_entity_some p es1 es2 ids1 ids2 E2)
        as (pid' & vx' & vy' & x' & y' & score' & Hid' & Hx' & Hfx' & Hy'
            & Hfy' & Hscore' & Hh & -> & ->).
      assert (pid' = pid) by congruence. subst pid'.
      assert (vx' = vx) by congruence. subst vx'.
      assert (vy' = vy) by congruence. subst vy'.
      assert (x' = x) by congruence. subst x'.
      assert (y' = y) by congruence. subst y'.
      assert (score' = score) by congruence. subst score'.
      destruct (update_entities_other pid after
                  (fun q qid Hin => Hothers q qid (in_or_app _ _ q (or_intror Hin)))
                  _ _ es3 ids3 E3) as [Hf3 Hs3].
      rewrite find_filter_seen.
      * rewrite Hf3. apply find_upsert_new; [exact Hh|].
        rewrite Hf1. exact Hnew.
      * apply Hs3. rewrite seen_cons, (key_eqb_refl pid Hh). reflexivity.
    + unfold alpha, Py.min, INTERP_DURATION. cbn [e_t].
      destruct (Rlt_dec 1 (0 / 0.1)); lra.
    + intros t. unfold interpolate. cbn [e_x e_y e_x_prev e_y_prev].
      f_equal; ring.
  - intros ent Ht.
    assert (Ha : alpha ent = 1).
    { unfold alpha, Py.min, INTERP_DURATION in *.
      destruct (Rlt_dec 1 (e_t ent / 0.1)); lra. }
    split; [exact Ha|]. unfold interpolate. rewrite Ha. f_equal; ring.
Qed.

End Snapshot.

Local Open Scope string_scope.

Lemma key_eqb_int (a b : Z) : key_eqb (JInt a) (JInt b) = (a =? b)%Z.
Proof.
  unfold key_eqb. cbn [number].
  destruct (Req_dec_T (IZR a) (IZR b)) as [E|E].
  - apply eq_IZR in E. subst. symmetry. apply Z.eqb_refl.
  - destruct (Z.eqb_spec a b) as [->|]; [|reflexivity].
    exfalso. apply E. reflexivity.
Qed.

(** A client that tracks player 1 receives the server's snapshot of
    players 1 and 2. *)
Definition tracked : list (json * entity) :=
  [(JInt 1, first_seen 100 100 (JInt 0))].

Definition snapshot : list json :=
  [Server.player_entry Simulation.alice; Server.player_entry Simulation.bob].

Definition tracked_after : list (json * entity) :=
  [(JInt 1, retarget (first_seen 100 100 (JInt 0)) 100 100 (JInt 0));
   (JInt 2, first_seen 110 100 (JInt 0))].

Ltac run_update :=
  unfold update_entities_from_server, snapshot, tracked, tracked_after,
    Server.player_entry, Simulation.alice, Simulation.bob;
  repeat (cbn [elements update_entities update_entity getitem lookup
                 String.eqb Ascii.eqb Bool.eqb float number hashable upsert
                 find filter fst seen existsb orb app
                 Server.p_id Server.p_x Server.p_y Server.p_score];
          rewrite ?key_eqb_int; cbn [Z.eqb Pos.eqb]).

Lemma snapshot_update :
  update_entities_from_server (fun _ => None) (JArr snapshot) tracked
  = Some tracked_after.
Proof. run_update. reflexivity. Qed.

Lemma first_sight_and_full_interpolation_witness :
  find (JInt 2) tracked_after
  = Some (Entity 110 100 110 100 0 (JInt 0) None None)
  /\ interpolate (Entity 100 100 110 100 INTERP_DURATION (JInt 0) None None)
     = (110, 100)%R.
Proof.
  destruct (first_sight_and_full_interpolation (fun _ => None)) as [Ha Hb].
  split.
  - apply (Ha [Server.player_entry Simulation.alice] []
              (Server.player_entry Simulation.bob)
              (JInt 2) (JFloat 110) (JFloat 100) (JInt 0) 110%R 100%R
              tracked tracked_after); try reflexivity.
    + exact snapshot_update.
    + run_update. reflexivity.
    + intros q qid [<-|[]] Hid. cbn in Hid. injection Hid as <-.
      rewrite key_eqb_int. reflexivity.
  - apply (Hb (Entity 100 100 110 100 INTERP_DURATION (JInt 0) None None)).
    cbn [e_t]. lra.
Defined.

End Reconciliation.

(** ** More on the game loop: coins, scores and movement *)

Module WorldFacts.

Import Json Server Simulation.
Local Open Scope R_scope.

(** The coin ids of a world are distinct and below the counter. *)
Definition coins_fresh (w : world) : Prop :=
  NoDup (map c_id (coins w)) /\
  forall c, In c (coins w) -> (c_id c < next_coin_id w)%Z.

(** The sum of the scores in a snapshot. *)
Definition total_score (items : list (conn * player)) : Z :=
  fold_right (fun cp acc => (p_score (snd cp) + acc)%Z) 0%Z items.

(** The number of coins some player of the snapshot reaches. *)
Definition reached (items : list (conn * player)) (cs : list coin) : nat :=
  List.length (filter (fun c => reach c items) cs).

Lemma remove_collected_filter (rm : list Z) (cs : list coin) :
  remove_collected rm cs = filter (fun c => negb (mem (c_id c) rm)) cs.
Proof.
  destruct rm as [|i rm]; [|reflexivity].
  cbn [remove_collected mem existsb negb].
  induction cs as [|c cs IH]; [reflexivity|]. cbn [filter]. f_equal. exact IH.
Qed.

Lemma marked_iff_reached (items : list (conn * player)) (cs : list coin)
  (c : coin) :
  NoDup (map c_id cs) -> In c cs ->
  existsb (fun c' => (c_id c' =? c_id c)%Z && reach c' items) cs
  = reach c items.
Proof.
  intros Hnd Hc. destruct (reach c items) eqn:Hr.
  - apply existsb_exists. exists c. split; [exact Hc|].
    rewrite Z.eqb_refl, Hr. reflexivity.
  - destruct (existsb _ cs) eqn:E; [|reflexivity].
    apply existsb_exists in E. destruct E as [c' [Hc' Hb]].
    apply andb_true_iff in Hb. destruct Hb as [Hid Hr'].
    apply Z.eqb_eq in Hid.
    rewrite (same_id_same_coin cs c c' Hnd Hc Hc' Hid) in Hr'. congruence.
Qed.

Lemma remaining_coins (items : list (conn * player)) (cs : list coin) :
  NoDup (map c_id cs) ->
  snd (handle_collisions items cs)
  = filter (fun c => negb (reach c items)) cs.
Proof.
  intros Hnd. unfold handle_collisions.
  pose proof (fun i => sweep_marks cs items [] i) as Hm.
  destruct (sweep cs (items, [])) as [items' rm]. cbn [snd] in *.
  rewrite remove_collected_filter. apply filter_ext_in. intros c Hc.
  rewrite Hm. cbn [mem existsb orb].
  rewrite (marked_iff_reached items cs c Hnd Hc). reflexivity.
Qed.

(** With distinct coin ids, the coins the collision block leaves are
    exactly the coins no player of the snapshot is in range of, in their
    order. *)
Theorem remaining_coins_are_the_unreached
  (items : list (conn * player)) (cs : list coin) :
  NoDup (map c_id cs) ->
  snd (handle_collisions items cs)
  = filter (fun c => negb (reach c items)) cs
  /\ forall c, In c (snd (handle_collisions items cs)) <->
               In c cs /\
               forall q, In q items ->
                         PLAYER_RADIUS + COIN_RADIUS <= dist (snd q) c.
Proof.
  intros Hnd. split; [apply remaining_coins; exact Hnd|].
  intros c. rewrite (remaining_coins items cs Hnd), filter_In, negb_true_iff.
  rewrite reach_false. split; intros [Hc H]; (split; [exact Hc|]);
    intros q Hq; apply in_range_false; apply H; exact Hq.
Qed.

Lemma remaining_coins_are_the_unreached_witness :
  snd (handle_collisions [(0%nat, alice)] [coin_under_alice; coin_at_threshold])
  = filter (fun c => negb (reach c [(0%nat, alice)]))
           [coin_under_alice; coin_at_threshold].
Proof.
  apply (remaining_coins_are_the_unreached
           [(0%nat, alice)] [coin_under_alice; coin_at_threshold]).
  repeat constructor; cbn; intuition discriminate.
Defined.

Lemma total_score_app (l1 l2 : list (conn * player)) :
  total_score (l1 ++ l2) = (total_score l1 + total_score l2)%Z.
Proof.
  induction l1 as [|a l1 IH]; cbn [app total_score fold_right].
  - reflexivity.
  - fold (total_score (l1 ++ l2)). fold (total_score l1). rewrite IH. lia.
Qed.

Lemma collect_total (c : coin) (items : list (conn * player)) :
  total_score (fst (collect c items))
  = (total_score items + if reach c items then 1 else 0)%Z.
Proof.
  pose proof (collect_hit c items) as Hh.
  destruct (collect_cases c items)
    as [[Hc _]|(pre & k & p & post & -> & _ & _ & Hc)];
    rewrite Hc in *; cbn [fst snd] in *; rewrite <- Hh.
  - lia.
  - rewrite !total_score_app. cbn [total_score fold_right snd add_score p_score].
    lia.
Qed.

Lemma filter_reach_places (l l' : list (conn * player)) (cs : list coin) :
  map place l = map place l' -> reached l cs = reached l' cs.
Proof.
  intros H. unfold reached. f_equal. apply filter_ext. intros c.
  apply reach_places_eq. exact H.
Qed.

Lemma sweep_total (cs : list coin) :
  forall (items : list (conn * player)) (rm : list Z),
    total_score (fst (sweep cs (items, rm)))
    = (total_score items + Z.of_nat (reached items cs))%Z.
Proof.
  induction cs as [|c cs IH]; intros items rm; cbn [sweep fold_left].
  - unfold reached. cbn [fst filter List.length]. lia.
  - fold (sweep cs (sweep_coin c (items, rm))).
    pose proof (collect_total c items) as Ht.
    pose proof (collect_places c items) as Hp.
    unfold sweep_coin. destruct (collect c items) as [items1 hit].
    cbn [fst] in *. rewrite IH, Ht.
    rewrite (filter_reach_places items1 items cs Hp).
    unfold reached. cbn [filter].
    destruct (reach c items); cbn [List.length]; lia.
Qed.

Lemma filter_split_length {A : Type} (f : A -> bool) (l : list A) :
  (List.length (filter f l) + List.length (filter (fun a => negb (f a)) l)
   = List.length l)%nat.
Proof.
  induction l as [|a l IH]; [reflexivity|].
  cbn [filter]. destruct (f a); cbn [negb List.length]; lia.
Qed.

(** Every point scored in the collision block is paid for by one removed
    coin: with distinct coin ids, the sum of the scores grows by exactly the
    number of coins that disappear. *)
Theorem score_gain_is_coins_removed
  (items : list (conn * player)) (cs : list coin) :
  NoDup (map c_id cs) ->
  (total_score (fst (handle_collisions items cs)) - total_score items
   = Z.of_nat (List.length cs)
     - Z.of_nat (List.length (snd (handle_collisions items cs))))%Z.
Proof.
  intros Hnd. rewrite (remaining_coins items cs Hnd).
  pose proof (filter_split_length (fun c => reach c items) cs) as Hl.
  unfold handle_collisions.
  pose proof (sweep_total cs items []) as Ht.
  destruct (sweep cs (items, [])) as [items' rm]. cbn [fst] in *.
  rewrite Ht. unfold reached. lia.
Qed.

Lemma score_gain_is_coins_removed_witness :
  (total_score (fst (handle_collisions
                       [(2%nat, carol); (0%nat, alice); (1%nat, bob)]
                       [coin_under_alice; coin_at_threshold]))
   - total_score [(2%nat, carol); (0%nat, alice); (1%nat, bob)]
   = Z.of_nat 2
     - Z.of_nat (List.length
                   (snd (handle_collisions
                           [(2%nat, carol); (0%nat, alice); (1%nat, bob)]
                           [coin_under_alice; coin_at_threshold]))))%Z.
Proof.
  apply (score_gain_is_coins_removed
           [(2%nat, carol); (0%nat, alice); (1%nat, bob)]
           [coin_under_alice; coin_at_threshold]).
  repeat constructor; cbn; intuition discriminate.
Defined.

(** *** The tick as two steps: spawn, then move and collide *)

(** The world after the spawn block of a tick. *)
Definition after_spawn (now : R) (rx ry : Z) (w : world)
  (last_spawn_time : R) : world :=
  if (List.length (coins w) <? MAX_COINS)%nat
  then if Rgt_dec (now - last_spawn_time) 2 then spawn_coin rx ry w else w
  else w.

(** The world after movement and collisions. *)
Definition after_physics (w : world) : world :=
  World (fst (handle_collisions (move_players (players w)) (coins w)))
        (snd (handle_collisions (move_players (players w)) (coins w)))
        (next_player_id w) (next_coin_id w).

Lemma tick_world_steps (now : R) (rx ry : Z) (w : world) (t : R) :
  tick_world now rx ry w t = after_physics (after_spawn now rx ry w t).
Proof.
  unfold tick_world, tick, after_spawn, after_physics.
  destruct (List.length (coins w) <? MAX_COINS)%nat;
    [destruct (Rgt_dec (now - t) 2)|];
    match goal with
    | |- context [handle_collisions ?m ?c] =>
        destruct (handle_collisions m c) as [scored coins']
    end; reflexivity.
Qed.

Lemma left_coins_sublist (items : list (conn * player)) (cs : list coin) :
  exists f, snd (handle_collisions items cs) = filter f cs.
Proof.
  unfold handle_collisions. destruct (sweep cs (items, [])) as [items' rm].
  cbn [snd]. rewrite remove_collected_filter. eexists. reflexivity.
Qed.

Lemma NoDup_map_filter {A B : Type} (g : A -> B) (f : A -> bool)
  (l : list A) :
  NoDup (map g l) -> NoDup (map g (filter f l)).
Proof.
  induction l as [|a l IH]; cbn [map filter]; intros H; [constructor|].
  inversion H as [|? ? Hnotin Hnd]; subst.
  destruct (f a); [|apply IH; exact Hnd].
  cbn [map]. constructor; [|apply IH; exact Hnd].
  intros Hin. apply Hnotin. apply in_map_iff in Hin.
  destruct Hin as [b [Hb Hin]]. apply filter_In in Hin.
  rewrite <- Hb. apply in_map. tauto.
Qed.

Lemma spawn_keeps_coins_fresh (x y : Z) (w : world) :
  coins_fresh w -> coins_fresh (spawn_coin x y w).
Proof.
  intros [Hnd Hlt]. unfold coins_fresh, spawn_coin. cbn [coins next_coin_id].
  split.
  - rewrite map_app. apply NoDup_app; [exact Hnd|repeat constructor; intros []|].
    intros i Hi [<-|[]]. apply in_map_iff in Hi.
    destruct Hi as [c [Hc Hin]]. cbn [c_id] in Hc.
    specialize (Hlt c Hin). lia.
  - intros c Hc. apply in_app_or in Hc. destruct Hc as [Hc|[<-|[]]].
    + specialize (Hlt c Hc). lia.
    + cbn [c_id]. lia.
Qed.

(** Coin ids stay distinct and below [next_coin_id] through every tick,
    whether or not the tick spawns a coin; and the counter never goes
    back. *)
Theorem tick_keeps_coin_ids_fresh (now : R) (rx ry : Z) (w : world) (t : R) :
  NoDup (map c_id (coins w)) ->
  (forall c, In c (coins w) -> (c_id c < next_coin_id w)%Z) ->
  NoDup (map c_id (coins (tick_world now rx ry w t)))
  /\ (forall c, In c (coins (tick_world now rx ry w t)) ->
                (c_id c < next_coin_id (tick_world now rx ry w t))%Z)
  /\ (next_coin_id w <= next_coin_id (tick_world now rx ry w t))%Z.
Proof.
  intros Hnd Hlt. rewrite tick_world_steps.
  assert (Hs : coins_fresh (after_spawn now rx ry w t)
               /\ (next_coin_id w
                   <= next_coin_id (after_spawn now rx ry w t))%Z).
  { unfold after_spawn.
    destruct (List.length (coins w) <? MAX_COINS)%nat;
      [destruct (Rgt_dec (now - t) 2)|].
    - split; [apply spawn_keeps_coins_fresh; split; assumption|].
      cbn [spawn_coin next_coin_id]. lia.
    - split; [split; assumption|lia].
    - split; [split; assumption|lia]. }
  destruct Hs as [[Hnd1 Hlt1] Hle].
  set (w1 := after_spawn now rx ry w t) in *.
  unfold after_physics. cbn [coins next_coin_id].
  destruct (left_coins_sublist (move_players (players w1)) (coins w1))
    as [f ->].
  repeat split.
  - apply NoDup_map_filter. exact Hnd1.
  - intros c Hc. apply filter_In in Hc. apply Hlt1. tauto.
  - exact Hle.
Qed.

(** A world with two coins and one player standing on the first. *)
Definition two_coin_world : world :=
  World [(0%nat, alice)] [coin_under_alice; coin_at_threshold] 2 4.

Lemma tick_keeps_coin_ids_fresh_witness :
  NoDup (map c_id (coins (tick_world 10 60 70 two_coin_world 0)))
  /\ (forall c, In c (coins (tick_world 10 60 70 two_coin_world 0)) ->
                (c_id c < next_coin_id (tick_world 10 60 70 two_coin_world 0))%Z)
  /\ (4 <= next_coin_id (tick_world 10 60 70 two_coin_world 0))%Z.
Proof.
  apply (tick_keeps_coin_ids_fresh 10 60 70 two_coin_world 0).
  - repeat constructor; cbn; intuition discriminate.
  - intros c [<-|[<-|[]]]; cbn; lia.
Defined.

(** The coin count never exceeds MAX_COINS once it is within it, and a
    tick adds at most one coin. *)
Theorem tick_keeps_coin_capacity (now : R) (rx ry : Z) (w : world) (t : R) :
  (List.length (coins w) <= MAX_COINS)%nat ->
  (List.length (coins (tick_world now rx ry w t)) <= MAX_COINS)%nat
  /\ (List.length (coins (tick_world now rx ry w t))
      <= List.length (coins w) + 1)%nat.
Proof.
  intros Hcap. rewrite tick_world_steps.
  assert (Hs : (List.length (coins (after_spawn now rx ry w t)) <= MAX_COINS
                /\ List.length (coins (after_spawn now rx ry w t))
                   <= List.length (coins w) + 1)%nat).
  { unfold after_spawn.
    destruct (List.length (coins w) <? MAX_COINS)%nat eqn:E;
      [destruct (Rgt_dec (now - t) 2)|]; try lia.
    apply Nat.ltb_lt in E. cbn [spawn_coin coins].
    rewrite length_app. cbn [List.length]. lia. }
  set (w1 := after_spawn now rx ry w t) in *.
  unfold after_physics. cbn [coins].
  destruct (left_coins_sublist (move_players (players w1)) (coins w1))
    as [f ->].
  pose proof (filter_split_length f (coins w1)). lia.
Qed.

Lemma tick_keeps_coin_capacity_witness :
  (List.length (coins (tick_world 10 60 70 two_coin_world 0)) <= MAX_COINS)%nat
  /\ (List.length (coins (tick_world 10 60 70 two_coin_world 0)) <= 2 + 1)%nat.
Proof.
  apply (tick_keeps_coin_capacity 10 60 70 two_coin_world 0).
  unfold MAX_COINS. cbn. lia.
Defined.

(** *** What a tick does to each player *)

(** Two snapshot entries that differ at most by a score that grew. *)
Definition same_but_score (a b : conn * player) : Prop :=
  fst b = fst a /\ p_id (snd b) = p_id (snd a) /\
  p_x (snd b) = p_x (snd a) /\ p_y (snd b) = p_y (snd a) /\
  p_input (snd b) = p_input (snd a) /\
  (p_score (snd a) <= p_score (snd b))%Z.

Lemma same_but_score_refl (a : conn * player) : same_but_score a a.
Proof. unfold same_but_score. repeat split; lia. Qed.

Lemma Forall2_same_refl (l : list (conn * player)) :
  Forall2 same_but_score l l.
Proof.
  induction l as [|a l IH]; constructor;
    [apply same_but_score_refl|exact IH].
Qed.

Lemma Forall2_same_trans (l1 l2 l3 : list (conn * player)) :
  Forall2 same_but_score l1 l2 -> Forall2 same_but_score l2 l3 ->
  Forall2 same_but_score l1 l3.
Proof.
  intros H12. revert l3. induction H12 as [|a b l1 l2 Hab _ IH];
    intros l3 H23; inversion H23 as [|? c ? l3' Hbc H23']; subst;
    constructor.
  - unfold same_but_score in *.
    destruct Hab as (? & ? & ? & ? & ? & ?).
    destruct Hbc as (? & ? & ? & ? & ? & ?).
    repeat split; try congruence; lia.
  - apply IH. exact H23'.
Qed.

Lemma collect_same (c : coin) (items : list (conn * player)) :
  Forall2 same_but_score items (fst (collect c items)).
Proof.
  destruct (collect_cases c items)
    as [[-> _]|(pre & k & p & post & -> & _ & _ & ->)]; cbn [fst].
  - apply Forall2_same_refl.
  - apply Forall2_app; [apply Forall2_same_refl|].
    constructor; [|apply Forall2_same_refl].
    unfold same_but_score, add_score. cbn. repeat split; lia.
Qed.

Lemma sweep_same (cs : list coin) :
  forall (items : list (conn * player)) (rm : list Z),
    Forall2 same_but_score items (fst (sweep cs (items, rm))).
Proof.
  induction cs as [|c cs IH]; intros items rm; cbn [sweep fold_left].
  - apply Forall2_same_refl.
  - fold (sweep cs (sweep_coin c (items, rm))).
    pose proof (collect_same c items) as Hc.
    unfold sweep_coin. destruct (collect c items) as [items1 hit].
    cbn [fst] in Hc.
    apply (Forall2_same_trans items items1); [exact Hc|apply IH].
Qed.

(** How a tick relates each entry of [players] to the entry it leaves. *)
Definition ticked (a b : conn * player) : Prop :=
  fst b = fst a /\ p_id (snd b) = p_id (snd a) /\
  p_input (snd b) = p_input (snd a) /\
  p_x (snd b) = p_x (update_position (snd a)) /\
  p_y (snd b) = p_y (update_position (snd a)) /\
  (p_score (snd a) <= p_score (snd b))%Z.

Lemma update_position_keeps (p : player) :
  p_id (update_position p) = p_id p /\
  p_input (update_position p) = p_input p /\
  p_score (update_position p) = p_score p.
Proof.
  unfold update_position. destruct (integrate p) as [x y].
  repeat split.
Qed.

Lemma tick_players_ticked (now : R) (rx ry : Z) (w : world) (t : R) :
  Forall2 ticked (players w) (players (tick_world now rx ry w t)).
Proof.
  destruct (tick_world_players now rx ry w t) as [cs ->].
  pose proof (sweep_same cs (move_players (players w)) []) as H.
  remember (fst (sweep cs (move_players (players w), []))) as after eqn:E.
  clear E. revert after H.
  induction (players w) as [|a l IH]; intros after H;
    cbn [move_players map] in H; inversion H as [|? b ? after' Hab Hrest];
    subst; constructor.
  - destruct (update_position_keeps (snd a)) as (Hid & Hin & Hsc).
    unfold same_but_score in Hab. cbn [fst snd] in Hab.
    destruct Hab as (? & ? & ? & ? & ? & ?).
    unfold ticked. repeat split; first [congruence | lia].
  - apply IH. exact Hrest.
Qed.

(** A tick keeps every player's connection, id and input flags and the
    order of the players, puts each at the position the movement step
    computes for it, and lowers no score. *)
Theorem tick_moves_and_keeps_players
  (now : R) (rx ry : Z) (w : world) (t : R) :
  Forall2
    (fun a b =>
       fst b = fst a /\ p_id (snd b) = p_id (snd a) /\
       p_input (snd b) = p_input (snd a) /\
       p_x (snd b) = p_x (update_position (snd a)) /\
       p_y (snd b) = p_y (update_position (snd a)) /\
       (p_score (snd a) <= p_score (snd b))%Z)
    (players w) (players (tick_world now rx ry w t)).
Proof. exact (tick_players_ticked now rx ry w t). Qed.

(** *** Movement without net input, at full speed, and over many ticks *)


Lemma set_pos_same (p : player) : set_pos p (p_x p) (p_y p) = p.
Proof. destruct p. reflexivity. Qed.

Lemma still_direction (k : keys) :
  k_up k = k_down k -> k_left k = k_right k ->
  normalise (direction k) = direction k /\
  fst (direction k) = 0 /\ snd (direction k) = 0.
Proof.
  intros Hv Hh.
  assert (Hd : fst (direction k) = 0 /\ snd (direction k) = 0).
  { destruct k as [[|] [|] [|] [|]]; cbn in *; try discriminate;
      split; ring. }
  split; [|exact Hd]. destruct Hd as [Hx Hy].
  destruct (direction k) as [dx dy]. cbn [fst snd] in *. subst.
  unfold normalise, Py.hypot.
  replace (0 * 0 + 0 * 0) with 0 by ring. rewrite sqrt_0.
  destruct (Rgt_dec 0 0); [lra|reflexivity].
Qed.

(** With no flag set, or with opposing flags set together, a player inside
    the bounds is left exactly where it was. *)
Theorem no_net_input_no_motion (p : player) :
  k_up (p_input p) = k_down (p_input p) ->
  k_left (p_input p) = k_right (p_input p) ->
  PLAYER_RADIUS <= p_x p <= MAP_WIDTH - PLAYER_RADIUS ->
  PLAYER_RADIUS <= p_y p <= MAP_HEIGHT - PLAYER_RADIUS ->
  update_position p = p.
Proof.
  intros Hv Hh Hx Hy.
  destruct (still_direction (p_input p) Hv Hh) as (Hn & Hdx & Hdy).
  unfold update_position, integrate. rewrite Hn.
  destruct (direction (p_input p)) as [dx dy]. cbn [fst snd] in *. subst.
  replace (p_x p + 0 * PLAYER_SPEED * DT) with (p_x p) by ring.
  replace (p_y p + 0 * PLAYER_SPEED * DT) with (p_y p) by ring.
  rewrite !PyFacts.clamp_id by assumption. apply set_pos_same.
Qed.

(** A player in the middle of the map pressing left and right together. *)
Definition frank : player := Player 5 400 300 0 (Keys false false true true).

Lemma no_net_input_no_motion_witness : update_position frank = frank.
Proof.
  apply (no_net_input_no_motion frank); try reflexivity;
    unfold PLAYER_RADIUS, MAP_WIDTH, MAP_HEIGHT, frank; cbn [p_x p_y]; lra.
Defined.















End WorldFacts.

(** ** More on [handle_client]: the registry and what one connection can do *)

Module SessionFacts.

Import Json Server.
Local Open Scope string_scope.
Local Open Scope list_scope.

(** The double quote, and the texts of two protocol messages as
    [json.dumps] writes them. *)
Definition quote : string := String "034"%char EmptyString.

Definition join_text : string :=
  ("{" ++ quote ++ "type" ++ quote ++ ": " ++ quote ++ "join" ++ quote
   ++ "}")%string.

Definition join_msg : json := JObj [("type", JStr "join")].

Definition ping_text : string :=
  ("{" ++ quote ++ "type" ++ quote ++ ": " ++ quote ++ "ping" ++ quote
   ++ "}")%string.

Definition ping_msg : json := JObj [("type", JStr "ping")].

(** An input message whose keys field is a number. *)
Definition bad_input_text : string :=
  ("{" ++ quote ++ "type" ++ quote ++ ": " ++ quote ++ "input" ++ quote
   ++ ", " ++ quote ++ "keys" ++ quote ++ ": 5}")%string.

Definition bad_input_msg : json :=
  JObj [("type", JStr "input"); ("keys", JInt 5)].

(** [json.loads] on these three texts and on the JSON literal [true]. *)
Definition sample_loads (text : string) : option json :=
  if String.eqb text join_text then Some join_msg
  else if String.eqb text ping_text then Some ping_msg
  else if String.eqb text bad_input_text then Some bad_input_msg
  else if String.eqb text "true" then Some (JBool true)
  else None.

(** A line as the file object yields it. *)
Definition line_of (text : string) : string :=
  (text ++ String Text.newline EmptyString)%string.

(** A registry with one player, on connection 5, and the session of that
    connection after its join. *)
Definition one_player_world : world :=
  World [(5%nat, Player 7 300 200 0 (Keys false false false false))] [] 8 1.

Definition joined_session : session :=
  Session one_player_world (Some 7%Z) [].

(** The registry is well formed: connections are distinct keys, player ids
    are distinct and below the counter. *)
Definition registry_ok (w : world) : Prop :=
  NoDup (map fst (players w)) /\
  NoDup (map (fun cp => p_id (snd cp)) (players w)) /\
  forall cp, In cp (players w) -> (p_id (snd cp) < next_player_id w)%Z.

Lemma dict_get_set_other (c c' : conn) (p : player)
  (m : list (conn * player)) :
  c' <> c -> dict_get c' (dict_set c p m) = dict_get c' m.
Proof.
  intros Hne. induction m as [|[k q] m IH]; cbn [dict_set dict_get].
  - destruct (Nat.eqb_spec c' c); [contradiction|reflexivity].
  - destruct (Nat.eqb_spec c k) as [->|Hck]; cbn [dict_get].
    + destruct (Nat.eqb_spec c' k); [contradiction|reflexivity].
    + destruct (c' =? k)%nat; [reflexivity|exact IH].
Qed.

Lemma dict_get_del_same (c : conn) (m : list (conn * player)) :
  dict_get c (dict_del c m) = None.
Proof.
  unfold dict_del. induction m as [|[k q] m IH]; cbn [filter fst];
    [reflexivity|].
  destruct (Nat.eqb_spec k c) as [->|Hne]; cbn [negb]; [exact IH|].
  cbn [dict_get]. destruct (Nat.eqb_spec c k); [congruence|exact IH].
Qed.

Lemma dict_get_del_other (c c' : conn) (m : list (conn * player)) :
  c' <> c -> dict_get c' (dict_del c m) = dict_get c' m.
Proof.
  intros Hne. unfold dict_del.
  induction m as [|[k q] m IH]; cbn [filter fst dict_get]; [reflexivity|].
  destruct (Nat.eqb_spec k c) as [->|Hkc]; cbn [negb].
  - destruct (Nat.eqb_spec c' c); [contradiction|exact IH].
  - cbn [dict_get]. destruct (c' =? k)%nat; [reflexivity|exact IH].
Qed.

(** What a connection's thread leaves alone: the players of the other
    connections, the coins and the coin counter. *)
Definition foreign_untouched (c : conn) (w w' : world) : Prop :=
  (forall c', c' <> c ->
              dict_get c' (players w') = dict_get c' (players w)) /\
  coins w' = coins w /\ next_coin_id w' = next_coin_id w.

Lemma foreign_untouched_refl (c : conn) (w : world) :
  foreign_untouched c w w.
Proof. unfold foreign_untouched. auto. Qed.

Lemma foreign_untouched_trans (c : conn) (w1 w2 w3 : world) :
  foreign_untouched c w1 w2 -> foreign_untouched c w2 w3 ->
  foreign_untouched c w1 w3.
Proof.
  intros (H1 & H2 & H3) (H4 & H5 & H6). repeat split; try congruence.
  intros c' Hne. rewrite (H4 c' Hne). apply H1. exact Hne.
Qed.

Section AnyParser.

Variable json_loads : string -> option json.

Lemma handle_message_foreign (c : conn) (start : Z * Z) (msg : json)
  (s s' : session) :
  handle_message c start msg s = Some s' ->
  foreign_untouched c (s_world s) (s_world s').
Proof.
  unfold handle_message. destruct (get msg "type" JNull) as [mtype|];
    [|discriminate].
  destruct (eq_str mtype "join").
  - intros H. injection H as <-. unfold join, foreign_untouched.
    cbn [s_world players coins next_coin_id].
    repeat split. intros c' Hne. apply dict_get_set_other. exact Hne.
  - destruct (eq_str mtype "input" && _).
    + unfold input. destruct (get msg "keys" (JObj [])) as [ks|];
        [|discriminate].
      destruct (dict_get c (players (s_world s))) as [p|].
      * destruct ks; try discriminate. intros H. injection H as <-.
        unfold foreign_untouched, set_players.
        cbn [s_world players coins next_coin_id].
        repeat split. intros c' Hne. apply dict_get_set_other. exact Hne.
      * intros H. injection H as <-. apply foreign_untouched_refl.
    + intros H. injection H as <-. apply foreign_untouched_refl.
Qed.

Lemma handle_line_foreign (c : conn) (start : Z * Z) (line : string)
  (s : session) :
  foreign_untouched c (s_world s)
                    (s_world (fst (handle_line json_loads c start line s))).
Proof.
  unfold handle_line. destruct (Text.is_empty (Text.strip line));
    [apply foreign_untouched_refl|].
  destruct (json_loads (Text.strip line)) as [msg|];
    [|apply foreign_untouched_refl].
  destruct (handle_message c start msg s) as [s'|] eqn:E;
    [|apply foreign_untouched_refl].
  cbn [fst]. apply (handle_message_foreign c start msg s s' E).
Qed.

Lemma serve_foreign (c : conn) (lines : list (string * (Z * Z))) :
  forall s,
    foreign_untouched c (s_world s)
                      (s_world (fst (serve json_loads c lines s))).
Proof.
  induction lines as [|[line start] lines IH]; intros s; cbn [serve].
  - apply foreign_untouched_refl.
  - pose proof (handle_line_foreign c start line s) as H.
    destruct (handle_line json_loads c start line s) as [s' [| |]];
      cbn [fst] in *; try exact H.
    apply (foreign_untouched_trans c _ (s_world s')); [exact H|apply IH].
Qed.

(** Whatever a connection sends, and however its loop ends (end of stream,
    blank line or exception), [handle_client] leaves the connection
    unregistered, and it has changed nothing of the other connections'
    players, of the coins or of the coin counter. *)
Theorem connection_changes_only_its_own_player
  (c : conn) (lines : list (string * (Z * Z))) (w : world) :
  let after := s_world (handle_client json_loads c lines w) in
  dict_get c (players after) = None
  /\ (forall c', c' <> c ->
                 dict_get c' (players after) = dict_get c' (players w))
  /\ coins after = coins w
  /\ next_coin_id after = next_coin_id w.
Proof.
  intros after. unfold after, handle_client, close.
  cbn [s_world set_players players coins next_coin_id].
  destruct (serve_foreign c lines (Session w None [])) as (H1 & H2 & H3).
  cbn [s_world] in *. repeat split.
  - apply dict_get_del_same.
  - intros c' Hne. rewrite (dict_get_del_other c c' _ Hne). apply H1. exact Hne.
  - exact H2.
  - exact H3.
Qed.

(** *** The registry stays well formed *)

Lemma dict_set_cases (c : conn) (p : player) (m : list (conn * player)) :
  (dict_get c m = None /\ ~ In c (map fst m) /\
   dict_set c p m = m ++ [(c, p)])
  \/
  (exists pre q post,
      m = pre ++ (c, q) :: post /\ dict_get c m = Some q /\
      dict_set c p m = pre ++ (c, p) :: post).
Proof.
  induction m as [|[k q] m IH]; cbn [dict_get dict_set map fst].
  - left. repeat split. intros [].
  - destruct (Nat.eqb_spec c k) as [->|Hne].
    + right. exists [], q, m. repeat split.
    + destruct IH as [(Hg & Hnotin & Hs)|(pre & q' & post & -> & Hg & Hs)].
      * left. repeat split; [exact Hg| |rewrite Hs; reflexivity].
        intros [Hk|Hin]; [congruence|contradiction].
      * right. exists ((k, q) :: pre), q', post.
        repeat split; [exact Hg|rewrite Hs; reflexivity].
Qed.

Lemma NoDup_insert {A : Type} (a : A) (l l' : list A) :
  NoDup (l ++ l') -> ~ In a (l ++ l') -> NoDup (l ++ a :: l').
Proof.
  induction l as [|b l IH]; cbn [app]; intros Hnd Hnotin.
  - constructor; assumption.
  - inversion Hnd as [|? ? Hb Hnd']; subst. constructor.
    + intros Hin. apply in_app_or in Hin. destruct Hin as [Hin|[Heq|Hin]].
      * apply Hb. apply in_or_app. left. exact Hin.
      * apply Hnotin. left. symmetry. exact Heq.
      * apply Hb. apply in_or_app. right. exact Hin.
    + apply IH; [exact Hnd'|]. intros Hin. apply Hnotin. right. exact Hin.
Qed.

Definition ids (m : list (conn * player)) : list Z :=
  map (fun cp => p_id (snd cp)) m.

Lemma ids_app (l l' : list (conn * player)) : ids (l ++ l') = ids l ++ ids l'.
Proof. apply map_app. Qed.

(** Storing under [c] a player whose id is new, or is the id [c] already
    has, keeps keys and ids distinct. *)
Lemma dict_set_registry (c : conn) (p : player) (m : list (conn * player)) :
  NoDup (map fst m) -> NoDup (ids m) ->
  (~ In (p_id p) (ids m)
   \/ exists q, dict_get c m = Some q /\ p_id q = p_id p) ->
  NoDup (map fst (dict_set c p m)) /\ NoDup (ids (dict_set c p m)) /\
  forall cp, In cp (dict_set c p m) -> cp = (c, p) \/ In cp m.
Proof.
  intros Hk Hi Hid.
  destruct (dict_set_cases c p m)
    as [(Hg & Hnotin & ->)|(pre & q & post & -> & Hg & ->)].
  - assert (Hnew : ~ In (p_id p) (ids m)).
    { destruct Hid as [H|[q [Hq _]]]; [exact H|congruence]. }
    repeat split.
    + rewrite map_app. apply NoDup_app; [exact Hk|repeat constructor; intros []|].
      intros k Hin [<-|[]]. contradiction.
    + rewrite ids_app. apply NoDup_app; [exact Hi|repeat constructor; intros []|].
      intros i Hin [<-|[]]. contradiction.
    + intros cp Hin. apply in_app_or in Hin.
      destruct Hin as [Hin|[<-|[]]]; [right; exact Hin|left; reflexivity].
  - repeat split.
    + rewrite map_app in *. exact Hk.
    + rewrite ids_app in *. cbn [ids map snd] in *.
      destruct (NoDup_remove _ _ _ Hi) as [Hrest Hq].
      destruct Hid as [Hnew|[q' [Hq' Heq]]].
      * apply NoDup_insert; [exact Hrest|].
        intros Hin. apply Hnew. apply in_app_or in Hin. apply in_or_app.
        destruct Hin as [Hin|Hin]; [left|right; right]; exact Hin.
      * assert (q' = q) by congruence. subst q'. rewrite <- Heq. exact Hi.
    + intros cp Hin. apply in_app_or in Hin.
      destruct Hin as [Hin|[<-|Hin]].
      * right. apply in_or_app. left. exact Hin.
      * left. reflexivity.
      * right. apply in_or_app. right. right. exact Hin.
Qed.

Lemma handle_message_registry (c : conn) (start : Z * Z) (msg : json)
  (s s' : session) :
  handle_message c start msg s = Some s' ->
  registry_ok (s_world s) ->
  registry_ok (s_world s') /\
  (next_player_id (s_world s) <= next_player_id (s_world s'))%Z.
Proof.
  unfold handle_message. destruct (get msg "type" JNull) as [mtype|];
    [|discriminate].
  intros H (Hk & Hi & Hlt).
  assert (Hsame : registry_ok (s_world s) /\
                  (next_player_id (s_world s) <= next_player_id (s_world s))%Z).
  { split; [repeat split; assumption|lia]. }
  destruct (eq_str mtype "join").
  - injection H as <-. unfold join, registry_ok.
    cbn [s_world players next_player_id].
    set (p := Player (next_player_id (s_world s)) _ _ 0 _).
    destruct (dict_set_registry c p (players (s_world s)) Hk Hi)
      as (Hk' & Hi' & Hin').
    { left. intros Hin. unfold ids in Hin. apply in_map_iff in Hin.
      destruct Hin as [cp [Hcp Hin]]. specialize (Hlt cp Hin).
      cbn [p p_id] in Hcp. lia. }
    repeat split; try assumption; [|lia].
    intros cp Hin. destruct (Hin' cp Hin) as [->|Hold].
    + cbn [snd p p_id]. lia.
    + specialize (Hlt cp Hold). lia.
  - destruct (eq_str mtype "input" && _); [|injection H as <-; exact Hsame].
    unfold input in H. destruct (get msg "keys" (JObj [])) as [ks|];
      [|discriminate].
    destruct (dict_get c (players (s_world s))) as [p|] eqn:Hg;
      [|injection H as <-; exact Hsame].
    destruct ks; try discriminate. injection H as <-.
    unfold registry_ok, set_players. cbn [s_world players next_player_id].
    match goal with
    | |- context [dict_set c ?q _] =>
        destruct (dict_set_registry c q (players (s_world s)) Hk Hi)
          as (Hk' & Hi' & Hin');
          [right; exists p; split; [exact Hg|reflexivity]|]
    end.
    repeat split; try eassumption; [|lia].
    intros cp Hin. destruct (Hin' cp Hin) as [->|Hold].
    + cbn [snd set_input p_id].
      assert (Hp : In (c, p) (players (s_world s))).
      { clear - Hg. induction (players (s_world s)) as [|[k q] m IH];
          cbn [dict_get] in Hg; [discriminate|].
        destruct (Nat.eqb_spec c k) as [->|];
          [injection Hg as ->; left; reflexivity|right; apply IH; exact Hg]. }
      exact (Hlt (c, p) Hp).
    + exact (Hlt cp Hold).
Qed.

Lemma serve_registry (c : conn) (lines : list (string * (Z * Z))) :
  forall s,
    registry_ok (s_world s) ->
    registry_ok (s_world (fst (serve json_loads c lines s))) /\
    (next_player_id (s_world s)
     <= next_player_id (s_world (fst (serve json_loads c lines s))))%Z.
Proof.
  induction lines as [|[line start] lines IH]; intros s Hok; cbn [serve].
  - cbn [fst]. split; [exact Hok|lia].
  - unfold handle_line.
    destruct (Text.is_empty (Text.strip line));
      [cbn [fst]; split; [exact Hok|lia]|].
    destruct (json_loads (Text.strip line)) as [msg|]; [|apply IH; exact Hok].
    destruct (handle_message c start msg s) as [s'|] eqn:E;
      [|cbn [fst]; split; [exact Hok|lia]].
    destruct (handle_message_registry c start msg s s' E Hok) as [Hok' Hle].
    destruct (IH s' Hok') as [Hok'' Hle']. split; [exact Hok''|lia].
Qed.

Lemma close_registry (c : conn) (s : session) :
  registry_ok (s_world s) -> registry_ok (s_world (close c s)).
Proof.
  intros (Hk & Hi & Hlt). unfold close, registry_ok, set_players, dict_del.
  cbn [s_world players next_player_id]. repeat split.
  - apply WorldFacts.NoDup_map_filter. exact Hk.
  - apply WorldFacts.NoDup_map_filter. exact Hi.
  - intros cp Hin. apply filter_In in Hin. apply Hlt. tauto.
Qed.

Lemma ticked_keys_ids (l l' : list (conn * player)) :
  Forall2 WorldFacts.ticked l l' ->
  map fst l' = map fst l /\ ids l' = ids l.
Proof.
  induction 1 as [|a b l l' Hab _ [IH1 IH2]]; [split; reflexivity|].
  unfold WorldFacts.ticked in Hab. destruct Hab as (Hc & Hid & _).
  cbn [map ids]. fold (ids l) (ids l'). rewrite Hc, Hid, IH1, IH2.
  split; reflexivity.
Qed.

Lemma tick_next_player_id (now : R) (rx ry : Z) (w : world) (t : R) :
  next_player_id (tick_world now rx ry w t) = next_player_id w.
Proof.
  rewrite WorldFacts.tick_world_steps.
  unfold WorldFacts.after_physics, WorldFacts.after_spawn.
  cbn [next_player_id].
  destruct (List.length (coins w) <? MAX_COINS)%nat;
    [destruct (Rgt_dec (now - t) 2)|]; reflexivity.
Qed.

(** Connections are distinct keys of the registry and player ids are
    distinct and below [next_player_id]: a connection's thread, whatever it
    receives, and a tick of the game loop both keep it so; and the thread
    never lowers the counter, so an id is never handed out twice. *)
Theorem registry_stays_well_formed
  (c : conn) (lines : list (string * (Z * Z))) (now : R) (rx ry : Z)
  (t : R) (w : world) :
  registry_ok w ->
  registry_ok (s_world (handle_client json_loads c lines w))
  /\ (next_player_id w
      <= next_player_id (s_world (handle_client json_loads c lines w)))%Z
  /\ registry_ok (tick_world now rx ry w t).
Proof.
  intros Hok. split; [|split].
  - unfold handle_client. apply close_registry.
    apply (serve_registry c lines (Session w None [])). exact Hok.
  - unfold handle_client, close. cbn [s_world set_players next_player_id].
    apply (serve_registry c lines (Session w None [])). exact Hok.
  - destruct Hok as (Hk & Hi & Hlt).
    destruct (ticked_keys_ids _ _ (WorldFacts.tick_players_ticked now rx ry w t))
      as [Hkeys Hids].
    unfold registry_ok. rewrite tick_next_player_id. fold (ids (players w)) in Hi.
    fold (ids (players (tick_world now rx ry w t))).
    rewrite Hkeys, Hids. repeat split; try assumption.
    intros cp Hin.
    assert (Hid : In (p_id (snd cp)) (ids (players w))).
    { rewrite <- Hids. unfold ids. apply in_map_iff. exists cp. tauto. }
    unfold ids in Hid. apply in_map_iff in Hid.
    destruct Hid as [cp0 [Heq Hin0]]. rewrite <- Heq. apply Hlt. exact Hin0.
Qed.

(** *** Streams that change nothing, and streams that end the loop *)

(** No line of the stream decodes to a message of type join. *)
Definition no_join (lines : list (string * (Z * Z))) : Prop :=
  forall line start msg mtype,
    In (line, start) lines ->
    json_loads (Text.strip line) = Some msg ->
    get msg "type" JNull = Some mtype ->
    eq_str mtype "join" = false.

Lemma handle_line_before_join (c : conn) (start : Z * Z) (line : string)
  (s : session) :
  s_player_id s = None ->
  (forall msg mtype,
      json_loads (Text.strip line) = Some msg ->
      get msg "type" JNull = Some mtype -> eq_str mtype "join" = false) ->
  fst (handle_line json_loads c start line s) = s.
Proof.
  intros Hid Hno. unfold handle_line.
  destruct (Text.is_empty (Text.strip line)); [reflexivity|].
  destruct (json_loads (Text.strip line)) as [msg|]; [|reflexivity].
  unfold handle_message.
  destruct (get msg "type" JNull) as [mtype|] eqn:Ht; [|reflexivity].
  rewrite (Hno msg mtype eq_refl Ht), Hid, andb_false_r. reflexivity.
Qed.

(** A connection that never sends a join has no effect: whatever else its
    stream holds (input messages included), the session is as it was when
    the loop is left, with no player registered and nothing sent. *)
Theorem no_join_no_effect
  (c : conn) (lines : list (string * (Z * Z))) (w : world) :
  no_join lines ->
  fst (serve json_loads c lines (Session w None [])) = Session w None [].
Proof.
  intros Hno. induction lines as [|[line start] lines IH]; cbn [serve].
  - reflexivity.
  - pose proof (handle_line_before_join c start line (Session w None [])
                  eq_refl) as H.
    destruct (handle_line json_loads c start line (Session w None []))
      as [s' ctl]. cbn [fst] in H. rewrite H.
    + destruct ctl; try reflexivity. apply IH.
      intros l st msg mtype Hin. apply (Hno l st msg mtype). right. exact Hin.
    + intros msg mtype. apply (Hno line start msg mtype). left. reflexivity.
Qed.

(** A line holding a JSON value that is not an object makes the loop end
    with an exception: the session is left as it was and the lines after it
    are not read. *)
Theorem non_object_line_ends_loop
  (c : conn) (start : Z * Z) (line : string) (msg : json)
  (rest : list (string * (Z * Z))) (s : session) :
  Text.is_empty (Text.strip line) = false ->
  json_loads (Text.strip line) = Some msg ->
  (forall fields, msg <> JObj fields) ->
  serve json_loads c ((line, start) :: rest) s = (s, Raise).
Proof.
  intros Hne Hmsg Hobj. cbn [serve]. unfold handle_line.
  rewrite Hne, Hmsg. unfold handle_message.
  destruct msg; try reflexivity. exfalso. apply (Hobj m). reflexivity.
Qed.

(** An input message whose keys field is not an object, from a connection
    that has joined, also ends the loop with an exception and leaves the
    player's flags as they were. *)
Theorem bad_keys_field_ends_loop
  (c : conn) (start : Z * Z) (line : string)
  (fields : list (string * json)) (v : json)
  (rest : list (string * (Z * Z))) (s : session) (pid : Z) (p : player) :
  Text.is_empty (Text.strip line) = false ->
  json_loads (Text.strip line) = Some (JObj fields) ->
  lookup "type" fields = Some (JStr "input") ->
  lookup "keys" fields = Some v ->
  (forall ks, v <> JObj ks) ->
  s_player_id s = Some pid ->
  dict_get c (players (s_world s)) = Some p ->
  serve json_loads c ((line, start) :: rest) s = (s, Raise).
Proof.
  intros Hne Hmsg Htype Hkeys Hobj Hpid Hp. cbn [serve]. unfold handle_line.
  rewrite Hne, Hmsg. unfold handle_message. cbn [get]. rewrite Htype, Hpid.
  cbn [eq_str String.eqb Ascii.eqb Bool.eqb andb].
  unfold input. cbn [get]. rewrite Hkeys, Hp.
  destruct v; try reflexivity. exfalso. apply (Hobj m). reflexivity.
Qed.

(** *** The thread's player id and the registry agree *)

(** When the thread holds a player id, the registry holds for its
    connection a player with that id. *)
Definition linked (c : conn) (s : session) : Prop :=
  forall pid, s_player_id s = Some pid ->
              exists p, dict_get c (players (s_world s)) = Some p /\
                        p_id p = pid.

Lemma handle_message_linked (c : conn) (start : Z * Z) (msg : json)
  (s s' : session) :
  handle_message c start msg s = Some s' -> linked c s -> linked c s'.
Proof.
  unfold handle_message. destruct (get msg "type" JNull) as [mtype|];
    [|discriminate].
  intros H Hl. destruct (eq_str mtype "join").
  - injection H as <-. unfold linked, join. cbn [s_player_id s_world players].
    intros pid Hpid. injection Hpid as <-. eexists. split.
    + apply Decoding.dict_get_set.
    + reflexivity.
  - destruct (eq_str mtype "input" && _); [|injection H as <-; exact Hl].
    unfold input in H. destruct (get msg "keys" (JObj [])) as [ks|];
      [|discriminate].
    destruct (dict_get c (players (s_world s))) as [p|] eqn:Hg;
      [|injection H as <-; exact Hl].
    destruct ks; try discriminate. injection H as <-.
    unfold linked, set_players. cbn [s_player_id s_world players].
    intros pid Hpid. destruct (Hl pid Hpid) as [p' [Hp' Hid]].
    assert (p' = p) by congruence. subst p'.
    eexists. split; [apply Decoding.dict_get_set|exact Hid].
Qed.

(** At every point of a connection's loop, the player id the thread holds
    is the id of the player the registry holds for the connection (as long
    as only this thread and the game loop touch that entry): a welcome
    always names the player that was registered. *)
Theorem player_id_matches_registry
  (c : conn) (lines : list (string * (Z * Z))) (w : world) (pid : Z) :
  s_player_id (fst (serve json_loads c lines (Session w None []))) = Some pid ->
  exists p,
    dict_get c (players (s_world (fst (serve json_loads c lines
                                             (Session w None [])))))
    = Some p
    /\ p_id p = pid.
Proof.
  assert (H : forall s, linked c s ->
                        linked c (fst (serve json_loads c lines s))).
  { induction lines as [|[line start] lines IH]; intros s Hl; cbn [serve].
    - exact Hl.
    - unfold handle_line.
      destruct (Text.is_empty (Text.strip line)); [exact Hl|].
      destruct (json_loads (Text.strip line)) as [msg|]; [|apply IH; exact Hl].
      destruct (handle_message c start msg s) as [s'|] eqn:E; [|exact Hl].
      apply IH. apply (handle_message_linked c start msg s s' E Hl). }
  intros Hpid. apply (H (Session w None [])); [|exact Hpid].
  intros pid' Hnone. discriminate.
Qed.

End AnyParser.

Lemma no_join_no_effect_witness :
  fst (serve sample_loads 6%nat
             [(line_of ping_text, (100, 100)%Z); (line_of "oops", (1, 1)%Z)]
             (Session one_player_world None []))
  = Session one_player_world None [].
Proof.
  apply (no_join_no_effect sample_loads 6%nat
           [(line_of ping_text, (100, 100)%Z); (line_of "oops", (1, 1)%Z)]
           one_player_world).
  intros line start msg mtype [H|[H|[]]] Hmsg Htype;
    injection H as <- <-; vm_compute in Hmsg;
    [injection Hmsg as <-; vm_compute in Htype; injection Htype as <-;
     reflexivity
    |discriminate].
Defined.


Lemma non_object_line_ends_loop_witness :
  serve sample_loads 5%nat
        [(line_of "true", (0, 0)%Z); (line_of join_text, (100, 100)%Z)]
        joined_session
  = (joined_session, Raise).
Proof.
  apply (non_object_line_ends_loop sample_loads 5%nat (0, 0)%Z
           (line_of "true") (JBool true)
           [(line_of join_text, (100, 100)%Z)] joined_session);
    try reflexivity.
  intros fields. discriminate.
Defined.

Lemma bad_keys_field_ends_loop_witness :
  serve sample_loads 5%nat
        [(line_of bad_input_text, (0, 0)%Z); (line_of ping_text, (0, 0)%Z)]
        joined_session
  = (joined_session, Raise).
Proof.
  apply (bad_keys_field_ends_loop sample_loads 5%nat (0, 0)%Z
           (line_of bad_input_text)
           [("type", JStr "input"); ("keys", JInt 5)] (JInt 5)
           [(line_of ping_text, (0, 0)%Z)] joined_session 7%Z
           (Player 7 300 200 0 (Keys false false false false)));
    try reflexivity.
  intros ks. discriminate.
Defined.

Lemma player_id_matches_registry_witness :
  exists p,
    dict_get 6%nat
      (players (s_world (fst (serve sample_loads 6%nat
                                    [(line_of join_text, (100, 100)%Z)]
                                    (Session one_player_world None [])))))
    = Some p
    /\ p_id p = 8%Z.
Proof.
  apply (player_id_matches_registry sample_loads 6%nat
           [(line_of join_text, (100, 100)%Z)] one_player_world 8%Z).
  reflexivity.
Defined.

Lemma registry_stays_well_formed_witness :
  registry_ok
    (s_world (handle_client sample_loads 6%nat
                [(line_of join_text, (100, 100)%Z)] one_player_world))
  /\ (8 <= next_player_id
             (s_world (handle_client sample_loads 6%nat
                         [(line_of join_text, (100, 100)%Z)]
                         one_player_world)))%Z
  /\ registry_ok (tick_world 0 0 0 one_player_world 0).
Proof.
  apply (registry_stays_well_formed sample_loads 6%nat
           [(line_of join_text, (100, 100)%Z)] 0%R 0%Z 0%Z 0%R
           one_player_world).
  unfold registry_ok, one_player_world. cbn [players map fst snd p_id
                                              next_player_id].
  split; [|split].
  - repeat constructor. intros [].
  - repeat constructor. intros [].
  - intros cp [<-|[]]. cbn. lia.
Defined.

End SessionFacts.

(** ** More on the client's decoder *)

Module StreamFacts.

Import Json Client Framing.
Local Open Scope string_scope.

(** The text a call of [recv_messages] adds to the buffer. *)
Definition arrived (r : recv_result) : string :=
  match r with
  | Received text => text
  | _ => EmptyString
  end.

(** The text written for a sequence of messages. *)
Definition encode_all (json_dumps : json -> string) (msgs : list json)
  : string :=
  Text.concat (map (Server.send_message json_dumps) msgs).

Lemma split_newline_eq (s line rest : string) :
  Text.split_newline s = Some (line, rest) ->
  s = line ++ String Text.newline rest.
Proof.
  revert line. induction s as [|c s IH]; intros line H; cbn in H.
  - discriminate.
  - destruct (Ascii.eqb_spec c Text.newline) as [->|_].
    + injection H as <- <-. reflexivity.
    + destruct (Text.split_newline s) as [[l r]|]; [|discriminate].
      injection H as <- <-. cbn. f_equal. apply IH. reflexivity.
Qed.

Section AnyParser.

Variable json_loads : string -> option json.

(** What the loop takes off the buffer is empty or ends with a newline,
    and what it leaves is the rest of the text. *)
Lemma drain_consumed (buffer : string) :
  forall messages,
  exists consumed,
    buffer = consumed ++ fst (drain json_loads buffer messages) /\
    (consumed = EmptyString \/
     exists pre, consumed = pre ++ String Text.newline EmptyString).
Proof.
  induction buffer as [b E|b line rest E IH] using (buffer_ind);
    intros messages; rewrite (drain_unfold json_loads b), E.
  - exists EmptyString. split; [reflexivity|left; reflexivity].
  - destruct (IH (messages ++ decode_line json_loads line)%list)
      as [consumed [Hrest Hend]].
    exists (line ++ String Text.newline consumed). split.
    + rewrite append_assoc. cbn [append]. rewrite <- Hrest.
      apply split_newline_eq. exact E.
    + right. destruct Hend as [->|[pre ->]].
      * exists line. reflexivity.
      * exists (line ++ String Text.newline pre).
        rewrite append_assoc. reflexivity.
Qed.

(** A call of [recv_messages] loses and invents no text: the buffer it
    returns is what follows the last newline of the old buffer plus the
    text received, so it never holds a complete line. *)
Theorem buffer_is_text_after_last_newline
  (r : recv_result) (buffer buffer' : string) (msgs : list json) :
  Text.has_newline buffer = false ->
  recv_messages json_loads r buffer = Some (buffer', msgs) ->
  Text.has_newline buffer' = false
  /\ exists consumed,
       buffer ++ arrived r = consumed ++ buffer' /\
       (consumed = EmptyString \/
        exists pre, consumed = pre ++ String Text.newline EmptyString).
Proof.
  intros Hb Hr.
  assert (Hsame : buffer' = buffer ->
                  arrived r = EmptyString ->
                  Text.has_newline buffer' = false
                  /\ exists consumed,
                       buffer ++ arrived r = consumed ++ buffer' /\
                       (consumed = EmptyString \/
                        exists pre,
                          consumed = pre ++ String Text.newline EmptyString)).
  { intros -> ->. split; [exact Hb|]. exists EmptyString.
    rewrite append_nil_r. split; [reflexivity|left; reflexivity]. }
  destruct r as [data| | | |]; cbn [recv_messages arrived] in *;
    try discriminate;
    try (injection Hr as <- <-; apply Hsame; reflexivity).
  destruct (Text.is_empty data) eqn:Hd.
  - destruct data; [|discriminate]. injection Hr as <- <-.
    apply Hsame; reflexivity.
  - injection Hr as Hr.
    pose proof (drain_rest json_loads (buffer ++ data) []) as Hn.
    destruct (drain_consumed (buffer ++ data) []) as [consumed [Hc Hend]].
    rewrite Hr in Hn, Hc. cbn [fst] in *. split; [exact Hn|].
    exists consumed. split; assumption.
Qed.

(** Two ways of cutting the same text into chunks decode to the same
    messages and leave the same buffer. *)
Theorem chunking_does_not_matter
  (chunks chunks' : list string) (buffer : string) :
  Text.has_newline buffer = false ->
  Text.concat chunks = Text.concat chunks' ->
  feed json_loads chunks buffer = feed json_loads chunks' buffer.
Proof.
  intros Hb Heq.
  rewrite (feed_concat json_loads chunks buffer Hb).
  rewrite (feed_concat json_loads chunks' buffer Hb).
  rewrite Heq. reflexivity.
Qed.

End AnyParser.

Lemma buffer_is_text_after_last_newline_witness :
  Text.has_newline "fal" = false
  /\ exists consumed,
       "tr" ++ arrived (Received ("ue" ++ String Text.newline "fal"))
       = consumed ++ "fal" /\
       (consumed = EmptyString \/
        exists pre, consumed = pre ++ String Text.newline EmptyString).
Proof.
  apply (buffer_is_text_after_last_newline literal_loads
           (Received ("ue" ++ String Text.newline "fal")) "tr" "fal"
           [JBool true]); reflexivity.
Defined.

Lemma chunking_does_not_matter_witness :
  feed literal_loads ["t"; "rue" ++ String Text.newline "nu"; "ll"] "  "
  = feed literal_loads ["true" ++ String Text.newline "null"] "  ".
Proof.
  apply (chunking_does_not_matter literal_loads
           ["t"; "rue" ++ String Text.newline "nu"; "ll"]
           ["true" ++ String Text.newline "null"] "  "); reflexivity.
Defined.

(** A stream of several messages, cut anywhere, is decoded to exactly those
    messages in order, each once; trailing text without a newline stays in
    the buffer.  The hypotheses on [json.loads] and [json.dumps] are those
    of the single-message round trip, for each message. *)
Theorem stream_round_trip
  (json_loads : string -> option json) (json_dumps : json -> string)
  (msgs : list json) (chunks : list string) (rest : string) :
  (forall msg, In msg msgs ->
               json_loads (json_dumps msg) = Some msg /\
               Text.has_newline (json_dumps msg) = false /\
               Text.strip (json_dumps msg) = json_dumps msg /\
               json_dumps msg <> EmptyString) ->
  Text.has_newline rest = false ->
  Text.concat chunks = encode_all json_dumps msgs ++ rest ->
  feed json_loads chunks EmptyString = Some (rest, msgs).
Proof.
  intros Hmsgs Hrest Hcut.
  rewrite (feed_concat json_loads chunks EmptyString eq_refl).
  cbn [append]. rewrite Hcut. clear Hcut chunks.
  assert (H : forall acc,
             drain json_loads (encode_all json_dumps msgs ++ rest) acc
             = (rest, (acc ++ msgs)%list)).
  { induction msgs as [|msg msgs IH]; intros acc.
    - cbn. rewrite app_nil_r. apply drain_no_newline. exact Hrest.
    - destruct (Hmsgs msg (or_introl eq_refl)) as (Hrt & Hline & Hstrip & Hne).
      unfold encode_all. cbn [map Text.concat fold_right].
      fold (encode_all json_dumps msgs).
      unfold Server.send_message. rewrite !append_assoc. cbn [append].
      rewrite drain_unfold, (split_newline_at _ _ Hline).
      unfold decode_line. rewrite Hstrip, Hrt.
      destruct (json_dumps msg) as [|c t] eqn:E; [congruence|].
      cbn [Text.is_empty]. rewrite IH.
      + rewrite <- app_assoc. reflexivity.
      + intros m Hm. apply Hmsgs. right. exact Hm. }
  rewrite H. reflexivity.
Qed.

Lemma stream_round_trip_witness :
  feed literal_loads
       ["tru"; "e" ++ String Text.newline ("null" ++ String Text.newline "fa")]
       EmptyString
  = Some ("fa", [JBool true; JNull]).
Proof.
  apply (stream_round_trip literal_loads literal_dumps [JBool true; JNull]
           ["tru"; "e" ++ String Text.newline
                     ("null" ++ String Text.newline "fa")] "fa");
    try reflexivity.
  intros msg [<-|[<-|[]]]; repeat split; discriminate.
Defined.

End StreamFacts.

(** ** The two programs together *)

Module EndToEnd.

Import Json.
Local Open Scope string_scope.
Local Open Scope list_scope.

(** *** White space around a written message *)

Lemma rstrip_app_space (s : string) (c : ascii) :
  Text.is_space c = true ->
  Text.rstrip (s ++ String c EmptyString)%string = Text.rstrip s.
Proof.
  intros Hc. induction s as [|a s IH]; cbn [append Text.rstrip].
  - rewrite Hc. reflexivity.
  - rewrite IH. reflexivity.
Qed.

Lemma rstrip_length (s : string) :
  (String.length (Text.rstrip s) <= String.length s)%nat.
Proof.
  induction s as [|a s IH]; cbn [Text.rstrip String.length]; [lia|].
  destruct (Text.rstrip s) as [|b t]; cbn [String.length] in *.
  - destruct (Text.is_space a); cbn [String.length]; lia.
  - lia.
Qed.

Lemma lstrip_length (s : string) :
  (String.length (Text.lstrip s) <= String.length s)%nat.
Proof.
  induction s as [|a s IH]; cbn [Text.lstrip String.length]; [lia|].
  destruct (Text.is_space a); cbn [String.length]; lia.
Qed.

(** A text that [strip] leaves alone, followed by a newline, strips back
    to itself: the server's [line.strip()] undoes the client's newline. *)
Lemma strip_line (text : string) :
  Text.strip text = text -> text <> EmptyString ->
  Text.strip (text ++ String Text.newline EmptyString)%string = text.
Proof.
  intros Hs Hne. destruct text as [|a t]; [congruence|].
  destruct (Text.is_space a) eqn:Ha.
  - exfalso. unfold Text.strip in Hs. cbn [Text.lstrip] in Hs. rewrite Ha in Hs.
    pose proof (rstrip_length (Text.lstrip t)) as H1.
    pose proof (lstrip_length t) as H2.
    rewrite Hs in H1. cbn [String.length] in H1. lia.
  - unfold Text.strip in *. cbn [append Text.lstrip] in *. rewrite Ha in *.
    change (String a (t ++ String Text.newline EmptyString)%string)
      with (String a t ++ String Text.newline EmptyString)%string.
    rewrite rstrip_app_space by reflexivity. exact Hs.
Qed.

(** *** From the client's keyboard to the server's player *)

Lemma flags_of_input_keys (k : Server.keys) :
  match ClientInput.input_keys k with
  | JObj ks =>
      Server.Keys (Server.flag ks "up") (Server.flag ks "down")
                  (Server.flag ks "left") (Server.flag ks "right") = k
  | _ => False
  end.
Proof. destruct k as [[|] [|] [|] [|]]; reflexivity. Qed.

(** The line [send_input] writes for the keys of a frame, read by the
    server's loop for a connection that has joined, stores exactly those
    four flags as the player's input and lets the loop go on. *)
Theorem sent_keys_become_player_input
  (json_loads : string -> option json) (json_dumps : json -> string)
  (c : Server.conn) (start : Z * Z) (k : Server.keys)
  (s : Server.session) (pid : Z) (p : Server.player) :
  let msg := JObj [("type", JStr "input");
                   ("keys", ClientInput.input_keys k)] in
  json_loads (json_dumps msg) = Some msg ->
  Text.strip (json_dumps msg) = json_dumps msg ->
  json_dumps msg <> EmptyString ->
  Server.s_player_id s = Some pid ->
  Server.dict_get c (Server.players (Server.s_world s)) = Some p ->
  exists s',
    Server.handle_line json_loads c start
      (Client.send_input json_dumps (ClientInput.input_keys k)) s
    = (s', Server.Continue)
    /\ Server.dict_get c (Server.players (Server.s_world s'))
       = Some (Server.Player (Server.p_id p) (Server.p_x p) (Server.p_y p)
                             (Server.p_score p) k)
    /\ Server.s_sent s' = Server.s_sent s.
Proof.
  intros msg Hrt Hstrip Hne Hpid Hp.
  unfold Server.handle_line, Client.send_input. fold msg.
  rewrite (strip_line (json_dumps msg) Hstrip Hne), Hrt.
  destruct (json_dumps msg) as [|a t] eqn:E; [congruence|].
  cbn [Text.is_empty]. unfold Server.handle_message, msg. cbn [get lookup].
  cbn [String.eqb Ascii.eqb Bool.eqb eq_str]. rewrite Hpid. cbn [andb].
  unfold Server.input. cbn [get lookup String.eqb Ascii.eqb Bool.eqb].
  rewrite Hp. pose proof (flags_of_input_keys k) as Hk.
  unfold ClientInput.input_keys in *. rewrite Hk.
  eexists. split; [reflexivity|]. split; [|reflexivity].
  cbn [Server.s_world Server.set_players Server.players].
  unfold Server.set_input. apply Decoding.dict_get_set.
Qed.

(** The text [json.dumps] writes for the input message of a frame in which
    only the up key is held, and a codec that knows this one message. *)
Definition up_keys : Server.keys := Server.Keys true false false false.

Definition up_msg : json :=
  JObj [("type", JStr "input"); ("keys", ClientInput.input_keys up_keys)].

Definition up_text : string :=
  let q := SessionFacts.quote in
  ("{" ++ q ++ "type" ++ q ++ ": " ++ q ++ "input" ++ q ++ ", "
   ++ q ++ "keys" ++ q ++ ": {"
   ++ q ++ "up" ++ q ++ ": true, " ++ q ++ "down" ++ q ++ ": false, "
   ++ q ++ "left" ++ q ++ ": false, " ++ q ++ "right" ++ q ++ ": false}}")%string.

Definition up_dumps (m : json) : string := up_text.

Definition up_loads (text : string) : option json :=
  if String.eqb text up_text then Some up_msg else None.

Lemma sent_keys_become_player_input_witness :
  exists s',
    Server.handle_line up_loads 5%nat (0, 0)%Z
      (Client.send_input up_dumps (ClientInput.input_keys up_keys))
      SessionFacts.joined_session
    = (s', Server.Continue)
    /\ Server.dict_get 5%nat (Server.players (Server.s_world s'))
       = Some (Server.Player 7 300 200 0
                 (Server.Keys true false false false))
    /\ Server.s_sent s' = [].
Proof.
  apply (sent_keys_become_player_input up_loads up_dumps 5%nat (0, 0)%Z
           up_keys SessionFacts.joined_session 7%Z
           (Server.Player 7 300 200 0 (Server.Keys false false false false)));
    try reflexivity.
  discriminate.
Defined.

(** *** From the server's snapshot to the client's records *)

(** The record a client without records makes for a player of the
    snapshot. *)
Definition record_of (cp : Server.conn * Server.player)
  : json * Client.entity :=
  (JInt (Server.p_id (snd cp)),
   Client.first_seen (Server.p_x (snd cp)) (Server.p_y (snd cp))
                     (JInt (Server.p_score (snd cp)))).

Definition key_of (cp : Server.conn * Server.player) : json :=
  JInt (Server.p_id (snd cp)).

Section AnyFloatParser.

Variable float_of_str : string -> option R.

Lemma update_entity_of_entry (p : Server.player)
  (es : list (json * Client.entity)) (seen_ids : list json) :
  Client.update_entity float_of_str (Server.player_entry p) (es, seen_ids)
  = Some (Client.upsert (JInt (Server.p_id p)) (Server.p_x p) (Server.p_y p)
                        (JInt (Server.p_score p)) es,
          JInt (Server.p_id p) :: seen_ids).
Proof. reflexivity. Qed.

Lemma update_entities_of_entries (items : list (Server.conn * Server.player)) :
  forall st,
  exists st',
    Client.update_entities float_of_str
      (map (fun cp => Server.player_entry (snd cp)) items) st = Some st'.
Proof.
  induction items as [|cp items IH]; intros [es seen_ids];
    cbn [map Client.update_entities].
  - eexists. reflexivity.
  - rewrite update_entity_of_entry. apply IH.
Qed.

(** The client never raises on a state message the server builds: whatever
    the snapshot and whatever the client tracked before, the message is
    processed, the coins of the message are stored and [my_id] is kept. *)
Theorem client_accepts_server_state
  (items : list (Server.conn * Server.player)) (cs : list Server.coin)
  (cl : Client.client) :
  exists es,
    Client.process float_of_str (Server.state_msg items cs) cl
    = Some (Client.ClientState (JArr (map Server.coin_entry cs))
                               (Client.my_id cl) es).
Proof.
  unfold Client.process, Server.state_msg. cbn [get lookup].
  cbn [String.eqb Ascii.eqb Bool.eqb eq_str].
  unfold Client.update_entities_from_server. cbn [elements].
  destruct (update_entities_of_entries items (Client.entity_state cl, []))
    as [[es' seen_ids] ->].
  eexists. reflexivity.
Qed.

Lemma upsert_new (pid : json) (x y : R) (score : json)
  (es : list (json * Client.entity)) :
  (forall ke, In ke es -> key_eqb (fst ke) pid = false) ->
  Client.upsert pid x y score es
  = es ++ [(pid, Client.first_seen x y score)].
Proof.
  induction es as [|[k ent] es IH]; intros H; cbn [Client.upsert app].
  - reflexivity.
  - pose proof (H (k, ent) (or_introl eq_refl)) as Hk. cbn [fst] in Hk.
    rewrite Hk, IH; [reflexivity|].
    intros ke Hin. apply H. right. exact Hin.
Qed.

Lemma fresh_updates (items : list (Server.conn * Server.player)) :
  forall done seen_ids,
    NoDup (map (fun cp => Server.p_id (snd cp)) (done ++ items)) ->
    Client.update_entities float_of_str
      (map (fun cp => Server.player_entry (snd cp)) items)
      (map record_of done, seen_ids)
    = Some (map record_of (done ++ items),
            rev (map key_of items) ++ seen_ids).
Proof.
  induction items as [|cp items IH]; intros done seen_ids Hnd;
    cbn [map Client.update_entities rev app].
  - rewrite app_nil_r. reflexivity.
  - rewrite update_entity_of_entry, upsert_new.
    + replace (map record_of done
               ++ [(JInt (Server.p_id (snd cp)),
                    Client.first_seen (Server.p_x (snd cp))
                      (Server.p_y (snd cp)) (JInt (Server.p_score (snd cp))))])
        with (map record_of (done ++ [cp]))
        by (rewrite map_app; reflexivity).
      rewrite IH.
      * rewrite <- !app_assoc. reflexivity.
      * rewrite <- app_assoc. exact Hnd.
    + intros ke Hin. apply in_map_iff in Hin. destruct Hin as [d [<- Hd]].
      cbn [record_of fst]. rewrite Reconciliation.key_eqb_int.
      apply Z.eqb_neq. intros Heq.
      rewrite map_app in Hnd. cbn [map] in Hnd.
      apply NoDup_remove_2 in Hnd. apply Hnd. apply in_or_app. left.
      rewrite <- Heq. apply in_map_iff. exists d. split; [reflexivity|exact Hd].
Qed.

Lemma nothing_filtered {A : Type} (keep : A -> bool) (l : list A) :
  Forall (fun a => keep a = true) l -> filter keep l = l.
Proof.
  induction 1 as [|a l Ha _ IH]; cbn [filter]; [reflexivity|].
  rewrite Ha, IH. reflexivity.
Qed.

(** A client that tracks nobody, given the state message of a snapshot
    whose player ids are distinct, ends up with one record per player, in
    the snapshot's order, each at the player's position with timer 0 and
    the player's score. *)
Theorem first_snapshot_reproduces_players
  (items : list (Server.conn * Server.player)) (cs : list Server.coin)
  (cl : Client.client) :
  NoDup (map (fun cp => Server.p_id (snd cp)) items) ->
  Client.entity_state cl = [] ->
  Client.process float_of_str (Server.state_msg items cs) cl
  = Some (Client.ClientState
            (JArr (map Server.coin_entry cs)) (Client.my_id cl)
            (map (fun cp =>
                    (JInt (Server.p_id (snd cp)),
                     Client.Entity
                       (Server.p_x (snd cp)) (Server.p_y (snd cp))
                       (Server.p_x (snd cp)) (Server.p_y (snd cp)) 0
                       (JInt (Server.p_score (snd cp))) None None))
                 items)).
Proof.
  intros Hnd Hempty.
  unfold Client.process, Server.state_msg. cbn [get lookup].
  cbn [String.eqb Ascii.eqb Bool.eqb eq_str].
  unfold Client.update_entities_from_server. cbn [elements].
  rewrite Hempty.
  pose proof (fresh_updates items [] [] Hnd) as Hf. cbn [app map] in Hf.
  rewrite Hf, app_nil_r, nothing_filtered; [reflexivity|].
  apply Forall_forall. intros ke Hin. apply in_map_iff in Hin. destruct Hin as [cp [<- Hcp]].
  cbn [record_of fst]. unfold Client.seen. apply existsb_exists.
  exists (key_of cp). split.
  - apply in_rev. rewrite rev_involutive. apply in_map. exact Hcp.
  - unfold key_of. rewrite Reconciliation.key_eqb_int. apply Z.eqb_refl.
Qed.

End AnyFloatParser.

Lemma first_snapshot_reproduces_players_witness :
  Client.process (fun _ => None)
    (Server.state_msg [(0%nat, Simulation.alice); (1%nat, Simulation.bob)]
                      [Simulation.coin_near_alice])
    (Client.ClientState (JArr []) (JInt 1) [])
  = Some (Client.ClientState
            (JArr [Server.coin_entry Simulation.coin_near_alice]) (JInt 1)
            [(JInt 1, Client.Entity 100 100 100 100 0 (JInt 0) None None);
             (JInt 2, Client.Entity 110 100 110 100 0 (JInt 0) None None)]).
Proof.
  apply (first_snapshot_reproduces_players (fun _ => None)
           [(0%nat, Simulation.alice); (1%nat, Simulation.bob)]
           [Simulation.coin_near_alice]
           (Client.ClientState (JArr []) (JInt 1) [])).
  - repeat constructor; cbn; intuition discriminate.
  - reflexivity.
Defined.

End EndToEnd.

(** ** More on the client's records and frames *)

Module TrackingFacts.

Import Json Client Reconciliation.
Local Open Scope R_scope.
Local Open Scope string_scope.
Local Open Scope list_scope.

Section AnyFloatParser.

Variable float_of_str : string -> option R.

(** The ids the loop has seen are ids the snapshot lists. *)
Lemma seen_ids_are_listed (ps : list json) :
  forall es ids es' ids',
    update_entities float_of_str ps (es, ids) = Some (es', ids') ->
    forall k, In k ids' ->
              In k ids \/ exists q, In q ps /\ getitem q "id" = Some k.
Proof.
  induction ps as [|p ps IH]; intros es ids es' ids' H k Hk;
    cbn [update_entities] in H.
  - injection H as <- <-. left. exact Hk.
  - destruct (update_entity float_of_str p (es, ids)) as [[es1 ids1]|] eqn:E;
      [|discriminate].
    destruct (update_entity_some float_of_str p es es1 ids ids1 E)
      as (pid & vx & vy & x & y & score & Hid & _ & _ & _ & _ & _ & _ & _ & ->).
    destruct (IH es1 (pid :: ids) es' ids' H k Hk) as [[<-|Hin]|[q [Hq Hqid]]].
    + right. exists p. split; [left; reflexivity|exact Hid].
    + left. exact Hin.
    + right. exists q. split; [right; exact Hq|exact Hqid].
Qed.

Lemma find_filter_unseen (pid : json) (seen_ids : list json)
  (es : list (json * entity)) :
  (forall k, In k seen_ids -> key_eqb k pid = false) ->
  find pid (filter (fun ke => seen (fst ke) seen_ids) es) = None.
Proof.
  intros Hno. induction es as [|[k ent] es IH]; cbn [filter fst];
    [reflexivity|].
  destruct (seen k seen_ids) eqn:Hs; [|exact IH].
  cbn [find]. destruct (key_eqb k pid) eqn:Hk; [|exact IH].
  exfalso. unfold seen in Hs. apply existsb_exists in Hs.
  destruct Hs as [k' [Hin Hk']].
  pose proof (Hno k' Hin) as Hf.
  rewrite (key_eqb_trans k' k pid Hk' Hk) in Hf. discriminate.
Qed.

(** After a snapshot has been processed, a player id that none of its
    entries carries is not tracked any more, whether or not it was tracked
    before. *)
Theorem unlisted_player_is_dropped
  (players_list : json) (ps : list json) (es es' : list (json * entity))
  (pid : json) :
  elements players_list = Some ps ->
  update_entities_from_server float_of_str players_list es = Some es' ->
  (forall q qid, In q ps -> getitem q "id" = Some qid ->
                 key_eqb qid pid = false) ->
  find pid es' = None.
Proof.
  intros Hel Hup Hno. unfold update_entities_from_server in Hup.
  rewrite Hel in Hup.
  destruct (update_entities float_of_str ps (es, [])) as [[es1 ids1]|] eqn:E;
    [|discriminate].
  injection Hup as <-. apply find_filter_unseen. intros k Hk.
  destruct (seen_ids_are_listed ps es [] es1 ids1 E k Hk) as [[]|[q [Hq Hid]]].
  apply (Hno q k Hq Hid).
Qed.

Lemma find_upsert_found (pid : json) (x y : R) (score : json)
  (ent : entity) (es : list (json * entity)) :
  find pid es = Some ent ->
  find pid (upsert pid x y score es) = Some (retarget ent x y score).
Proof.
  induction es as [|[k e] es IH]; cbn [find upsert]; intros H;
    [discriminate|].
  destruct (key_eqb k pid) eqn:Hk; cbn [find]; rewrite Hk.
  - injection H as ->. reflexivity.
  - apply IH. exact H.
Qed.

(** When a snapshot that is processed without error lists, exactly once, a
    player the client already tracks, the record keeps what it has drawn
    for the local player, its old target becomes the previous position,
    the reported position the new target, the timer restarts and the
    score is the reported one. *)
Theorem second_sight_shifts_target
  (before after : list json) (p pid vx vy score : json) (x y : R)
  (ent : entity) (es es' : list (json * entity)) :
  update_entities_from_server float_of_str
    (JArr (before ++ p :: after)) es = Some es' ->
  getitem p "id" = Some pid ->
  getitem p "x" = Some vx -> float float_of_str vx = Some x ->
  getitem p "y" = Some vy -> float float_of_str vy = Some y ->
  getitem p "score" = Some score ->
  find pid es = Some ent ->
  (forall q qid, In q (before ++ after) -> getitem q "id" = Some qid ->
                 key_eqb qid pid = false) ->
  find pid es'
  = Some (Entity (e_x ent) (e_y ent) x y 0 score
                 (e_x_draw ent) (e_y_draw ent)).
Proof.
  intros Hup Hid Hx Hfx Hy Hfy Hscore Hold Hothers.
  unfold update_entities_from_server in Hup. cbn [elements] in Hup.
  rewrite update_entities_app in Hup.
  destruct (update_entities float_of_str before (es, []))
    as [[es1 ids1]|] eqn:E1; [|discriminate].
  cbn [update_entities] in Hup.
  destruct (update_entity float_of_str p (es1, ids1))
    as [[es2 ids2]|] eqn:E2; [|discriminate].
  destruct (update_entities float_of_str after (es2, ids2))
    as [[es3 ids3]|] eqn:E3; [|discriminate].
  injection Hup as <-.
  destruct (update_entities_other float_of_str pid before
              (fun q qid Hin => Hothers q qid (in_or_app _ _ q (or_introl Hin)))
              es [] es1 ids1 E1) as [Hf1 _].
  destruct (update_entity_some float_of_str p es1 es2 ids1 ids2 E2)
    as (pid' & vx' & vy' & x' & y' & score' & Hid' & Hx' & Hfx' & Hy'
        & Hfy' & Hscore' & Hh & -> & ->).
  assert (pid' = pid) by congruence. subst pid'.
  assert (vx' = vx) by congruence. subst vx'.
  assert (vy' = vy) by congruence. subst vy'.
  assert (x' = x) by congruence. subst x'.
  assert (y' = y) by congruence. subst y'.
  assert (score' = score) by congruence. subst score'.
  destruct (update_entities_other float_of_str pid after
              (fun q qid Hin => Hothers q qid (in_or_app _ _ q (or_intror Hin)))
              _ _ es3 ids3 E3) as [Hf3 Hs3].
  rewrite find_filter_seen.
  - rewrite Hf3. apply find_upsert_found. rewrite Hf1. exact Hold.
  - apply Hs3. rewrite seen_cons, (key_eqb_refl pid Hh). reflexivity.
Qed.

End AnyFloatParser.

(** The client of the first-sight example gets a snapshot that lists only
    player 2: player 1 is dropped. *)
Lemma unlisted_player_is_dropped_witness :
  find (JInt 1) [(JInt 2, first_seen 110 100 (JInt 0))] = None.
Proof.
  apply (unlisted_player_is_dropped (fun _ => None)
           (JArr [Server.player_entry Simulation.bob])
           [Server.player_entry Simulation.bob] tracked
           [(JInt 2, first_seen 110 100 (JInt 0))] (JInt 1)).
  - reflexivity.
  - run_update. reflexivity.
  - intros q qid [<-|[]] Hid. cbn in Hid. injection Hid as <-.
    rewrite key_eqb_int. reflexivity.
Defined.

Lemma second_sight_shifts_target_witness :
  find (JInt 1) tracked_after
  = Some (Entity 100 100 100 100 0 (JInt 0) None None).
Proof.
  apply (second_sight_shifts_target (fun _ => None)
           [] [Server.player_entry Simulation.bob]
           (Server.player_entry Simulation.alice)
           (JInt 1) (JFloat 100) (JFloat 100) (JInt 0) 100%R 100%R
           (first_seen 100 100 (JInt 0)) tracked tracked_after);
    try reflexivity.
  - exact snapshot_update.
  - run_update. reflexivity.
  - intros q qid [<-|[]] Hid. cbn in Hid. injection Hid as <-.
    rewrite key_eqb_int. reflexivity.
Defined.

(** *** Drawn positions of remote players *)

Lemma alpha_range (ent : entity) : 0 <= e_t ent -> 0 <= alpha ent <= 1.
Proof.
  intros Ht. unfold alpha, Py.min, INTERP_DURATION.
  destruct (Rlt_dec 1 (e_t ent / 0.1)); [lra|].
  split; [|lra]. unfold Rdiv. apply Rmult_le_pos; [exact Ht|lra].
Qed.

(** While the timer is not negative, alpha is between 0 and 1 and the
    position drawn for a remote player lies, on each axis, between the
    previous position and the target: the client never extrapolates. *)
Theorem interpolation_stays_between (ent : entity) :
  0 <= e_t ent ->
  0 <= alpha ent <= 1
  /\ Rmin (e_x_prev ent) (e_x ent) <= fst (interpolate ent)
     <= Rmax (e_x_prev ent) (e_x ent)
  /\ Rmin (e_y_prev ent) (e_y ent) <= snd (interpolate ent)
     <= Rmax (e_y_prev ent) (e_y ent).
Proof.
  intros Ht. pose proof (alpha_range ent Ht) as Ha.
  split; [exact Ha|]. unfold interpolate. cbn [fst snd].
  unfold Rmin, Rmax.
  destruct (Rle_dec (e_x_prev ent) (e_x ent));
    destruct (Rle_dec (e_y_prev ent) (e_y ent)); repeat split; nra.
Qed.

(** A record half way through its interpolation. *)
Definition half_way : entity :=
  Entity 100 100 110 90 0.05 (JInt 0) None None.

Lemma interpolation_stays_between_witness :
  0 <= alpha half_way <= 1
  /\ Rmin 100 110 <= fst (interpolate half_way) <= Rmax 100 110
  /\ Rmin 100 90 <= snd (interpolate half_way) <= Rmax 100 90.
Proof.
  apply (interpolation_stays_between half_way).
  unfold half_way. cbn [e_t]. lra.
Defined.

(** Right after a record has been given a new target, the position drawn
    for it is its old target, whatever the timer was.  So a snapshot that
    arrives once the interpolation has run its INTERP_DURATION causes no
    jump of the drawn position. *)
Theorem retarget_draws_old_target
  (ent : entity) (x y : R) (score : json) :
  interpolate (retarget ent x y score) = (e_x ent, e_y ent)
  /\ (INTERP_DURATION <= e_t ent ->
      interpolate (retarget ent x y score) = interpolate ent).
Proof.
  assert (H0 : alpha (retarget ent x y score) = 0).
  { unfold alpha, retarget, Py.min, INTERP_DURATION. cbn [e_t].
    destruct (Rlt_dec 1 (0 / 0.1)); lra. }
  assert (H : interpolate (retarget ent x y score) = (e_x ent, e_y ent)).
  { unfold interpolate. rewrite H0. unfold retarget.
    cbn [e_x e_y e_x_prev e_y_prev]. f_equal; ring. }
  split; [exact H|]. intros Ht. rewrite H.
  assert (Ha : alpha ent = 1).
  { unfold alpha, Py.min, INTERP_DURATION in *.
    destruct (Rlt_dec 1 (e_t ent / 0.1)); lra. }
  unfold interpolate. rewrite Ha. f_equal; ring.
Qed.

(** *** Frames *)

(** The outcomes of [sock.recv] that bring no text: the three socket
    errors and the empty result of a closed connection. *)
Definition arrived_nothing (r : recv_result) : bool :=
  match r with
  | Received data => Text.is_empty data
  | UnicodeDecodeError => false
  | BlockingIOError | ConnectionResetError | OSError => true
  end.

Section AnyLibrary.

Variable json_loads : string -> option json.
Variable float_of_str : string -> option R.
Variable int_of_str : string -> option Z.
Variable draw_circle : Z * Z -> option unit.
Variable draw_rect : Z * Z -> option unit.
Variable F : Py.float_format.

(** What a frame without news does to a record: the frame time is added
    to the timer; what the server reported stays. *)
Definition aged (dt : R) (a b : json * entity) : Prop :=
  fst b = fst a /\
  e_x_prev (snd b) = e_x_prev (snd a) /\ e_y_prev (snd b) = e_y_prev (snd a) /\
  e_x (snd b) = e_x (snd a) /\ e_y (snd b) = e_y (snd a) /\
  e_score (snd b) = e_score (snd a) /\
  e_t (snd b) = (e_t (snd a) + dt)%R.

Lemma draw_entity_keeps (me pid : json) (ent : entity) :
  let ent' := fst (draw_entity F me pid ent) in
  e_x_prev ent' = e_x_prev ent /\ e_y_prev ent' = e_y_prev ent /\
  e_x ent' = e_x ent /\ e_y ent' = e_y ent /\
  e_score ent' = e_score ent /\ e_t ent' = e_t ent.
Proof.
  unfold draw_entity. destruct (negb (key_eqb pid me)); cbn [fst].
  - repeat split.
  - unfold correct, correct_with. destruct (visual ent). repeat split.
Qed.

Lemma draw_rects_all (corners : list (Z * Z)) :
  (forall c, draw_rect c = Some tt) ->
  draw_rects draw_rect corners = Some corners.
Proof.
  intros Hok. induction corners as [|c corners IH]; cbn [draw_rects];
    [reflexivity|].
  rewrite (Hok c), IH. reflexivity.
Qed.

Lemma draw_coins_length (cs : list json) (circles : list (Z * Z)) :
  draw_coins int_of_str draw_circle cs = Some circles ->
  List.length circles = List.length cs.
Proof.
  revert circles. induction cs as [|c cs IH]; intros circles H;
    cbn [draw_coins] in H.
  - injection H as <-. reflexivity.
  - destruct (draw_coin int_of_str draw_circle c) as [centre|];
      [|discriminate].
    destruct (draw_coins int_of_str draw_circle cs) as [centres|];
      [|discriminate].
    injection H as <-. cbn [List.length]. rewrite (IH centres eq_refl).
    reflexivity.
Qed.

(** A frame in which the socket has nothing (or fails, or reports that
    the server closed), entered with coins that can be drawn and with a
    pygame that paints every rectangle, is drawn: the buffer, the coins
    and [my_id] are kept, every record keeps its key and what the server
    reported, and its timer grows by the frame time; one circle is drawn
    per coin and one rectangle per record.  Entered with coins that cannot
    be drawn, the frame raises. *)
Theorem frame_without_news
  (dt : R) (r : recv_result) (recv_buffer : string) (cl : client)
  (cs : list json) :
  arrived_nothing r = true ->
  elements (coins cl) = Some cs ->
  (forall c, draw_rect c = Some tt) ->
  (forall circles,
     draw_coins int_of_str draw_circle cs = Some circles ->
     exists es rects,
       frame json_loads float_of_str int_of_str draw_circle draw_rect F
             dt r recv_buffer cl
       = Some (recv_buffer, ClientState (coins cl) (my_id cl) es,
               circles, rects)
       /\ Forall2 (aged dt) (entity_state cl) es
       /\ List.length circles = List.length cs
       /\ List.length rects = List.length (entity_state cl))
  /\ (draw_coins int_of_str draw_circle cs = None ->
      frame json_loads float_of_str int_of_str draw_circle draw_rect F
            dt r recv_buffer cl
      = None).
Proof.
  intros Hr Hcs Hrect.
  assert (Hrecv : recv_messages json_loads r recv_buffer
                  = Some (recv_buffer, [])).
  { destruct r as [data| | | |]; cbn in Hr; try discriminate;
      try reflexivity.
    cbn [recv_messages]. rewrite Hr. reflexivity. }
  split.
  - intros circles Hdraw. unfold frame. rewrite Hrecv. cbn [process_all].
    rewrite Hcs, Hdraw. unfold draw_players.
    rewrite (draw_rects_all _ Hrect).
    eexists. eexists. split; [reflexivity|]. split; [|split].
    + induction (entity_state cl) as [|[k ent] es IH]; cbn [advance map];
        constructor; [|exact IH].
      cbn [fst snd].
      match goal with
      | |- aged dt _ (_, fst (draw_entity F ?me ?pid ?e)) =>
          destruct (draw_entity_keeps me pid e)
            as (H1 & H2 & H3 & H4 & H5 & H6)
      end.
      unfold aged. cbn [fst snd]. rewrite H1, H2, H3, H4, H5, H6.
      repeat split.
    + apply (draw_coins_length cs circles Hdraw).
    + rewrite !length_map. unfold advance. apply length_map.
  - intros Hdraw. unfold frame. rewrite Hrecv. cbn [process_all].
    rewrite Hcs, Hdraw. reflexivity.
Qed.

(** A complete line holding a JSON value that is not an object is handed
    to the dispatch like any message, and the dispatch raises: the frame
    that receives it does not finish. *)
Theorem non_object_message_stops_client
  (dt : R) (line : string) (msg : json) (cl : client) :
  Text.has_newline line = false ->
  Text.is_empty (Text.strip line) = false ->
  json_loads (Text.strip line) = Some msg ->
  (forall fields, msg <> JObj fields) ->
  frame json_loads float_of_str int_of_str draw_circle draw_rect F dt
        (Received (line ++ String Text.newline EmptyString)%string)
        EmptyString cl
  = None.
Proof.
  intros Hl Hne Hmsg Hobj. unfold frame, recv_messages.
  assert (Hd : Text.is_empty (line ++ String Text.newline EmptyString)%string
               = false) by (destruct line; reflexivity).
  rewrite Hd. cbn [append].
  rewrite Framing.drain_unfold, (Framing.split_newline_at line _ Hl).
  unfold Framing.decode_line. rewrite Hne, Hmsg. cbn [app].
  rewrite Framing.drain_no_newline by reflexivity.
  cbn [process_all]. unfold process.
  destruct msg; try reflexivity. exfalso. apply (Hobj m). reflexivity.
Qed.

End AnyLibrary.

(** The coins of a state message of the server: one entry. *)
Definition one_coin : json :=
  JArr [Server.coin_entry Simulation.coin_under_alice].

Lemma frame_without_news_witness :
  exists es rects,
    frame Framing.literal_loads (fun _ => None) (fun _ => None)
          (fun _ => Some tt) (fun _ => Some tt) PyFacts.exact_reals
          0.016 BlockingIOError "tr" (ClientState one_coin (JInt 1) tracked)
    = Some ("tr"%string, ClientState one_coin (JInt 1) es,
            [(100, 100)%Z], rects)
    /\ Forall2 (aged 0.016) tracked es
    /\ List.length [(100, 100)%Z] = 1%nat
    /\ List.length rects = 1%nat.
Proof.
  destruct (frame_without_news Framing.literal_loads (fun _ => None)
              (fun _ => None) (fun _ => Some tt) (fun _ => Some tt)
              PyFacts.exact_reals 0.016
              BlockingIOError "tr" (ClientState one_coin (JInt 1) tracked)
              [Server.coin_entry Simulation.coin_under_alice])
    as [H _].
  - reflexivity.
  - reflexivity.
  - reflexivity.
  - apply (H [(100, 100)%Z]). reflexivity.
Defined.

Lemma non_object_message_stops_client_witness :
  frame Framing.literal_loads (fun _ => None) (fun _ => None)
        (fun _ => Some tt) (fun _ => Some tt) PyFacts.exact_reals 0.016
        (Received ("true" ++ String Text.newline EmptyString)%string)
        EmptyString (ClientState (JArr []) (JInt 1) tracked)
  = None.
Proof.
  apply (non_object_message_stops_client Framing.literal_loads
           (fun _ => None) (fun _ => None) (fun _ => Some tt)
           (fun _ => Some tt) PyFacts.exact_reals 0.016 "true" (JBool true)
           (ClientState (JArr []) (JInt 1) tracked));
    try reflexivity.
  intros fields. discriminate.
Defined.

End TrackingFacts.

(** ** The client's input sending *)

Module InputFacts.

Import Json ClientInput.
Import PrimFloat.
Local Open Scope list_scope.

Lemma keys_eqb_eq (a b : Server.keys) : keys_eqb a b = true -> a = b.
Proof.
  destruct a as [a1 a2 a3 a4], b as [b1 b2 b3 b4]. unfold keys_eqb.
  cbn [Server.k_up Server.k_down Server.k_left Server.k_right].
  destruct a1, a2, a3, a4, b1, b2, b3, b4; cbn; intros H;
    try discriminate; reflexivity.
Qed.

Lemma keys_eqb_refl (a : Server.keys) : keys_eqb a a = true.
Proof. destruct a as [[|] [|] [|] [|]]; reflexivity. Qed.

Lemma changed_false (k : Server.keys) (last : option Server.keys) :
  changed k last = false <-> last = Some k.
Proof.
  unfold changed. destruct last as [l|].
  - rewrite negb_false_iff. split.
    + intros H. rewrite (keys_eqb_eq k l H). reflexivity.
    + intros H. injection H as ->. apply keys_eqb_refl.
  - split; discriminate.
Qed.

(** After the input block of any frame, from any state: the keys last
    handed to [send_input] are the keys of this frame, and the timer is
    below the double 0.1; the frame sends exactly when the keys differ from
    the last ones sent or the timer, with the frame time added in
    binary64, has reached the double 0.1, and what it sends is the message
    for the keys of this frame. *)
Theorem input_block_keeps_server_current
  (json_dumps : json -> string) (dt : float) (k : Server.keys)
  (st : sender) :
  let st' := fst (poll json_dumps dt k st) in
  let sent := snd (poll json_dumps dt k st) in
  last_input_keys st' = Some k
  /\ leb 0.1%float (send_timer st') = false
  /\ (last_input_keys st <> Some k
      \/ leb 0.1%float (send_timer st + dt)%float = true ->
      sent = Some (Client.send_input json_dumps (input_keys k))
      /\ send_timer st' = 0%float)
  /\ (last_input_keys st = Some k ->
      leb 0.1%float (send_timer st + dt)%float = false ->
      sent = None /\ send_timer st' = (send_timer st + dt)%float).
Proof.
  unfold poll, due.
  destruct (changed k (last_input_keys st)) eqn:Hc; cbn [orb].
  - cbn [fst snd last_input_keys send_timer].
    split; [reflexivity|]. split; [reflexivity|]. split.
    + intros _. split; reflexivity.
    + intros Hlast _. apply changed_false in Hlast. congruence.
  - apply changed_false in Hc.
    destruct (leb 0.1%float (send_timer st + dt)%float) eqn:Hdue;
      cbn [fst snd last_input_keys send_timer].
    + split; [reflexivity|]. split; [reflexivity|]. split.
      * intros _. split; reflexivity.
      * intros _ Hf. discriminate.
    + split; [exact Hc|]. split; [exact Hdue|]. split.
      * intros [Hne|Ht]; [contradiction|discriminate].
      * intros _ _. split; reflexivity.
Qed.

Lemma polls_app (json_dumps : json -> string)
  (l1 l2 : list (float * Server.keys)) (st : sender) :
  polls json_dumps (l1 ++ l2) st
  = (fst (polls json_dumps l2 (fst (polls json_dumps l1 st))),
     snd (polls json_dumps l1 st)
     ++ snd (polls json_dumps l2 (fst (polls json_dumps l1 st)))).
Proof.
  revert st. induction l1 as [|[dt k] l1 IH]; intros st;
    cbn [app polls fst snd].
  - destruct (polls json_dumps l2 st). reflexivity.
  - destruct (poll json_dumps dt k st) as [st1 sent]. rewrite IH.
    destruct (polls json_dumps l1 st1) as [st2 more1]. cbn [fst snd].
    destruct (polls json_dumps l2 st2) as [st3 more2]. cbn [fst snd].
    destruct sent; reflexivity.
Qed.

(** A change of the keys is never held back by the timer.  After any run
    of frames, a frame whose keys differ from the last ones sent adds
    exactly one text, the message for its keys, to what was sent, whatever
    its frame time; and after it the keys last sent are its keys and the
    timer is 0. *)
Theorem key_change_is_sent_at_once
  (json_dumps : json -> string) (frames : list (float * Server.keys))
  (dt : float) (k : Server.keys) (st : sender) :
  last_input_keys (fst (polls json_dumps frames st)) <> Some k ->
  snd (polls json_dumps (frames ++ [(dt, k)]) st)
  = snd (polls json_dumps frames st)
    ++ [Client.send_input json_dumps (input_keys k)]
  /\ fst (polls json_dumps (frames ++ [(dt, k)]) st)
     = Sender (Some k) 0%float.
Proof.
  intros Hne. rewrite polls_app. cbn [fst snd polls].
  unfold poll.
  destruct (changed k (last_input_keys (fst (polls json_dumps frames st))))
    eqn:Hc.
  - cbn [orb fst snd]. split; reflexivity.
  - apply changed_false in Hc. contradiction.
Qed.

(** The up key, held. *)
Definition up_held : Server.keys := Server.Keys true false false false.

(** The up key is held for five frames, then right is pressed as well. *)
Lemma key_change_is_sent_at_once_witness :
  snd (polls (fun _ => EmptyString)
             (repeat (0.016%float, up_held) 5
              ++ [(0.016%float, Server.Keys true false false true)])
             initial)
  = snd (polls (fun _ => EmptyString) (repeat (0.016%float, up_held) 5)
               initial)
    ++ [Client.send_input (fun _ => EmptyString)
          (input_keys (Server.Keys true false false true))]
  /\ fst (polls (fun _ => EmptyString)
             (repeat (0.016%float, up_held) 5
              ++ [(0.016%float, Server.Keys true false false true)])
             initial)
     = Sender (Some (Server.Keys true false false true)) 0%float.
Proof.
  apply (key_change_is_sent_at_once (fun _ => EmptyString)
           (repeat (0.016%float, up_held) 5) 0.016%float
           (Server.Keys true false false true) initial).
  vm_compute. discriminate.
Defined.

(** Frame times that add up to a tenth of a second on paper.  With the
    keys unchanged, a frame of 59 ms after one of 41 ms sends: the sum of
    the two doubles is the double 0.1.  Frames of 16, 25, 18, 25 and 16 ms
    send nothing: their sum in binary64 stays below it. *)
Example a_tenth_of_a_second :
  snd (polls (fun _ => EmptyString)
             [(0.041%float, up_held); (0.059%float, up_held)]
             (Sender (Some up_held) 0%float))
  = [Client.send_input (fun _ => EmptyString) (input_keys up_held)]
  /\ snd (polls (fun _ => EmptyString)
                [(0.016%float, up_held); (0.025%float, up_held);
                 (0.018%float, up_held); (0.025%float, up_held);
                 (0.016%float, up_held)]
                (Sender (Some up_held) 0%float))
     = [].
Proof. vm_compute. split; reflexivity. Qed.

End InputFacts.
